(** * The hybrid query engine of nlp-query-engine

    A shallow embedding of the query-processing edge function (the
    [Deno.serve] handler with [classifyQuery], [generateSQL],
    [generateCacheKey], [checkCache], [updateCacheHit], [cacheResult],
    [storeQueryHistory], the three [process*Query] functions) and of the SQL
    function [match_documents] it calls.

    JavaScript strings are sequences of UTF-16 code units, modelled as
    [list N].  The database tables the handler touches form an explicit
    [World]; what the handler cannot decide itself (clock readings, the
    random embedding, whether a call to the store succeeds, reports an
    error in its [{data, error}] reply, or throws) is read from an [Env].
    Exceptions are explicit: a computation returns [Ok] or [Throw], and the
    handler's [catch] turns a [Throw] into the 500 response.

    The handler reaches the store through the supabase-js 2 client, and the
    tables are those of the migration.  A query builder of that client
    resolves to its [{data, error}] reply; the [Env] may also make a call
    throw, which adds runs the client does not have.  The client has no
    member [raw], so [updateCacheHit] throws on every call.  [query_cache]
    has the primary key [id] and a unique [cache_key], and [upsert] is
    called without [onConflict], so a row is written under a key only when
    the key has none.  [match_documents] is modelled as its statement
    defines it; the migration also builds an ivfflat index on the
    embeddings, through which a search returns rows that qualify but may
    miss some that do.

    Two built-ins are parameters of the engine: [toLowerCase], the
    runtime's Unicode case mapping, and the cosine distance operator of the
    vector extension.  Similarities are floating-point numbers in the
    source; here they are rationals, so that the comparison with the
    threshold and the order by distance are exact. *)

From Stdlib Require Import QArith.
From stdpp Require Import gmap list strings sorting.

(** ** JavaScript strings *)

Abbreviation jsstring := (list N).

(** A source literal, as code units. *)
Definition js (s : string) : jsstring :=
  (λ a, Ascii.N_of_ascii a) <$> String.list_ascii_of_string s.

Fixpoint startsWith (s t : jsstring) {struct t} : bool :=
  match t, s with
  | [], _ => true
  | _ :: _, [] => false
  | c :: t', d :: s' => (c =? d)%N && startsWith s' t'
  end.

(** [String.prototype.includes]: [t] occurs in [s] as a run of code units. *)
Fixpoint includes (s t : jsstring) : bool :=
  startsWith s t ||
  match s with
  | [] => false
  | _ :: s' => includes s' t
  end.

(** [Array.prototype.some] is [existsb]. *)
Definition some {A} (f : A → bool) (l : list A) : bool := existsb f l.

(** [toLowerCase] on strings of Basic Latin letters: [A-Z] to [a-z]. *)
Definition asciiToLowerCase (s : jsstring) : jsstring :=
  (λ c, if (65 <=? c)%N && (c <=? 90)%N then (c + 32)%N else c) <$> s.

(** What it means, as a proposition, for a string to contain another. *)
Definition contains (s t : jsstring) : Prop :=
  ∃ pre post, s = pre ++ t ++ post.

Definition mentions (kws : list jsstring) (s : jsstring) : Prop :=
  ∃ k, k ∈ kws ∧ contains s k.

(** ** Data model *)

Inductive QueryType := SQL | Document | Hybrid.

Inductive JsonValue :=
| JNum (z : Z)
| JStr (s : jsstring).

(** A result row of the relational executor: an object of column values. *)
Definition Row := list (jsstring * JsonValue).

(** [schema_data] of a discovered database (the [TableInfo] records written
    by schema discovery). *)
Record ColumnInfo := {
  col_name : jsstring;
  col_type : jsstring;
  nullable : bool;
  isPrimaryKey : bool;
  isForeignKey : bool;
  referencedTable : option jsstring;
  referencedColumn : option jsstring
}.

Record TableInfo := {
  tableName : jsstring;
  columns : list ColumnInfo;
  rowCount : Z;
  inferredPurpose : jsstring
}.

Record Schema := { tables : list TableInfo }.

Definition schema_has_table (s : Schema) (t : jsstring) : bool :=
  some (λ ti, bool_decide (tableName ti = t)) (tables s).

(** A template literal that spans several source lines. *)
Definition template (lines : list string) : jsstring :=
  match js <$> lines with
  | [] => []
  | l :: ls => l ++ concat ((λ x, 10%N :: x) <$> ls)
  end.

(** ** The keyword tables and statement shapes *)

Definition sqlKeywords : list jsstring :=
  js <$> ["count"; "average"; "sum"; "group by"; "order by"; "salary";
          "department"; "employees"; "how many"; "list all"; "show me all"].

Definition docKeywords : list jsstring :=
  js <$> ["skills"; "experience"; "resume"; "qualifications"; "background";
          "python"; "java"; "programming"; "certification"].

Definition sql_count : jsstring :=
  js "SELECT COUNT(*) as employee_count FROM employees;".

Definition sql_avg_by_dept : jsstring :=
  template
    ["SELECT d.dept_name, AVG(e.annual_salary) as avg_salary ";
     "              FROM employees e ";
     "              JOIN departments d ON e.dept_id = d.dept_id ";
     "              GROUP BY d.dept_name;"].

Definition sql_avg : jsstring :=
  js "SELECT AVG(annual_salary) as average_salary FROM employees;".

Definition sql_top_by_dept : jsstring :=
  template
    ["SELECT d.dept_name, e.full_name, e.annual_salary";
     "              FROM employees e";
     "              JOIN departments d ON e.dept_id = d.dept_id";
     "              WHERE e.annual_salary = (";
     "                SELECT MAX(e2.annual_salary) ";
     "                FROM employees e2 ";
     "                WHERE e2.dept_id = e.dept_id";
     "              )";
     "              ORDER BY e.annual_salary DESC;"].

Definition sql_top : jsstring :=
  js "SELECT full_name, annual_salary FROM employees ORDER BY annual_salary DESC LIMIT 5;".

Definition sql_hired_this_year : jsstring :=
  template
    ["SELECT full_name, position, join_date ";
     "            FROM employees ";
     "            WHERE EXTRACT(YEAR FROM join_date) = EXTRACT(YEAR FROM CURRENT_DATE);"].

Definition sql_default : jsstring :=
  js "SELECT * FROM employees LIMIT 10;".

(** ** Results, rows and tables *)

Abbreviation vector := (list Q).

Record PerformanceMetrics := {
  responseTime : Z;
  cacheHit : bool;
  resultsCount : nat
}.

Record DocumentResult := {
  dr_id : jsstring;
  dr_text : jsstring;
  similarity : Q;
  document : jsstring;
  metadata : jsstring
}.

(** The [QueryResult] interface; an optional field is [None] when the
    object has no such property. *)
Record QueryResult := {
  queryType : QueryType;
  sqlResults : option (list Row);
  documentResults : option (list DocumentResult);
  generatedSQL : option jsstring;
  performanceMetrics : PerformanceMetrics;
  sources : list jsstring
}.

(** [discovered_databases]: the columns the handler selects on. *)
Record DatabaseRow := {
  db_id : jsstring;
  db_user_id : jsstring;
  schema_data : Schema
}.

Record DocumentRow := {
  d_id : jsstring;
  d_user_id : option jsstring;
  filename : jsstring
}.

Record ChunkRow := {
  dc_id : jsstring;
  document_id : jsstring;
  chunk_text : jsstring;
  embedding : option vector;
  dc_metadata : jsstring
}.

(** A row of [query_cache]; the table is keyed by its unique [cache_key]. *)
Record CacheRow := {
  query_text : jsstring;
  results : QueryResult;
  expires_at : Z;
  hit_count : Z;
  last_accessed : Z
}.

Record HistoryRow := {
  user_id : jsstring;
  h_query_text : jsstring;
  query_type : QueryType;
  generated_sql : option jsstring;
  results_sql : option (list Row);
  results_documents : option (list DocumentResult);
  performance_metrics : PerformanceMetrics;
  h_cache_key : jsstring
}.

(** A row returned by [match_documents]. *)
Record MatchRow := {
  m_id : jsstring;
  m_document_id : jsstring;
  m_chunk_text : jsstring;
  m_similarity : Q;
  m_filename : jsstring;
  m_metadata : jsstring
}.

Record World := {
  query_cache : gmap (list N) CacheRow;
  query_history : list HistoryRow;
  discovered_databases : list DatabaseRow;
  documents : list DocumentRow;
  document_chunks : list ChunkRow
}.

Definition set_query_cache (c : gmap (list N) CacheRow) (w : World) : World :=
  {| query_cache := c;
     query_history := query_history w;
     discovered_databases := discovered_databases w;
     documents := documents w;
     document_chunks := document_chunks w |}.

Definition set_query_history (h : list HistoryRow) (w : World) : World :=
  {| query_cache := query_cache w;
     query_history := h;
     discovered_databases := discovered_databases w;
     documents := documents w;
     document_chunks := document_chunks w |}.

(** ** Exceptions and the environment *)

(** The awaited calls of the handler. *)
Inductive Op :=
| OpGetUser
| OpCheckCache
| OpSelectSchema
| OpMatchDocuments
| OpCacheResult
| OpStoreQueryHistory.

Inductive Exn :=
| TypeError                (* a call of what is not a function, a method of null *)
| InvalidCharacterError    (* btoa on a code unit above 0xFF *)
| DatabaseNotFound         (* new Error('Database not found') *)
| Rejected (op : Op).      (* the awaited promise rejected *)

(** How a call to the client ends: it does the work, it resolves to a
    reply whose [error] is set and whose [data] is null, or it throws. *)
Inductive Reply := Succeeds | ReplyError | Throws.

(** [plpgsql.variable_conflict]: what a name means in a query of a
    PL/pgSQL function when it is both a variable of the function and a
    column of a table in scope.  [ConflictError], the default, raises
    "column reference is ambiguous". *)
Inductive Resolution := ConflictError | UseVariable | UseColumn.

(** What a run of the handler reads from outside.  Every awaited call is
    reached at most once in a request, so one [Reply] per [Op] decides it. *)
Record Env := {
  reply : Op → Reply;
  variable_conflict : Resolution;        (* the database's setting *)
  getUser : jsstring → option jsstring;  (* token to user id *)
  t_start : Z;      (* Date.now() on entry *)
  t_lookup : Z;     (* new Date() in checkCache *)
  t_respond : Z;    (* Date.now() when responseTime is computed *)
  t_store : Z;      (* Date.now() in cacheResult *)
  random_embedding : vector  (* the 384 draws of Math.random *)
}.

(** The request as the handler reads it: the method, the [Authorization]
    header, and the parsed JSON body. *)
Record Request := {
  is_options : bool;
  authorization : option jsstring;
  req_query : jsstring;
  req_databaseId : option jsstring
}.

Inductive Response :=
| RespPreflight
| RespUnauthorized
| RespOk (r : QueryResult)
| RespError (details : Exn).

Inductive result (A : Type) :=
| Ok (a : A)
| Throw (e : Exn).
Arguments Ok {A} a.
Arguments Throw {A} e.

(** Computations that read and write the tables and may throw. *)
Definition M (A : Type) : Type := World → result A * World.

Definition ret {A} (a : A) : M A := λ w, (Ok a, w).
Definition throw {A} (e : Exn) : M A := λ w, (Throw e, w).
Definition bind {A B} (m : M A) (k : A → M B) : M B :=
  λ w, match m w with
       | (Ok a, w') => k a w'
       | (Throw e, w') => (Throw e, w')
       end.
Definition lift {A} (r : result A) : M A := λ w, (r, w).

Notation "x <- m ;; k" := (bind m (λ x, k))
  (at level 100, m at next level, right associativity).
Notation "m ;;; k" := (bind m (λ _, k))
  (at level 100, right associativity).

(** [try { ... } catch (error) { return 500 }]. *)
Definition catch (m : M Response) (w : World) : Response * World :=
  match m w with
  | (Ok resp, w') => (resp, w')
  | (Throw e, w') => (RespError e, w')
  end.

(** One awaited call: [work] is what the store does when the call succeeds. *)
Definition call {A} (env : Env) (op : Op) (work : World → A * World) : M (option A) :=
  λ w, match reply env op with
       | Succeeds => let '(a, w') := work w in (Ok (Some a), w')
       | ReplyError => (Ok None, w)
       | Throws => (Throw (Rejected op), w)
       end.

(** ** Cache keys *)

Definition b64char (n : N) : N :=
  if (n <? 26)%N then (65 + n)%N
  else if (n <? 52)%N then (97 + (n - 26))%N
  else if (n <? 62)%N then (48 + (n - 52))%N
  else if (n =? 62)%N then 43%N
  else 47%N.

Definition pad : N := 61%N.

Fixpoint base64 (bs : list N) : list N :=
  match bs with
  | [] => []
  | [a] => [b64char (a / 4); b64char ((a mod 4) * 16); pad; pad]
  | [a; b] =>
      [b64char (a / 4); b64char ((a mod 4) * 16 + b / 16);
       b64char ((b mod 16) * 4); pad]
  | a :: b :: c :: rest =>
      b64char (a / 4) :: b64char ((a mod 4) * 16 + b / 16) ::
      b64char ((b mod 16) * 4 + c / 64) :: b64char (c mod 64) ::
      base64 rest
  end%N.

Definition latin1 (s : jsstring) : bool := forallb (λ c, (c <=? 255)%N) s.

(** [btoa]: base64 of a string of code units up to 0xFF, an
    [InvalidCharacterError] otherwise. *)
Definition btoa (s : jsstring) : result jsstring :=
  if latin1 s then Ok (base64 s) else Throw InvalidCharacterError.

Definition alnum (c : N) : bool :=
  ((97 <=? c) && (c <=? 122) || (65 <=? c) && (c <=? 90) ||
   (48 <=? c) && (c <=? 57))%N.

(** What a template literal prints for an optional string. *)
Definition interpolate (s : option jsstring) : jsstring :=
  match s with
  | Some s => s
  | None => js "undefined"
  end.

Definition dash : N := 45%N.

Definition keyContent (query : jsstring) (databaseId : option jsstring)
    (userId : jsstring) : jsstring :=
  query ++ dash :: interpolate databaseId ++ dash :: userId.

Definition generateCacheKey (query : jsstring) (databaseId : option jsstring)
    (userId : jsstring) : result jsstring :=
  match btoa (keyContent query databaseId userId) with
  | Ok b => Ok (take 32 (filter (λ c, alnum c = true) b))
  | Throw e => Throw e
  end.

(** ** The cache and the history *)

Definition checkCache (env : Env) (cacheKey : jsstring) : M (option QueryResult) :=
  data <- call env OpCheckCache
            (λ w, (match query_cache w !! cacheKey with
                   | Some row =>
                       if (t_lookup env <? expires_at row)%Z then Some row else None
                   | None => None
                   end, w)) ;;
  ret (results <$> mjoin data).

(** [supabaseClient.raw(expression)]: the client made by [createClient] of
    supabase-js 2 has no member [raw], so the call is a [TypeError] and
    yields no value. *)
Definition raw (expression : jsstring) : M Empty_set := throw TypeError.

(** The object passed to [.update] is built first, and its first property
    is the call of [raw]: the exception leaves the function before
    [new Date()] is read and before any request is sent, so no row is ever
    updated. *)
Definition updateCacheHit (env : Env) (cacheKey : jsstring) : M unit :=
  hit_count <- raw (js "hit_count + 1") ;;
  match hit_count with end.

Definition ttl : Z := 5 * 60 * 1000.

(** [.upsert({cache_key, query_text, results, expires_at})] names no
    [onConflict], so the insert resolves conflicts on the primary key [id]
    only, and [id] is not among the columns sent: it gets a fresh default.
    [cache_key] is [UNIQUE], so when the key already has a row, expired or
    not, the insert is refused (the reply carries the error, which
    [cacheResult] does not read) and the table stays as it is; otherwise the
    row is inserted with the defaults of the other columns. *)
Definition upsert (env : Env) (cacheKey query : jsstring) (r : QueryResult)
    (expiresAt : Z) (c : gmap (list N) CacheRow) : gmap (list N) CacheRow :=
  match c !! cacheKey with
  | Some _ => c
  | None =>
      <[cacheKey := {| query_text := query; results := r; expires_at := expiresAt;
                       hit_count := 0; last_accessed := t_store env |}]> c
  end.

Definition cacheResult (env : Env) (cacheKey query : jsstring) (r : QueryResult) : M unit :=
  let expiresAt := (t_store env + ttl)%Z in
  call env OpCacheResult
    (λ w, (tt, set_query_cache (upsert env cacheKey query r expiresAt (query_cache w)) w)) ;;;
  ret tt.

(** The object [storeQueryHistory] inserts. *)
Definition historyRecord (userId query : jsstring) (r : QueryResult)
    (key : jsstring) : HistoryRow :=
  {| user_id := userId;
     h_query_text := query;
     query_type := queryType r;
     generated_sql := generatedSQL r;
     results_sql := sqlResults r;
     results_documents := documentResults r;
     performance_metrics := performanceMetrics r;
     h_cache_key := key |}.

Definition storeQueryHistory (env : Env) (userId query : jsstring) (r : QueryResult) : M unit :=
  key <- lift (generateCacheKey query (Some []) userId) ;;
  call env OpStoreQueryHistory
    (λ w, (tt, set_query_history
                 (query_history w ++ [historyRecord userId query r key]) w)) ;;;
  ret tt.

(** ** The relational executor (simulated in the source) *)

Definition mockEmployee (n : Z) (name position : string) (salary : Z) (dept : string) : Row :=
  [(js "emp_id", JNum n); (js "full_name", JStr (js name));
   (js "position", JStr (js position)); (js "annual_salary", JNum salary);
   (js "dept_name", JStr (js dept))].

(** On the statements [generateSQL] produces. *)
Definition executeSQL (sql : jsstring) (schema : Schema) : list Row :=
  if bool_decide (sql = sql_count) then [[(js "employee_count", JNum 150)]]
  else if bool_decide (sql = sql_avg) then [[(js "average_salary", JNum 87500)]]
  else [mockEmployee 1 "John Smith" "Software Engineer" 95000 "Engineering";
        mockEmployee 2 "Sarah Johnson" "Data Scientist" 110000 "Data Science";
        mockEmployee 3 "Mike Chen" "Product Manager" 105000 "Product";
        mockEmployee 4 "Emily Davis" "UX Designer" 85000 "Design";
        mockEmployee 5 "David Wilson" "DevOps Engineer" 98000 "Engineering"].

Definition generateEmbedding (env : Env) (text : jsstring) : vector :=
  random_embedding env.

(** [.single()]: the row when exactly one matches. *)
Definition single {A} (l : list A) : option A :=
  match l with
  | [a] => Some a
  | _ => None
  end.

(** [String.prototype.replace] with a string pattern: the first occurrence. *)
Fixpoint replace (s pat rep : jsstring) : jsstring :=
  if startsWith s pat then rep ++ drop (length pat) s
  else match s with
       | [] => []
       | c :: s' => c :: replace s' pat rep
       end.

(** ** The engine *)

Section Engine.

(** [String.prototype.toLowerCase], the runtime's Unicode case mapping. *)
Variable toLowerCase : jsstring → jsstring.

(** The cosine distance operator of the vector extension. *)
Variable cosine_distance : vector → vector → Q.

Definition classifyQuery (query : jsstring) : QueryType :=
  let lowerQuery := toLowerCase query in
  let hasSQLKeywords := some (λ keyword, includes lowerQuery keyword) sqlKeywords in
  let hasDocKeywords := some (λ keyword, includes lowerQuery keyword) docKeywords in
  if hasSQLKeywords && hasDocKeywords then Hybrid
  else if hasDocKeywords then Document
  else SQL.

Definition generateSQL (query : jsstring) (schema : Schema) : jsstring :=
  let lowerQuery := toLowerCase query in
  if includes lowerQuery (js "how many employees") then sql_count
  else if includes lowerQuery (js "average salary") then
    if includes lowerQuery (js "department") then sql_avg_by_dept
    else sql_avg
  else if includes lowerQuery (js "highest paid") then
    if includes lowerQuery (js "each department") then sql_top_by_dept
    else sql_top
  else if includes lowerQuery (js "hired this year") then sql_hired_this_year
  else sql_default.

(** *** [match_documents] *)

(** [FROM document_chunks dc JOIN documents d ON dc.document_id = d.id]. *)
Definition joined (w : World) : list (ChunkRow * DocumentRow) :=
  dc ← document_chunks w;
  d ← documents w;
  if bool_decide (document_id dc = d_id d) then [(dc, d)] else [].

(** [(user_id IS NULL OR d.user_id = user_id)].  The function has a
    parameter [user_id] and [documents] has a column [user_id]: read as the
    parameter, the unqualified name gives the owner test; read as the
    column, it gives [d.user_id IS NULL OR d.user_id = d.user_id], true of
    every row. *)
Definition owner_test (resolution : Resolution) (user_id : option jsstring)
    (d : DocumentRow) : bool :=
  match resolution with
  | UseColumn => true
  | _ =>
      match user_id with
      | None => true
      | Some u => bool_decide (d_user_id d = Some u)
      end
  end.

(** The [WHERE] clause; a row whose chunk has no embedding, or whose
    document has no owner while a user is asked for, yields NULL and is
    not selected.  The selected row is kept with its distance. *)
Definition selected (resolution : Resolution) (query_embedding : vector)
    (match_threshold : Q) (user_id : option jsstring)
    (row : ChunkRow * DocumentRow)
    : option (Q * (ChunkRow * DocumentRow)) :=
  let '(dc, d) := row in
  let owned := owner_test resolution user_id d in
  match embedding dc with
  | Some e =>
      let dist := cosine_distance e query_embedding in
      if owned && negb (Qle_bool (1 - dist) match_threshold)
      then Some (dist, row) else None
  | None => None
  end.

Definition closer (a b : Q * (ChunkRow * DocumentRow)) : Prop :=
  Qle_bool (fst a) (fst b) = true.

#[global] Instance closer_dec : RelDecision closer :=
  λ a b, decide (Qle_bool (fst a) (fst b) = true).

Definition project (r : Q * (ChunkRow * DocumentRow)) : MatchRow :=
  let '(dist, (dc, d)) := r in
  {| m_id := dc_id dc;
     m_document_id := document_id dc;
     m_chunk_text := chunk_text dc;
     m_similarity := 1 - dist;
     m_filename := filename d;
     m_metadata := dc_metadata dc |}.

(** The joined rows that pass the [WHERE] clause. *)
Definition candidates (resolution : Resolution) (w : World)
    (query_embedding : vector) (match_threshold : Q)
    (user_id : option jsstring) : list (Q * (ChunkRow * DocumentRow)) :=
  omap (selected resolution query_embedding match_threshold user_id) (joined w).

(** The rows of the [RETURN QUERY] as the statement defines them: every
    joined row that passes the [WHERE] clause is considered, which is what a
    plan without the ivfflat index does.  Through the index the rows
    returned still pass the [WHERE] clause, and some that pass it may be
    left out. *)
Definition matching_rows (resolution : Resolution) (w : World)
    (query_embedding : vector) (match_threshold : Q) (match_count : nat)
    (user_id : option jsstring) : list MatchRow :=
  project <$>
    take match_count
      (merge_sort closer
         (candidates resolution w query_embedding match_threshold user_id)).

(** The function as the database runs it: [None] when the query raises. *)
Definition match_documents (resolution : Resolution) (w : World)
    (query_embedding : vector) (match_threshold : Q) (match_count : nat)
    (user_id : option jsstring) : option (list MatchRow) :=
  match resolution with
  | ConflictError => None
  | _ => Some (matching_rows resolution w query_embedding match_threshold
                 match_count user_id)
  end.

(** *** The three query paths *)

Definition processSQLQuery (env : Env) (query : jsstring)
    (databaseId : option jsstring) (userId : jsstring) : M QueryResult :=
  dbData <- call env OpSelectSchema
              (λ w, (single (filter (λ row, Some (db_id row) = databaseId ∧
                                            db_user_id row = userId)
                                    (discovered_databases w)), w)) ;;
  match mjoin dbData with
  | None => throw DatabaseNotFound
  | Some row =>
      let generatedSQL := generateSQL query (schema_data row) in
      let sqlResults := executeSQL generatedSQL (schema_data row) in
      ret {| queryType := SQL;
             sqlResults := Some sqlResults;
             documentResults := None;
             generatedSQL := Some generatedSQL;
             performanceMetrics :=
               {| responseTime := 0; cacheHit := false;
                  resultsCount := length sqlResults |};
             sources := [js "database"] |}
  end.

Definition toDocumentResult (chunk : MatchRow) : DocumentResult :=
  {| dr_id := m_id chunk;
     dr_text := m_chunk_text chunk;
     similarity := m_similarity chunk;
     document := m_filename chunk;
     metadata := m_metadata chunk |}.

Definition processDocumentQuery (env : Env) (query userId : jsstring) : M QueryResult :=
  let queryEmbedding := generateEmbedding env query in
  chunks <- call env OpMatchDocuments
              (λ w, (match_documents (variable_conflict env) w queryEmbedding
                       (7 # 10) 10 (Some userId), w)) ;;
  let documentResults :=
    match mjoin chunks with
    | Some chunks => toDocumentResult <$> chunks
    | None => []
    end in
  ret {| queryType := Document;
         sqlResults := None;
         documentResults := Some documentResults;
         generatedSQL := None;
         performanceMetrics :=
           {| responseTime := 0; cacheHit := false;
              resultsCount := length documentResults |};
         sources := document <$> documentResults |}.

Definition count {A} (l : option (list A)) : nat :=
  match l with
  | Some l => length l
  | None => 0
  end.

Definition processHybridQuery (env : Env) (query : jsstring)
    (databaseId : option jsstring) (userId : jsstring) : M QueryResult :=
  sqlResult <- processSQLQuery env query databaseId userId ;;
  docResult <- processDocumentQuery env query userId ;;
  ret {| queryType := Hybrid;
         sqlResults := sqlResults sqlResult;
         documentResults := documentResults docResult;
         generatedSQL := generatedSQL sqlResult;
         performanceMetrics :=
           {| responseTime := 0; cacheHit := false;
              resultsCount := count (sqlResults sqlResult) +
                              count (documentResults docResult) |};
         sources := sources sqlResult ++ sources docResult |}.

(** *** The request handler *)

Definition set_performanceMetrics (p : PerformanceMetrics) (r : QueryResult) : QueryResult :=
  {| queryType := queryType r;
     sqlResults := sqlResults r;
     documentResults := documentResults r;
     generatedSQL := generatedSQL r;
     performanceMetrics := p;
     sources := sources r |}.

(** The [switch] on the query type. *)
Definition dispatch (env : Env) (queryType : QueryType) (query : jsstring)
    (databaseId : option jsstring) (userId : jsstring) : M QueryResult :=
  match queryType with
  | SQL => processSQLQuery env query databaseId userId
  | Document => processDocumentQuery env query userId
  | Hybrid => processHybridQuery env query databaseId userId
  end.

(** The body of the [try] block, after the user is known. *)
Definition answer (env : Env) (query : jsstring) (databaseId : option jsstring)
    (userId : jsstring) : M Response :=
  let startTime := t_start env in
  cacheKey <- lift (generateCacheKey query databaseId userId) ;;
  cachedResult <- checkCache env cacheKey ;;
  match cachedResult with
  | Some cachedResult =>
      updateCacheHit env cacheKey ;;;
      ret (RespOk (set_performanceMetrics
                     {| responseTime := t_respond env - startTime;
                        cacheHit := true;
                        resultsCount := resultsCount (performanceMetrics cachedResult) |}
                     cachedResult))
  | None =>
      let queryType := classifyQuery query in
      result <- dispatch env queryType query databaseId userId ;;
      let result :=
        set_performanceMetrics
          {| responseTime := t_respond env - startTime;
             cacheHit := cacheHit (performanceMetrics result);
             resultsCount := resultsCount (performanceMetrics result) |}
          result in
      cacheResult env cacheKey query result ;;;
      storeQueryHistory env userId query result ;;;
      ret (RespOk result)
  end.

Definition attempt (env : Env) (req : Request) : M Response :=
  authHeader <- match authorization req with
                | Some h => ret h
                | None => throw TypeError
                end ;;
  let token := replace authHeader (js "Bearer ") [] in
  user <- call env OpGetUser (λ w, (getUser env token, w)) ;;
  match mjoin user with
  | None => ret RespUnauthorized
  | Some userId => answer env (req_query req) (req_databaseId req) userId
  end.

(** The handler passed to [Deno.serve]: the [catch] turns an exception
    into the 500 response; what was written before it stays written. *)
Definition serve (env : Env) (req : Request) (w : World) : Response * World :=
  if is_options req then (RespPreflight, w)
  else catch (attempt env req) w.

End Engine.

(** ** Predicates of the specification *)

Definition statements : list jsstring :=
  [sql_count; sql_avg_by_dept; sql_avg; sql_top_by_dept; sql_top;
   sql_hired_this_year; sql_default].

(** The request carries a token the auth service resolves to [userId]. *)
Definition authenticated (env : Env) (req : Request) (userId : jsstring) : Prop :=
  is_options req = false ∧
  ∃ h, authorization req = Some h ∧
       reply env OpGetUser = Succeeds ∧
       getUser env (replace h (js "Bearer ") []) = Some userId.

(** The result as the handler finishes it: [responseTime] filled in. *)
Definition stamped (env : Env) (r : QueryResult) : QueryResult :=
  set_performanceMetrics
    {| responseTime := t_respond env - t_start env;
       cacheHit := cacheHit (performanceMetrics r);
       resultsCount := resultsCount (performanceMetrics r) |} r.

(** The chunk [dc] of document [d] is stored, belongs to [user] through
    its document, has embedding [e], and is more similar to the query
    embedding than the threshold. *)
Definition clears (cosine_distance : vector → vector → Q) (w : World)
    (query_embedding : vector) (match_threshold : Q) (user : jsstring)
    (dc : ChunkRow) (d : DocumentRow) (e : vector) : Prop :=
  dc ∈ document_chunks w ∧ d ∈ documents w ∧
  document_id dc = d_id d ∧ d_user_id d = Some user ∧
  embedding dc = Some e ∧
  (match_threshold < 1 - cosine_distance e query_embedding)%Q.

Definition more_similar (a b : MatchRow) : Prop :=
  (m_similarity b <= m_similarity a)%Q.

Definition shape_ok (r : QueryResult) : Prop :=
  match queryType r with
  | SQL => documentResults r = None
  | Document => sqlResults r = None
  | Hybrid => is_Some (sqlResults r) ∧ is_Some (documentResults r)
  end.

(** Every cached result has the shape of its intent. *)
Definition cache_wf (w : World) : Prop :=
  ∀ key row, query_cache w !! key = Some row → shape_ok (results row).

(** The cache starts empty and is written only by the handler; the other
    tables change under it (schema discovery, document ingestion). *)
Inductive reachable (toLowerCase : jsstring → jsstring)
    (cosine_distance : vector → vector → Q) : World → Prop :=
| reachable_init w :
    query_cache w = ∅ → reachable toLowerCase cosine_distance w
| reachable_serve env req w :
    reachable toLowerCase cosine_distance w →
    reachable toLowerCase cosine_distance
      (serve toLowerCase cosine_distance env req w).2
| reachable_tables w w' :
    reachable toLowerCase cosine_distance w →
    query_cache w' = query_cache w →
    reachable toLowerCase cosine_distance w'.

(** ** A small deployment, for running the handler *)

Definition staff_schema : Schema :=
  {| tables :=
       [{| tableName := js "staff";
           columns := [{| col_name := js "staff_id"; col_type := js "integer";
                          nullable := false; isPrimaryKey := true;
                          isForeignKey := false; referencedTable := None;
                          referencedColumn := None |}];
           rowCount := 3;
           inferredPurpose := js "employee_data" |}] |}.

#[global] Instance Op_eq_dec : EqDecision Op.
Proof. solve_decision. Defined.

Definition succeeded {A} (r : result A) : bool :=
  match r with
  | Ok _ => true
  | Throw _ => false
  end.

Definition dot (a b : vector) : Q := foldr Qplus 0%Q (zip_with Qmult a b).

(** The cosine distance of two vectors of length one. *)
Definition unit_cosine_distance (a b : vector) : Q := (1 - dot a b)%Q.

Definition employees_schema : Schema :=
  {| tables :=
       [{| tableName := js "employees";
           columns := [{| col_name := js "emp_id"; col_type := js "integer";
                          nullable := false; isPrimaryKey := true;
                          isForeignKey := false; referencedTable := None;
                          referencedColumn := None |};
                       {| col_name := js "annual_salary"; col_type := js "decimal";
                          nullable := true; isPrimaryKey := false;
                          isForeignKey := false; referencedTable := None;
                          referencedColumn := None |}];
           rowCount := 150;
           inferredPurpose := js "employee_data" |}] |}.

Definition alice : jsstring := js "alice".

Definition example_world : World :=
  {| query_cache := ∅;
     query_history := [];
     discovered_databases :=
       [{| db_id := js "db-1"; db_user_id := alice; schema_data := employees_schema |}];
     documents :=
       [{| d_id := js "doc-1"; d_user_id := Some alice; filename := js "jane.pdf" |};
        {| d_id := js "doc-2"; d_user_id := Some (js "bob"); filename := js "bob.pdf" |}];
     document_chunks :=
       [{| dc_id := js "c1"; document_id := js "doc-1";
           chunk_text := js "Java services"; embedding := Some [4 # 5; 3 # 5]%Q;
           dc_metadata := js "{}" |};
        {| dc_id := js "c2"; document_id := js "doc-1";
           chunk_text := js "Python developer"; embedding := Some [1; 0]%Q;
           dc_metadata := js "{}" |};
        {| dc_id := js "c3"; document_id := js "doc-2";
           chunk_text := js "Python analyst"; embedding := Some [1; 0]%Q;
           dc_metadata := js "{}" |};
        {| dc_id := js "c4"; document_id := js "doc-1";
           chunk_text := js "Hobbies"; embedding := Some [0; 1]%Q;
           dc_metadata := js "{}" |}] |}.

Definition no_database_world : World :=
  {| query_cache := ∅;
     query_history := [];
     discovered_databases := [];
     documents := documents example_world;
     document_chunks := document_chunks example_world |}.

Definition example_env : Env :=
  {| reply := λ _, Succeeds;
     variable_conflict := ConflictError;
     getUser := λ token,
       if bool_decide (token = js "token-alice") then Some alice else None;
     t_start := 1000;
     t_lookup := 1001;
     t_respond := 1010;
     t_store := 1011;
     random_embedding := [1; 0]%Q |}.

(** The same environment a minute later. *)
Definition later_env : Env :=
  {| reply := reply example_env;
     variable_conflict := variable_conflict example_env;
     getUser := getUser example_env;
     t_start := 61000;
     t_lookup := 61001;
     t_respond := 61010;
     t_store := 61011;
     random_embedding := [0; 1]%Q |}.

Definition with_reply (env : Env) (op : Op) (r : Reply) : Env :=
  {| reply := λ o, if decide (o = op) then r else reply env o;
     variable_conflict := variable_conflict env;
     getUser := getUser env;
     t_start := t_start env;
     t_lookup := t_lookup env;
     t_respond := t_respond env;
     t_store := t_store env;
     random_embedding := random_embedding env |}.

Definition request (query : string) : Request :=
  {| is_options := false;
     authorization := Some (js "Bearer token-alice");
     req_query := js query;
     req_databaseId := Some (js "db-1") |}.

Definition hybrid_request : Request :=
  request "Employees with Python skills earning over 100k".

Definition count_request : Request := request "How many employees do we have?".

Definition run : Env → Request → World → Response * World :=
  serve asciiToLowerCase unit_cosine_distance.

Definition euro_request : Request :=
  {| is_options := false;
     authorization := Some (js "Bearer token-alice");
     req_query := js "average salary in " ++ [8364%N];
     req_databaseId := Some (js "db-1") |}.

Definition count_result : QueryResult :=
  {| queryType := SQL;
     sqlResults := Some [[(js "employee_count", JNum 150)]];
     documentResults := None;
     generatedSQL := Some sql_count;
     performanceMetrics :=
       {| responseTime := 10; cacheHit := false; resultsCount := 1 |};
     sources := [js "database"] |}.

(** The deployment after the count question has been answered once. *)
Definition cached_world : World := (run example_env count_request example_world).2.

(** The deployment with the vector search out of order. *)
Definition search_down_env : Env := with_reply example_env OpMatchDocuments Throws.

(** ** More predicates and examples *)

(** [resultsCount] is the number of rows and matches the result carries. *)
Definition tally_ok (r : QueryResult) : Prop :=
  resultsCount (performanceMetrics r)
  = count (sqlResults r) + count (documentResults r).

(** [sources] names the database when the result has rows, then the file
    of every match, in order. *)
Definition sources_ok (r : QueryResult) : Prop :=
  sources r
  = match sqlResults r with Some _ => [js "database"] | None => [] end ++
    (document <$> default [] (documentResults r)).

(** Every cached result is counted and sourced that way. *)
Definition counted (w : World) : Prop :=
  ∀ key row, query_cache w !! key = Some row →
             tally_ok (results row) ∧ sources_ok (results row).

Definition bob : jsstring := js "bob".

(** Another caller, asking the count question about a dataset of their own. *)
Definition bob_env : Env :=
  {| reply := reply later_env;
     variable_conflict := variable_conflict later_env;
     getUser := λ token,
       if bool_decide (token = js "token-bob") then Some bob else None;
     t_start := t_start later_env;
     t_lookup := t_lookup later_env;
     t_respond := t_respond later_env;
     t_store := t_store later_env;
     random_embedding := random_embedding later_env |}.

Definition bob_request : Request :=
  {| is_options := false;
     authorization := Some (js "Bearer token-bob");
     req_query := js "How many employees do we have?";
     req_databaseId := Some (js "db-2") |}.

(** The environment five minutes after the first answer was cached. *)
Definition expired_env : Env :=
  {| reply := reply example_env;
     variable_conflict := variable_conflict example_env;
     getUser := getUser example_env;
     t_start := 301000;
     t_lookup := 301011;
     t_respond := 301020;
     t_store := 301021;
     random_embedding := [0; 1]%Q |}.

(** A request whose token the auth service does not know. *)
Definition mallory_request : Request :=
  {| is_options := false;
     authorization := Some (js "Bearer token-mallory");
     req_query := js "How many employees do we have?";
     req_databaseId := Some (js "db-1") |}.

(** The example deployment with the database set to [use_variable]. *)
Definition tuned_env : Env :=
  {| reply := reply example_env;
     variable_conflict := UseVariable;
     getUser := getUser example_env;
     t_start := t_start example_env;
     t_lookup := t_lookup example_env;
     t_respond := t_respond example_env;
     t_store := t_store example_env;
     random_embedding := random_embedding example_env |}.

(** The example deployment where the database belongs to someone else. *)
Definition foreign_database_world : World :=
  {| query_cache := ∅;
     query_history := [];
     discovered_databases :=
       [{| db_id := js "db-1"; db_user_id := bob; schema_data := employees_schema |}];
     documents := documents example_world;
     document_chunks := document_chunks example_world |}.

(** * The document processor *)

From stdpp Require Import pretty.

Definition documentRow (id userId name : jsstring) : DocumentRow :=
  {| d_id := id; d_user_id := Some userId; filename := name |}.

Definition chunkRow (id documentId text : jsstring) (e : vector)
    (metadata : jsstring) : ChunkRow :=
  {| dc_id := id; document_id := documentId; chunk_text := text;
     embedding := Some e; dc_metadata := metadata |}.

Definition set_documents (docs : list DocumentRow) (chunks : list ChunkRow)
    (w : World) : World :=
  {| query_cache := query_cache w;
     query_history := query_history w;
     discovered_databases := discovered_databases w;
     documents := docs;
     document_chunks := chunks |}.

(** The edge function that stores uploaded files as the [documents] and
    [document_chunks] the search reads. *)
Module DocumentProcessor.

Definition LF : N := 10%N.

(** [String.prototype.split] with a separator of one code unit: the
    pieces between the separators, one piece (the empty string) for the
    empty string. *)
Fixpoint split (sep : N) (s : jsstring) : list jsstring :=
  match s with
  | [] => [[]]
  | c :: s' =>
      if (c =? sep)%N then [] :: split sep s'
      else match split sep s' with
           | piece :: pieces => (c :: piece) :: pieces
           | [] => [[c]]
           end
  end.

(** [Array.prototype.join]. *)
Fixpoint join (sep : jsstring) (l : list jsstring) : jsstring :=
  match l with
  | [] => []
  | [a] => a
  | a :: rest => a ++ sep ++ join sep rest
  end.

(** The code units of WhiteSpace and LineTerminator: what [\s] matches and
    what [trim] removes. *)
Definition isWhiteSpace (c : N) : bool :=
  ((9 <=? c) && (c <=? 13) || (c =? 32) || (c =? 160) || (c =? 5760) ||
   (8192 <=? c) && (c <=? 8202) || (c =? 8232) || (c =? 8233) ||
   (c =? 8239) || (c =? 8287) || (c =? 12288) || (c =? 65279))%N.

Fixpoint trimStart (s : jsstring) : jsstring :=
  match s with
  | [] => []
  | c :: s' => if isWhiteSpace c then trimStart s' else s
  end.

Definition trimEnd (s : jsstring) : jsstring := reverse (trimStart (reverse s)).

Definition trim (s : jsstring) : jsstring := trimEnd (trimStart s).

(** A regular expression without anchors or lookbehind, as the length of
    its match at the start of the rest of the string. *)
Definition matcher := jsstring → option nat.

(** [String.prototype.split] with such an expression (no captures, no
    limit).  [cur] is the piece since the last separator; after a match of
    [S k] units the piece is closed and the [k] remaining units of the
    separator are skipped; an empty match closes the piece only when it
    is not empty, and the scan moves on by one unit. *)
Fixpoint splitLoop (m : matcher) (skip : nat) (cur : jsstring) (s : jsstring)
    {struct s} : list jsstring :=
  match s with
  | [] => [cur]
  | c :: s' =>
      match skip with
      | S k => splitLoop m k cur s'
      | 0 =>
          match m s with
          | Some (S k) => cur :: splitLoop m k [] s'
          | Some 0 =>
              match cur with
              | [] => splitLoop m 0 [c] s'
              | _ => cur :: splitLoop m 0 [c] s'
              end
          | None => splitLoop m 0 (cur ++ [c]) s'
          end
      end
  end.

Definition splitRegExp (m : matcher) (s : jsstring) : list jsstring :=
  match s with
  | [] => match m [] with Some _ => [] | None => [[]] end
  | _ => splitLoop m 0 [] s
  end.

(** The length of the longest prefix whose units satisfy [p]. *)
Fixpoint run (p : N → bool) (s : jsstring) : nat :=
  match s with
  | c :: s' => if p c then S (run p s') else 0
  | [] => 0
  end.

(** [/\n\n+/]: two line feeds and every line feed that follows. *)
Definition blankLines : matcher := λ s,
  match s with
  | a :: b :: rest =>
      if (a =? LF)%N && (b =? LF)%N then Some (2 + run (λ c, (c =? LF)%N) rest)
      else None
  | _ => None
  end.

(** The position after the last line feed of [s], if it has one. *)
Fixpoint afterLastLF (s : jsstring) : option nat :=
  match s with
  | [] => None
  | c :: s' =>
      match afterLastLF s' with
      | Some n => Some (S n)
      | None => if (c =? LF)%N then Some 1 else None
      end
  end.

(** [/\n\s*\n/]: a line feed, then the longest run of white space that
    still leaves a line feed to end the match (the run gives back units
    until its last line feed). *)
Definition blankGap : matcher := λ s,
  match s with
  | a :: rest =>
      if (a =? LF)%N then
        match afterLastLF (take (run isWhiteSpace rest) rest) with
        | Some n => Some (1 + n)
        | None => None
        end
      else None
  | [] => None
  end.

Inductive ChunkMetadata :=
| SemanticSection
| ParagraphGroup
| DataRows (row_start row_end : nat).

Record DocumentChunk := {
  text : jsstring;
  index : nat;
  chunk_metadata : ChunkMetadata
}.

(** [filename.toLowerCase().split('.').pop() || 'unknown']. *)
Definition getFileType (toLowerCase : jsstring → jsstring) (filename : jsstring)
    : jsstring :=
  match last (split 46 (toLowerCase filename)) with
  | Some (c :: extension) => c :: extension
  | _ => js "unknown"
  end.

(** The loop of [chunkBySemanticSections] and of [chunkByParagraphs], which
    differ in the limit and in the type they write: one turn for
    [section], on the chunks pushed so far, [currentChunk] and
    [chunkIndex]. *)
Definition pushTrimmed (kind : ChunkMetadata) (currentChunk : jsstring)
    (st : list DocumentChunk * nat) : list DocumentChunk * nat :=
  match trim currentChunk with
  | [] => st
  | t => (st.1 ++ [{| text := t; index := st.2; chunk_metadata := kind |}], S st.2)
  end.

Definition turn (limit : nat) (kind : ChunkMetadata)
    (st : list DocumentChunk * nat * jsstring) (section : jsstring)
    : list DocumentChunk * nat * jsstring :=
  let '(pushed, currentChunk) := st in
  if limit <? length currentChunk + length section then
    (pushTrimmed kind currentChunk pushed, section)
  else
    (pushed,
     currentChunk ++ match currentChunk with [] => [] | _ => [LF; LF] end ++ section).

Definition groupSections (limit : nat) (kind : ChunkMetadata)
    (sections : list jsstring) : list DocumentChunk :=
  let '(pushed, currentChunk) := foldl (turn limit kind) ([], 0, []) sections in
  (pushTrimmed kind currentChunk pushed).1.

Definition chunkBySemanticSections (content : jsstring) : list DocumentChunk :=
  groupSections 800 SemanticSection (splitRegExp blankLines content).

Definition chunkByParagraphs (content : jsstring) : list DocumentChunk :=
  groupSections 600 ParagraphGroup (splitRegExp blankGap content).

(** [lines.slice(i, i + 10)]. *)
Definition slice {A} (i j : nat) (l : list A) : list A := take (j - i) (drop i l).

Definition rowChunk (lines : list jsstring) (headers : jsstring) (i : nat)
    : DocumentChunk :=
  let rowGroup := slice i (i + 10) lines in
  {| text := headers ++ [LF] ++ join [LF] rowGroup;
     index := i / 10;
     chunk_metadata := DataRows i (Nat.min (i + 9) (length lines - 1)) |}.

(** [for (let i = ...; i < lines.length; i += 10)]; no more turns than
    there are lines. *)
Fixpoint rowLoop (turns : nat) (lines : list jsstring) (headers : jsstring)
    (i : nat) : list DocumentChunk :=
  match turns with
  | 0 => []
  | S turns =>
      if i <? length lines
      then rowChunk lines headers i :: rowLoop turns lines headers (i + 10)
      else []
  end.

Definition chunkByDataRows (content : jsstring) : list DocumentChunk :=
  let lines := split LF content in
  let headers := hd [] lines in
  rowLoop (length lines) lines headers 1.

Definition intelligentChunking (content fileType : jsstring) : list DocumentChunk :=
  if bool_decide (fileType = js "pdf") || bool_decide (fileType = js "docx")
  then chunkBySemanticSections content
  else if bool_decide (fileType = js "csv") then chunkByDataRows content
  else chunkByParagraphs content.

(** *** Extraction *)

(** An uploaded file: its name, its size, and the text [file.text()]
    resolves to. *)
Record File := {
  name : jsstring;
  size : Z;
  contents : jsstring
}.

(** One record of the readable rendering: [header: value] lines for the
    columns that have both, then an empty line. *)
Definition renderRow (headers values : list jsstring) : jsstring :=
  concat ((λ hv, hv.1 ++ js ": " ++ hv.2 ++ [LF]) <$> zip headers values) ++ [LF].

Definition parseCSVContent (csvContent : jsstring) : jsstring :=
  let lines := split LF csvContent in
  let headers := split 44 (hd [] lines) in
  js "CSV Document with " ++ js (pretty (length lines - 1)) ++
  js " rows and columns: " ++ join (js ", ") headers ++ [LF; LF] ++
  concat ((λ line, renderRow headers (split 44 line)) <$> take 9 (drop 1 lines)).

(** The text [simulatePDFExtraction] returns whatever the file holds. *)
Definition simulatePDFExtraction (filename : jsstring) : jsstring :=
  js "Employee Resume - " ++ filename ++ [LF] ++
  template
    [EmptyString;
     "PROFESSIONAL SUMMARY";
     "Experienced software engineer with 5+ years in full-stack development. ";
     "Proficient in Python, JavaScript, React, and PostgreSQL. Strong background ";
     "in building scalable web applications and data processing systems.";
     EmptyString;
     "TECHNICAL SKILLS";
     "- Programming Languages: Python, JavaScript, TypeScript, SQL";
     "- Frameworks: React, Node.js, FastAPI, Django";
     "- Databases: PostgreSQL, MongoDB, Redis";
     "- Cloud: AWS, Docker, Kubernetes";
     "- Tools: Git, Jenkins, Jira";
     EmptyString;
     "WORK EXPERIENCE";
     "Senior Software Engineer | TechCorp Inc. | 2021-Present";
     "- Led development of microservices architecture serving 1M+ users";
     "- Implemented automated testing reducing bugs by 40%";
     "- Mentored junior developers and conducted code reviews";
     EmptyString;
     "Software Engineer | StartupXYZ | 2019-2021";
     "- Built full-stack web applications using React and Python";
     "- Optimized database queries improving performance by 60%";
     "- Collaborated with cross-functional teams in agile environment";
     EmptyString;
     "EDUCATION";
     "Bachelor of Science in Computer Science";
     "University of Technology | 2015-2019";
     EmptyString;
     "CERTIFICATIONS";
     "- AWS Certified Solutions Architect";
     "- Certified Kubernetes Administrator"].

Definition quote : N := 34%N.

Definition simulateDOCXExtraction (filename : jsstring) : jsstring :=
  js "Employee Contract - " ++ filename ++ [LF] ++
  template
    [EmptyString;
     "EMPLOYMENT AGREEMENT";
     EmptyString] ++
  [LF] ++ js "This Employment Agreement is entered into between TechCorp Inc. (" ++ [quote] ++ js "Company" ++ [quote] ++ js ") " ++ [LF] ++
  template
    ["and the Employee for the position of Software Engineer.";
     EmptyString;
     "POSITION AND DUTIES";
     "Employee will serve as Senior Software Engineer in the Engineering Department.";
     "Primary responsibilities include:";
     "- Software development and maintenance";
     "- Code review and mentoring";
     "- Technical documentation";
     "- Participation in agile development processes";
     EmptyString;
     "COMPENSATION";
     "Base Salary: $95,000 annually";
     "Benefits: Health insurance, dental, vision, 401k matching";
     "Vacation: 20 days annually";
     "Stock Options: As per company equity plan";
     EmptyString;
     "WORK SCHEDULE";
     "Standard work week: Monday-Friday, 9 AM - 5 PM";
     "Remote work: Hybrid schedule with 3 days in office";
     "Location: New York Office";
     EmptyString;
     "CONFIDENTIALITY";
     "Employee agrees to maintain confidentiality of proprietary information";
     "and trade secrets during and after employment.";
     EmptyString;
     "TERMINATION";
     "Either party may terminate this agreement with 30 days written notice.";
     "Severance benefits as per company policy."].

Definition extractTextContent (toLowerCase : jsstring → jsstring) (file : File)
    : jsstring :=
  let fileType := getFileType toLowerCase (name file) in
  if bool_decide (fileType = js "txt") then contents file
  else if bool_decide (fileType = js "csv") then parseCSVContent (contents file)
  else if bool_decide (fileType = js "pdf") then simulatePDFExtraction (name file)
  else if bool_decide (fileType = js "docx") then simulateDOCXExtraction (name file)
  else contents file.

(** *** The handler *)

(** The awaited calls of the handler; the calls inside the loops are told
    apart by the position of the file and of the chunk. *)
Inductive Call :=
| GetUser
| InsertDocument (file : nat)
| UpdateDocument (file : nat)
| InsertChunk (file chunk : nat).

Inductive Failure :=
| NullHeader             (* [replace] called on a missing header *)
| NoFormData             (* [req.formData()] rejected *)
| Rejected (c : Call)    (* the awaited call threw *)
| DocError (file : nat).  (* the error of the insert's reply, thrown *)

(** What a run of the handler reads from outside. *)
Record Env := {
  reply : Call → Reply;
  getUser : jsstring → option jsstring;
  document_uuid : nat → jsstring;          (* the id given to the row of a file *)
  chunk_uuid : nat → nat → jsstring;       (* the id given to the row of a chunk *)
  processed_at : nat → Z;                  (* [new Date()] in the update *)
  processing_time : nat → Z;               (* [Date.now()] in the update *)
  random_embedding : nat → nat → vector    (* the draws of [Math.random] *)
}.

Record DocumentMetadata := {
  chunks_count : nat;
  content_length : nat;
  md_processing_time : Z
}.

(** A row of [documents], with the columns the handler writes. *)
Record DocumentRecord := {
  id : jsstring;
  user_id : jsstring;
  filename : jsstring;
  file_type : jsstring;
  file_size : Z;
  status : jsstring;
  upload_progress : Z;
  content : option jsstring;
  processed : option Z;
  doc_metadata : option DocumentMetadata
}.

(** A row of [document_chunks]. *)
Record ChunkRecord := {
  chunk_id : jsstring;
  chunk_document_id : jsstring;
  chunk_text : jsstring;
  chunk_index : nat;
  chunk_embedding : vector;
  chunk_meta : ChunkMetadata
}.

Record Store := {
  documents : list DocumentRecord;
  document_chunks : list ChunkRecord
}.

Record Request := {
  is_options : bool;
  authorization : option jsstring;
  body : option (list File)    (* the [files] of the form data, if it is one *)
}.

Inductive Entry :=
| EntryCompleted (id filename : jsstring) (chunks : nat)
| EntryError (filename : jsstring) (error : Failure).

Inductive Response :=
| Preflight
| Unauthorized                      (* 401 *)
| NoFiles                           (* 400 *)
| Processed (processed : list Entry)
| Failed (details : Failure).       (* 500 *)

Definition generateEmbedding (env : Env) (file chunk : nat) (text : jsstring) : vector :=
  random_embedding env file chunk.

Section Handler.

Variable toLowerCase : jsstring → jsstring.
Variable env : Env.

Definition newDocument (userId : jsstring) (i : nat) (file : File) : DocumentRecord :=
  {| id := document_uuid env i;
     user_id := userId;
     filename := name file;
     file_type := getFileType toLowerCase (name file);
     file_size := size file;
     status := js "processing";
     upload_progress := 0;
     content := None;
     processed := None;
     doc_metadata := None |}.

(** [.update({...}).eq('id', docRecord.id)] on one row. *)
Definition completed (i : nat) (text : jsstring) (chunks : list DocumentChunk)
    (docId : jsstring) (row : DocumentRecord) : DocumentRecord :=
  if bool_decide (id row = docId) then
    {| id := id row;
       user_id := user_id row;
       filename := filename row;
       file_type := file_type row;
       file_size := file_size row;
       status := js "completed";
       upload_progress := 100;
       content := Some text;
       processed := Some (processed_at env i);
       doc_metadata :=
         Some {| chunks_count := length chunks;
                 content_length := length text;
                 md_processing_time := processing_time env i |} |}
  else row.

Definition chunkRecord (i k : nat) (docId : jsstring) (chunk : DocumentChunk)
    : ChunkRecord :=
  {| chunk_id := chunk_uuid env i k;
     chunk_document_id := docId;
     chunk_text := text chunk;
     chunk_index := index chunk;
     chunk_embedding := generateEmbedding env i k (text chunk);
     chunk_meta := chunk_metadata chunk |}.

(** [for (const chunk of chunks)], from the chunk at position [k]: an
    insert that throws ends the loop, the error of a reply is not looked
    at. *)
Fixpoint storeChunks (i : nat) (docId : jsstring) (k : nat)
    (chunks : list DocumentChunk) (store : Store) : option Failure * Store :=
  match chunks with
  | [] => (None, store)
  | chunk :: rest =>
      match reply env (InsertChunk i k) with
      | Throws => (Some (Rejected (InsertChunk i k)), store)
      | ReplyError => storeChunks i docId (S k) rest store
      | Succeeds =>
          storeChunks i docId (S k) rest
            {| documents := documents store;
               document_chunks :=
                 document_chunks store ++ [chunkRecord i k docId chunk] |}
      end
  end.

(** The body of the loop over the files, with its [try] and [catch]. *)
Definition processFile (userId : jsstring) (i : nat) (file : File) (store : Store)
    : Entry * Store :=
  match reply env (InsertDocument i) with
  | Throws => (EntryError (name file) (Rejected (InsertDocument i)), store)
  | ReplyError => (EntryError (name file) (DocError i), store)
  | Succeeds =>
      let docRecord := newDocument userId i file in
      let store := {| documents := documents store ++ [docRecord];
                      document_chunks := document_chunks store |} in
      let text := extractTextContent toLowerCase file in
      let chunks := intelligentChunking text (getFileType toLowerCase (name file)) in
      match reply env (UpdateDocument i) with
      | Throws => (EntryError (name file) (Rejected (UpdateDocument i)), store)
      | updated =>
          let store :=
            match updated with
            | Succeeds =>
                {| documents := completed i text chunks (id docRecord) <$> documents store;
                   document_chunks := document_chunks store |}
            | _ => store
            end in
          match storeChunks i (id docRecord) 0 chunks store with
          | (Some error, store) => (EntryError (name file) error, store)
          | (None, store) =>
              (EntryCompleted (id docRecord) (name file) (length chunks), store)
          end
      end
  end.

Fixpoint processFiles (userId : jsstring) (i : nat) (files : list File)
    (store : Store) : list Entry * Store :=
  match files with
  | [] => ([], store)
  | file :: rest =>
      let '(entry, store) := processFile userId i file store in
      let '(entries, store) := processFiles userId (S i) rest store in
      (entry :: entries, store)
  end.

Definition serve (req : Request) (store : Store) : Response * Store :=
  if is_options req then (Preflight, store)
  else
    match authorization req with
    | None => (Failed NullHeader, store)
    | Some authHeader =>
        let token := replace authHeader (js "Bearer ") [] in
        match reply env GetUser with
        | Throws => (Failed (Rejected GetUser), store)
        | ReplyError => (Unauthorized, store)
        | Succeeds =>
            match getUser env token with
            | None => (Unauthorized, store)
            | Some userId =>
                match body req with
                | None => (Failed NoFormData, store)
                | Some [] => (NoFiles, store)
                | Some files =>
                    let '(processed, store) := processFiles userId 0 files store in
                    (Processed processed, store)
                end
            end
        end
    end.

End Handler.

(** The request brings [files] and a token the auth service resolves to
    [userId]. *)
Definition uploads (env : Env) (req : Request) (userId : jsstring)
    (files : list File) : Prop :=
  is_options req = false ∧ body req = Some files ∧
  ∃ h, authorization req = Some h ∧
       reply env GetUser = Succeeds ∧
       getUser env (replace h (js "Bearer ") []) = Some userId.

Definition entry_filename (e : Entry) : jsstring :=
  match e with
  | EntryCompleted _ filename _ => filename
  | EntryError filename _ => filename
  end.

(** The chunks the handler cuts a file into. *)
Definition chunksOf (toLowerCase : jsstring → jsstring) (file : File)
    : list DocumentChunk :=
  intelligentChunking (extractTextContent toLowerCase file)
    (getFileType toLowerCase (name file)).

(** None of the calls made for the file at position [i] throws, and the
    reply of its document insert carries no error. *)
Definition survives (toLowerCase : jsstring → jsstring) (env : Env) (i : nat)
    (file : File) : Prop :=
  reply env (InsertDocument i) = Succeeds ∧
  reply env (UpdateDocument i) ≠ Throws ∧
  ∀ k, k < length (chunksOf toLowerCase file) → reply env (InsertChunk i k) ≠ Throws.

(** The rows the loop over the chunks appends, and the error that ended
    it. *)
Fixpoint acceptedChunks (env : Env) (i : nat) (docId : jsstring) (k : nat)
    (chunks : list DocumentChunk) : option Failure * list ChunkRecord :=
  match chunks with
  | [] => (None, [])
  | chunk :: rest =>
      match reply env (InsertChunk i k) with
      | Throws => (Some (Rejected (InsertChunk i k)), [])
      | ReplyError => acceptedChunks env i docId (S k) rest
      | Succeeds =>
          let '(error, rows) := acceptedChunks env i docId (S k) rest in
          (error, chunkRecord env i k docId chunk :: rows)
      end
  end.

Definition empty_store : Store := {| documents := []; document_chunks := [] |}.

Definition add_rows (store more : Store) : Store :=
  {| documents := documents store ++ documents more;
     document_chunks := document_chunks store ++ document_chunks more |}.

(** The rows the file at position [i] leaves in an empty store. *)
Definition written (toLowerCase : jsstring → jsstring) (env : Env)
    (userId : jsstring) (i : nat) (file : File) : Store :=
  (processFile toLowerCase env userId i file empty_store).2.

(** The rows the files from position [i] on leave in an empty store. *)
Fixpoint writtenAll (toLowerCase : jsstring → jsstring) (env : Env)
    (userId : jsstring) (i : nat) (files : list File) : Store :=
  match files with
  | [] => empty_store
  | file :: rest =>
      add_rows (written toLowerCase env userId i file)
               (writtenAll toLowerCase env userId (S i) rest)
  end.

(** The ids the database gives to the rows of [n] files are new and
    distinct (the primary key of [documents]). *)
Definition fresh (env : Env) (store : Store) (n : nat) : Prop :=
  (∀ i, i < n → document_uuid env i ∉ id <$> documents store) ∧
  (∀ i j, i < n → j < n → document_uuid env i = document_uuid env j → i = j).

(** The chunk rows of a document. *)
Definition stored_for (docId : jsstring) (store : Store) : list ChunkRecord :=
  filter (λ c, chunk_document_id c = docId) (document_chunks store).

(** Every chunk row belongs to a stored document (the foreign key of
    [document_chunks]). *)
Definition linked (store : Store) : Prop :=
  ∀ c, c ∈ document_chunks store → chunk_document_id c ∈ id <$> documents store.

(** The rows as the search reads them; [render] is the [jsonb] value of a
    chunk's metadata as the query function keeps it. *)
Definition asDocumentRow (row : DocumentRecord) : DocumentRow :=
  documentRow (id row) (user_id row) (filename row).

Definition asChunkRow (render : ChunkMetadata → jsstring) (row : ChunkRecord)
    : ChunkRow :=
  chunkRow (chunk_id row) (chunk_document_id row) (chunk_text row)
           (chunk_embedding row) (render (chunk_meta row)).

(** The tables of the query function, with the documents of [store]. *)
Definition searched (render : ChunkMetadata → jsstring) (store : Store)
    (w : World) : World :=
  set_documents (asDocumentRow <$> documents store)
                (asChunkRow render <$> document_chunks store) w.

(** *** An upload *)

Definition upload_files : list File :=
  [{| name := js "notes.txt"; size := 12;
      contents := js "Hello" ++ [LF; LF] ++ js "World" |};
   {| name := js "staff.CSV"; size := 20;
      contents := js "name,role" ++ [LF] ++ js "Ann,dev" ++ [LF] ++ js "Bob,ops" |};
   {| name := js "cv.pdf"; size := 1; contents := [] |}].

Definition upload_request : Request :=
  {| is_options := false;
     authorization := Some (js "Bearer token-alice");
     body := Some upload_files |}.

(** The insert of the second file's row is refused; every other call
    succeeds. *)
Definition upload_env : Env :=
  {| reply := λ c, match c with InsertDocument 1 => ReplyError | _ => Succeeds end;
     getUser := λ token,
       if bool_decide (token = js "token-alice") then Some (js "alice") else None;
     document_uuid := λ i, js "doc-" ++ js (pretty i);
     chunk_uuid := λ i k, js "chunk-" ++ js (pretty i) ++ js "-" ++ js (pretty k);
     processed_at := λ _, 2000%Z;
     processing_time := λ _, 2001%Z;
     random_embedding := λ _ _, [1; 0]%Q |}.

(** Every write after the document insert is answered with an error. *)
Definition refusing_env : Env :=
  {| reply := λ c, match c with
                   | GetUser | InsertDocument _ => Succeeds
                   | _ => ReplyError
                   end;
     getUser := getUser upload_env;
     document_uuid := document_uuid upload_env;
     chunk_uuid := chunk_uuid upload_env;
     processed_at := processed_at upload_env;
     processing_time := processing_time upload_env;
     random_embedding := random_embedding upload_env |}.

(** A store that holds a document of another user, with one chunk. *)
Definition bob_store : Store :=
  {| documents :=
       [{| id := js "doc-bob"; user_id := js "bob"; filename := js "plan.txt";
           file_type := js "txt"; file_size := 4; status := js "completed";
           upload_progress := 100; content := Some (js "Plan");
           processed := Some 1000%Z; doc_metadata := None |}];
     document_chunks :=
       [{| chunk_id := js "chunk-bob"; chunk_document_id := js "doc-bob";
           chunk_text := js "Plan"; chunk_index := 0;
           chunk_embedding := [1; 0]%Q; chunk_meta := ParagraphGroup |}] |}.

(** No white space at either end. *)
Definition trimmed (t : jsstring) : Prop :=
  ∀ c, head t = Some c ∨ last t = Some c → isWhiteSpace c = false.

(** The code units of a text that are not white space, in order. *)
Definition visible (s : jsstring) : jsstring :=
  filter (λ c, isWhiteSpace c = false) s.

(** What the grouping loop promises of its chunks: they are numbered from
    zero in order; each text is not empty, has no white space at its ends
    and carries the type; a text longer than the limit and a separator is
    one section on its own. *)
Definition grouped (limit : nat) (kind : ChunkMetadata)
    (sections : list jsstring) (chunks : list DocumentChunk) : Prop :=
  index <$> chunks = seq 0 (length chunks) ∧
  ∀ c, c ∈ chunks →
    text c ≠ [] ∧ trimmed (text c) ∧ chunk_metadata c = kind ∧
    (length (text c) ≤ limit + 2 ∨
     ∃ section, section ∈ sections ∧ text c = trim section).

(** A separator made of white space only. *)
Definition blank (m : matcher) : Prop :=
  ∀ s n, m s = Some n → Forall (λ c, isWhiteSpace c = true) (take n s).

(** What holds of the chunks pushed so far and of [currentChunk] after
    the sections [seen]. *)
Definition wellformed (limit : nat) (kind : ChunkMetadata) (seen : list jsstring)
    (st : list DocumentChunk * nat * jsstring) : Prop :=
  st.1.2 = length st.1.1 ∧
  grouped limit kind seen st.1.1 ∧
  (length st.2 ≤ limit + 2 ∨ st.2 ∈ seen).

(** The text that is not white space, in the chunks and [currentChunk]. *)
Definition kept (seen : list jsstring)
    (st : list DocumentChunk * nat * jsstring) : Prop :=
  visible (concat (text <$> st.1.1) ++ st.2) = visible (concat seen).

End DocumentProcessor.

(** * Schema discovery *)

Definition databaseRow (id userId : jsstring) (schema : Schema) : DatabaseRow :=
  {| db_id := id; db_user_id := userId; schema_data := schema |}.

Definition set_discovered_databases (rows : list DatabaseRow) (w : World) : World :=
  {| query_cache := query_cache w;
     query_history := query_history w;
     discovered_databases := rows;
     documents := documents w;
     document_chunks := document_chunks w |}.

(** The edge function that stores the [discovered_databases] the SQL
    path reads. *)
Module SchemaDiscovery.

Record Relationship := {
  rel_type : jsstring;
  targetTable : jsstring;
  sourceColumn : jsstring;
  targetColumn : jsstring
}.

(** The [TableInfo] interface: the fields the query function's schema
    keeps, with the relationships and the sample rows. *)
Record DiscoveredTable := {
  info : TableInfo;
  relationships : list Relationship;
  sampleData : list Row
}.

Record SchemaData := {
  discovered : list DiscoveredTable;
  totalColumns : Z;
  totalRelationships : Z
}.

Definition column (name type : string) (null primary : bool)
    (references : option (string * string)) : ColumnInfo :=
  {| col_name := js name;
     col_type := js type;
     nullable := null;
     isPrimaryKey := primary;
     isForeignKey := bool_decide (is_Some references);
     referencedTable := (λ r, js r.1) <$> references;
     referencedColumn := (λ r, js r.2) <$> references |}.

(** [mockSchemas.postgresql]. *)
Definition postgresql : SchemaData :=
  {| discovered :=
       [{| info :=
             {| tableName := js "employees";
                columns :=
                  [column "emp_id" "integer" false true None;
                   column "full_name" "varchar" false false None;
                   column "dept_id" "integer" true false (Some ("departments", "dept_id"));
                   column "position" "varchar" true false None;
                   column "annual_salary" "decimal" true false None;
                   column "join_date" "date" true false None;
                   column "office_location" "varchar" true false None];
                rowCount := 150;
                inferredPurpose := js "employee_data" |};
           relationships :=
             [{| rel_type := js "foreign_key"; targetTable := js "departments";
                 sourceColumn := js "dept_id"; targetColumn := js "dept_id" |}];
           sampleData :=
             [[(js "emp_id", JNum 1); (js "full_name", JStr (js "John Smith"));
               (js "dept_id", JNum 1); (js "position", JStr (js "Software Engineer"));
               (js "annual_salary", JNum 95000); (js "join_date", JStr (js "2023-01-15"));
               (js "office_location", JStr (js "New York"))];
              [(js "emp_id", JNum 2); (js "full_name", JStr (js "Sarah Johnson"));
               (js "dept_id", JNum 2); (js "position", JStr (js "Data Scientist"));
               (js "annual_salary", JNum 110000); (js "join_date", JStr (js "2022-08-20"));
               (js "office_location", JStr (js "San Francisco"))]] |};
        {| info :=
             {| tableName := js "departments";
                columns :=
                  [column "dept_id" "integer" false true None;
                   column "dept_name" "varchar" false false None;
                   column "manager_id" "integer" true false (Some ("employees", "emp_id"))];
                rowCount := 12;
                inferredPurpose := js "organizational_structure" |};
           relationships :=
             [{| rel_type := js "one_to_many"; targetTable := js "employees";
                 sourceColumn := js "dept_id"; targetColumn := js "dept_id" |}];
           sampleData :=
             [[(js "dept_id", JNum 1); (js "dept_name", JStr (js "Engineering"));
               (js "manager_id", JNum 5)];
              [(js "dept_id", JNum 2); (js "dept_name", JStr (js "Data Science"));
               (js "manager_id", JNum 8)]] |}];
     totalColumns := 10;
     totalRelationships := 2 |}.

(** What [mockSchemas[databaseType] || mockSchemas.postgresql] evaluates
    to: the schema, or a member the object inherits from its prototype
    when [databaseType] names one. *)
Inductive Analysis :=
| Discovered (schema : SchemaData)
| Inherited (key : jsstring).

Section Runtime.

(** The names of the members of [Object.prototype] in the runtime (all of
    them functions or objects). *)
Variable inherited : jsstring → bool.

(** The connection string is a parameter that the body never uses. *)
Definition analyzeDatabase (connectionString databaseType : option jsstring)
    : Analysis :=
  let key := interpolate databaseType in
  if bool_decide (key = js "postgresql") then Discovered postgresql
  else if inherited key then Inherited key
  else Discovered postgresql.

Inductive Call :=
| GetUser
| InsertDatabase
| InsertTable (table : nat).

Inductive Failure :=
| NullHeader              (* [replace] called on a missing header *)
| NoJSON                  (* [req.json()] rejected, or the body is no object *)
| Rejected (c : Call)     (* the awaited call threw *)
| DbError                 (* the error of the insert's reply, thrown *)
| NotIterable.            (* [schemaData.tables] is undefined *)

Record Env := {
  reply : Call → Reply;
  getUser : jsstring → option jsstring;
  database_uuid : jsstring     (* the id given to the new row *)
}.

(** The request body, as the [DatabaseConnection] interface types it; a
    missing field is [None]. *)
Record Connection := {
  connectionString : option jsstring;
  connectionName : option jsstring;
  databaseType : option jsstring
}.

Record Request := {
  is_options : bool;
  authorization : option jsstring;
  body : option Connection
}.

(** A row of [discovered_databases], with the columns the handler writes. *)
Record DatabaseRecord := {
  id : jsstring;
  user_id : jsstring;
  connection_name : option jsstring;
  database_type : option jsstring;
  connection_string : option jsstring;
  schema_data : Analysis;
  status : jsstring
}.

(** A row of [discovered_tables]. *)
Record TableRecord := {
  database_id : jsstring;
  table_name : jsstring;
  table_purpose : jsstring;
  column_info : list ColumnInfo;
  table_relationships : list Relationship;
  sample_data : list Row;
  row_count : Z
}.

Record Store := {
  discovered_databases : list DatabaseRecord;
  discovered_tables : list TableRecord
}.

Inductive Response :=
| Preflight
| Unauthorized
| Success (databaseId : jsstring) (schema : SchemaData) (message : jsstring)
| Failed (details : Failure).

Definition tableRecord (databaseId : jsstring) (table : DiscoveredTable) : TableRecord :=
  {| database_id := databaseId;
     table_name := tableName (info table);
     table_purpose := inferredPurpose (info table);
     column_info := columns (info table);
     table_relationships := relationships table;
     sample_data := sampleData table;
     row_count := rowCount (info table) |}.

(** [for (const table of schemaData.tables)], from the table at position
    [k]: an insert that throws ends the handler, the error of a reply is
    not looked at. *)
Fixpoint storeTables (env : Env) (databaseId : jsstring) (k : nat)
    (tables : list DiscoveredTable) (store : Store) : option Failure * Store :=
  match tables with
  | [] => (None, store)
  | table :: rest =>
      match reply env (InsertTable k) with
      | Throws => (Some (Rejected (InsertTable k)), store)
      | ReplyError => storeTables env databaseId (S k) rest store
      | Succeeds =>
          storeTables env databaseId (S k) rest
            {| discovered_databases := discovered_databases store;
               discovered_tables :=
                 discovered_tables store ++ [tableRecord databaseId table] |}
      end
  end.

Definition message (schemaData : SchemaData) : jsstring :=
  js "Discovered " ++ js (pretty (length (discovered schemaData))) ++
  js " tables with " ++ js (pretty (totalColumns schemaData)) ++ js " columns".

Definition serve (env : Env) (req : Request) (store : Store) : Response * Store :=
  if is_options req then (Preflight, store)
  else
    match authorization req with
    | None => (Failed NullHeader, store)
    | Some authHeader =>
        let token := replace authHeader (js "Bearer ") [] in
        match reply env GetUser with
        | Throws => (Failed (Rejected GetUser), store)
        | ReplyError => (Unauthorized, store)
        | Succeeds =>
            match getUser env token with
            | None => (Unauthorized, store)
            | Some userId =>
                match body req with
                | None => (Failed NoJSON, store)
                | Some connection =>
                    let schemaData :=
                      analyzeDatabase (connectionString connection)
                                      (databaseType connection) in
                    match reply env InsertDatabase with
                    | Throws => (Failed (Rejected InsertDatabase), store)
                    | ReplyError => (Failed DbError, store)
                    | Succeeds =>
                        let dbRecord :=
                          {| id := database_uuid env;
                             user_id := userId;
                             connection_name := connectionName connection;
                             database_type := databaseType connection;
                             connection_string := connectionString connection;
                             schema_data := schemaData;
                             status := js "active" |} in
                        let store :=
                          {| discovered_databases :=
                               discovered_databases store ++ [dbRecord];
                             discovered_tables := discovered_tables store |} in
                        match schemaData with
                        | Inherited _ => (Failed NotIterable, store)
                        | Discovered schema =>
                            match storeTables env (id dbRecord) 0
                                    (discovered schema) store with
                            | (Some error, store) => (Failed error, store)
                            | (None, store) =>
                                (Success (id dbRecord) schema (message schema), store)
                            end
                        end
                    end
                end
            end
        end
    end.

End Runtime.

(** The request brings a connection and a token the auth service
    resolves to [userId]. *)
Definition connects (env : Env) (req : Request) (userId : jsstring)
    (connection : Connection) : Prop :=
  is_options req = false ∧ body req = Some connection ∧
  ∃ h, authorization req = Some h ∧
       reply env GetUser = Succeeds ∧
       getUser env (replace h (js "Bearer ") []) = Some userId.

(** The columns of a stored database the SQL path selects on; the schema
    keeps the [TableInfo] fields the query function declares. *)
Definition asSchema (a : Analysis) : Schema :=
  match a with
  | Discovered schema => {| tables := info <$> discovered schema |}
  | Inherited _ => {| tables := [] |}
  end.

Definition asDatabaseRow (row : DatabaseRecord) : DatabaseRow :=
  databaseRow (id row) (user_id row) (asSchema (schema_data row)).

(** The tables of the query function, with the databases of [store]. *)
Definition queried (store : Store) (w : World) : World :=
  set_discovered_databases (asDatabaseRow <$> discovered_databases store) w.

(** The members of [Object.prototype] in a current runtime. *)
Definition prototype_members : list jsstring :=
  js <$> ["constructor"; "hasOwnProperty"; "isPrototypeOf"; "propertyIsEnumerable";
          "toLocaleString"; "toString"; "valueOf"; "__defineGetter__";
          "__defineSetter__"; "__lookupGetter__"; "__lookupSetter__"].

Definition is_member (key : jsstring) : bool :=
  bool_decide (key ∈ prototype_members).

Definition discovery_env : Env :=
  {| reply := λ _, Succeeds;
     getUser := λ token,
       if bool_decide (token = js "token-alice") then Some (js "alice") else None;
     database_uuid := js "db-9" |}.

Definition discovery_request : Request :=
  {| is_options := false;
     authorization := Some (js "Bearer token-alice");
     body := Some {| connectionString := Some (js "mysql://crm.example/sales");
                     connectionName := Some (js "Sales");
                     databaseType := Some (js "mysql") |} |}.

Definition no_databases : Store :=
  {| discovered_databases := []; discovered_tables := [] |}.

End SchemaDiscovery.

(** * Properties *)

(** ** Strings: [includes] decides containment *)

Lemma startsWith_spec s t : startsWith s t = true ↔ ∃ post, s = t ++ post.
Proof.
  revert s. induction t as [|c t IH]; intros s; simpl.
  - split; [intros _; by exists s | done].
  - destruct s as [|d s]; simpl.
    + split; [done | intros [post H]; discriminate].
    + rewrite andb_true_iff, N.eqb_eq, IH. split.
      * intros [-> [post ->]]. eauto.
      * intros [post H]. injection H as -> ->. eauto.
Qed.

Lemma includes_spec s t : includes s t = true ↔ contains s t.
Proof.
  unfold contains. induction s as [|d s IH]; simpl.
  - rewrite orb_false_r, startsWith_spec. split.
    + intros [post H]. exists [], post. done.
    + intros [pre [post H]]. destruct pre; simpl in H.
      * eauto.
      * discriminate.
  - rewrite orb_true_iff, startsWith_spec, IH. split.
    + intros [[post H] | [pre [post H]]].
      * exists [], post. done.
      * exists (d :: pre), post. simpl. by f_equal.
    + intros [pre [post H]]. destruct pre as [|e pre]; simpl in H.
      * left. eauto.
      * right. injection H as -> ->. eauto.
Qed.

Lemma some_includes_spec kws s :
  some (λ k, includes s k) kws = true ↔ mentions kws s.
Proof.
  unfold some, mentions. rewrite existsb_exists. split.
  - intros [k [Hin Hk]]. exists k. split.
    + by apply list_elem_of_In.
    + by apply includes_spec.
  - intros [k [Hin Hk]]. exists k. split.
    + by apply list_elem_of_In.
    + by apply includes_spec.
Qed.

Lemma some_includes_false kws s :
  some (λ k, includes s k) kws = false ↔ ¬ mentions kws s.
Proof.
  rewrite <- some_includes_spec. destruct (some _ kws); split; done.
Qed.

(** ** Classification *)

Lemma classifyQuery_cases toLowerCase query :
  let lowerQuery := toLowerCase query in
  (mentions sqlKeywords lowerQuery ∧ mentions docKeywords lowerQuery →
     classifyQuery toLowerCase query = Hybrid) ∧
  (¬ mentions sqlKeywords lowerQuery ∧ mentions docKeywords lowerQuery →
     classifyQuery toLowerCase query = Document) ∧
  (¬ mentions docKeywords lowerQuery →
     classifyQuery toLowerCase query = SQL).
Proof.
  intros lowerQuery. unfold classifyQuery. fold lowerQuery.
  repeat split.
  - intros [Hs Hd].
    apply some_includes_spec in Hs, Hd. by rewrite Hs, Hd.
  - intros [Hs Hd].
    apply some_includes_false in Hs. apply some_includes_spec in Hd.
    by rewrite Hs, Hd.
  - intros Hd. apply some_includes_false in Hd.
    rewrite Hd. by rewrite andb_false_r.
Qed.

(** C4: [classifyQuery] is a total function into the three intents, decided
    by which keyword tables the lowercased text meets: both tables give
    hybrid, the unstructured table alone gives document, and every other
    text (only structural keywords, or none) gives sql; each of the three
    intents is the classification of some text. *)
Theorem classifyQuery_by_keywords :
  (∀ (toLowerCase : jsstring → jsstring) (query : jsstring),
     (mentions sqlKeywords (toLowerCase query) ∧
      mentions docKeywords (toLowerCase query) →
        classifyQuery toLowerCase query = Hybrid) ∧
     (¬ mentions sqlKeywords (toLowerCase query) ∧
      mentions docKeywords (toLowerCase query) →
        classifyQuery toLowerCase query = Document) ∧
     (¬ mentions docKeywords (toLowerCase query) →
        classifyQuery toLowerCase query = SQL)) ∧
  (∀ intent, ∃ query, classifyQuery asciiToLowerCase query = intent).
Proof.
  split.
  - intros toLowerCase query. apply classifyQuery_cases.
  - intros [].
    + by exists (js "How many employees do we have?").
    + by exists (js "Who has Python skills?").
    + by exists (js "Employees with Python skills earning over 100k").
Qed.

Lemma classifyQuery_by_keywords_witness :
  classifyQuery asciiToLowerCase
    (js "Employees with Python skills earning over 100k") = Hybrid.
Proof.
  apply (proj1 classifyQuery_by_keywords asciiToLowerCase).
  split; apply some_includes_spec; vm_compute; reflexivity.
Defined.

(** ** Synthesis *)

Ltac decide_includes :=
  repeat match goal with
    | H : contains _ _ |- _ => apply includes_spec in H; rewrite H; clear H
    | H : ¬ contains _ _ |- _ =>
        rewrite <- includes_spec in H; apply not_true_is_false in H;
        rewrite H; clear H
    end.

(** C3, as the code has it: [generateSQL] returns one of its seven fixed
    statements for every text and schema and never reads the schema (no
    table or column is checked before emission); the first matching phrase
    decides the statement; when no phrase matches, the result is the
    default statement [SELECT * FROM employees LIMIT 10;]. *)
Theorem generateSQL_first_match :
  ∀ (toLowerCase : jsstring → jsstring) (query : jsstring) (schema : Schema),
    let has phrase := contains (toLowerCase query) (js phrase) in
    let sql := generateSQL toLowerCase query schema in
    sql ∈ statements ∧
    (∀ schema', generateSQL toLowerCase query schema' = sql) ∧
    (has "how many employees" → sql = sql_count) ∧
    (¬ has "how many employees" → has "average salary" →
       has "department" → sql = sql_avg_by_dept) ∧
    (¬ has "how many employees" → has "average salary" →
       ¬ has "department" → sql = sql_avg) ∧
    (¬ has "how many employees" → ¬ has "average salary" →
       has "highest paid" → has "each department" → sql = sql_top_by_dept) ∧
    (¬ has "how many employees" → ¬ has "average salary" →
       has "highest paid" → ¬ has "each department" → sql = sql_top) ∧
    (¬ has "how many employees" → ¬ has "average salary" →
       ¬ has "highest paid" → has "hired this year" →
       sql = sql_hired_this_year) ∧
    (¬ has "how many employees" → ¬ has "average salary" →
       ¬ has "highest paid" → ¬ has "hired this year" → sql = sql_default) ∧
    sql_default = js "SELECT * FROM employees LIMIT 10;".
Proof.
  intros toLowerCase query schema has sql. subst has sql.
  unfold generateSQL.
  split.
  { unfold statements.
    repeat (match goal with |- context [if ?b then _ else _] => destruct b end);
      set_solver. }
  repeat split; try done; intros; decide_includes; done.
Qed.

Lemma generateSQL_first_match_witness :
  generateSQL asciiToLowerCase (js "How many employees do we have?") staff_schema
  = sql_count.
Proof.
  apply (proj1 (proj2 (proj2 (generateSQL_first_match asciiToLowerCase
           (js "How many employees do we have?") staff_schema)))).
  apply includes_spec. vm_compute. reflexivity.
Defined.

(** C3 fails as stated: on a schema with no [employees] table the count
    phrase still emits the statement over [employees], not the default. *)
Lemma generateSQL_unchecked_table :
  schema_has_table staff_schema (js "employees") = false ∧
  generateSQL asciiToLowerCase (js "How many employees do we have?") staff_schema
  = js "SELECT COUNT(*) as employee_count FROM employees;" ∧
  sql_count ≠ sql_default.
Proof. by vm_compute. Qed.

(** ** Cache keys *)

Lemma latin1_spec s : latin1 s = true ↔ Forall (λ c, (c ≤ 255)%N) s.
Proof.
  unfold latin1. rewrite forallb_forall, Forall_forall.
  split; intros H c Hc.
  - apply N.leb_le, H. by apply list_elem_of_In.
  - apply N.leb_le, H. by apply list_elem_of_In.
Qed.

Lemma latin1_above s c : c ∈ s → (255 < c)%N → latin1 s = false.
Proof.
  intros Hc Hlt. apply not_true_is_false. intros H.
  apply latin1_spec in H. rewrite Forall_forall in H.
  specialize (H c Hc). lia.
Qed.

Lemma latin1_keyContent q d u :
  latin1 (keyContent q d u) = latin1 q && (latin1 (interpolate d) && latin1 u).
Proof.
  unfold keyContent, latin1.
  rewrite forallb_app. simpl. rewrite forallb_app. simpl. reflexivity.
Qed.

Lemma generateCacheKey_ok q d u :
  latin1 (keyContent q d u) = true →
  ∃ key, generateCacheKey q d u = Ok key ∧ length key ≤ 32 ∧
         Forall (λ c, alnum c = true) key.
Proof.
  intros H. unfold generateCacheKey, btoa. rewrite H.
  eexists. split; [reflexivity | split].
  - rewrite length_take. lia.
  - apply Forall_take, Forall_forall. intros c Hc.
    by apply list_elem_of_filter in Hc as [Hc _].
Qed.

Lemma generateCacheKey_throws q d u :
  latin1 (keyContent q d u) = false →
  generateCacheKey q d u = Throw InvalidCharacterError.
Proof. intros H. unfold generateCacheKey, btoa. by rewrite H. Qed.

Lemma generateCacheKey_history q d u key :
  generateCacheKey q d u = Ok key →
  ∃ key', generateCacheKey q (Some []) u = Ok key'.
Proof.
  unfold generateCacheKey, btoa. rewrite !latin1_keyContent.
  destruct (latin1 q), (latin1 u), (latin1 (interpolate d)); simpl; try done.
  all: eauto.
Qed.

(** ** Running the handler *)

Section Runs.

Variable toLowerCase : jsstring → jsstring.
Variable cosine_distance : vector → vector → Q.

Local Abbreviation serve := (serve toLowerCase cosine_distance).
Local Abbreviation answer := (answer toLowerCase cosine_distance).
Local Abbreviation dispatch := (dispatch toLowerCase cosine_distance).
Local Abbreviation processSQLQuery := (processSQLQuery toLowerCase).
Local Abbreviation processDocumentQuery := (processDocumentQuery cosine_distance).
Local Abbreviation processHybridQuery := (processHybridQuery toLowerCase cosine_distance).
Local Abbreviation classifyQuery := (classifyQuery toLowerCase).

Lemma serve_authenticated env req userId w :
  authenticated env req userId →
  serve env req w = catch (answer env (req_query req) (req_databaseId req) userId) w.
Proof.
  intros [Hopt (h & Hh & Hr & Hu)].
  unfold serve, attempt, catch, bind, call, ret.
  by rewrite Hopt, Hh, Hr, Hu.
Qed.

Lemma checkCache_world env key w : (checkCache env key w).2 = w.
Proof.
  unfold checkCache, bind, call, ret. by destruct (reply env OpCheckCache).
Qed.

Lemma processSQLQuery_world env q d u w : (processSQLQuery env q d u w).2 = w.
Proof.
  unfold processSQLQuery, bind, call, ret, throw.
  destruct (reply env OpSelectSchema); simpl; try done.
  by destruct (single _).
Qed.

Lemma processDocumentQuery_world env q u w : (processDocumentQuery env q u w).2 = w.
Proof.
  unfold processDocumentQuery, bind, call, ret.
  by destruct (reply env OpMatchDocuments).
Qed.

Lemma processHybridQuery_run env q d u w :
  processHybridQuery env q d u w =
  match processSQLQuery env q d u w with
  | (Ok s, _) =>
      match processDocumentQuery env q u w with
      | (Ok dres, _) =>
          (Ok {| queryType := Hybrid;
                 sqlResults := sqlResults s;
                 documentResults := documentResults dres;
                 generatedSQL := generatedSQL s;
                 performanceMetrics :=
                   {| responseTime := 0; cacheHit := false;
                      resultsCount := count (sqlResults s) +
                                      count (documentResults dres) |};
                 sources := sources s ++ sources dres |}, w)
      | (Throw e, _) => (Throw e, w)
      end
  | (Throw e, _) => (Throw e, w)
  end.
Proof.
  unfold processHybridQuery, bind at 1.
  pose proof (processSQLQuery_world env q d u w) as Hs.
  destruct (processSQLQuery env q d u w) as [[s|e] w1]; simpl in Hs; subst w1;
    [|done].
  unfold bind at 1.
  pose proof (processDocumentQuery_world env q u w) as Hd.
  by destruct (processDocumentQuery env q u w) as [[dres|e] w1]; simpl in Hd; subst w1.
Qed.

Lemma dispatch_world env t q d u w : (dispatch env t q d u w).2 = w.
Proof.
  destruct t; simpl.
  - apply processSQLQuery_world.
  - apply processDocumentQuery_world.
  - rewrite processHybridQuery_run.
    destruct (processSQLQuery env q d u w) as [[s|e] w1]; [|done].
    by destruct (processDocumentQuery env q u w) as [[dres|e] w2].
Qed.

Lemma cacheResult_run env key q r w :
  cacheResult env key q r w =
  match reply env OpCacheResult with
  | Succeeds =>
      (Ok tt, set_query_cache
                (upsert env key q r (t_store env + ttl) (query_cache w)) w)
  | ReplyError => (Ok tt, w)
  | Throws => (Throw (Rejected OpCacheResult), w)
  end.
Proof.
  unfold cacheResult, bind, call, ret. by destruct (reply env OpCacheResult).
Qed.

Lemma storeQueryHistory_run env u q r key' w :
  generateCacheKey q (Some []) u = Ok key' →
  storeQueryHistory env u q r w =
  match reply env OpStoreQueryHistory with
  | Succeeds =>
      (Ok tt, set_query_history
                (query_history w ++ [historyRecord u q r key']) w)
  | ReplyError => (Ok tt, w)
  | Throws => (Throw (Rejected OpStoreQueryHistory), w)
  end.
Proof.
  intros Hk. unfold storeQueryHistory, bind, call, ret, lift. rewrite Hk.
  by destruct (reply env OpStoreQueryHistory).
Qed.

Lemma updateCacheHit_run env key w :
  updateCacheHit env key w = (Throw TypeError, w).
Proof. reflexivity. Qed.

Lemma answer_key_throws env q d u w e :
  generateCacheKey q d u = Throw e → answer env q d u w = (Throw e, w).
Proof. intros Hk. unfold answer, bind, lift. by rewrite Hk. Qed.

Lemma answer_check_throws env q d u w key e :
  generateCacheKey q d u = Ok key →
  (checkCache env key w).1 = Throw e →
  answer env q d u w = (Throw e, w).
Proof.
  intros Hk Hc. unfold answer, bind at 1, lift. rewrite Hk.
  unfold bind at 1.
  pose proof (checkCache_world env key w) as Hw.
  by destruct (checkCache env key w) as [[c|e'] w1]; simplify_eq/=.
Qed.

Lemma answer_hit env q d u w key r :
  generateCacheKey q d u = Ok key →
  (checkCache env key w).1 = Ok (Some r) →
  answer env q d u w = (Throw TypeError, w).
Proof.
  intros Hk Hc. unfold answer, bind at 1, lift. rewrite Hk.
  unfold bind at 1.
  pose proof (checkCache_world env key w) as Hw.
  destruct (checkCache env key w) as [[c|e'] w1]; simplify_eq/=.
  unfold bind at 1. by rewrite updateCacheHit_run.
Qed.

Lemma answer_miss env q d u w key :
  generateCacheKey q d u = Ok key →
  (checkCache env key w).1 = Ok None →
  answer env q d u w =
  match dispatch env (classifyQuery q) q d u w with
  | (Ok r, _) =>
      match cacheResult env key q (stamped env r) w with
      | (Ok _, w1) =>
          match storeQueryHistory env u q (stamped env r) w1 with
          | (Ok _, w2) => (Ok (RespOk (stamped env r)), w2)
          | (Throw e, w2) => (Throw e, w2)
          end
      | (Throw e, w1) => (Throw e, w1)
      end
  | (Throw e, _) => (Throw e, w)
  end.
Proof.
  intros Hk Hc. unfold answer, bind at 1, lift. rewrite Hk.
  unfold bind at 1.
  pose proof (checkCache_world env key w) as Hw.
  destruct (checkCache env key w) as [[c|e'] w1]; simplify_eq/=.
  unfold bind at 1.
  pose proof (dispatch_world env (classifyQuery q) q d u w) as Hd.
  destruct (dispatch env (classifyQuery q) q d u w) as [[r|e] w1];
    simpl in Hd; subst w1; [|done].
  fold (stamped env r). unfold bind at 1.
  destruct (cacheResult env key q (stamped env r) w) as [[[]|e] w1]; [|done].
  unfold bind at 1.
  by destruct (storeQueryHistory env u q (stamped env r) w1) as [[[]|e] w2].
Qed.

End Runs.

(** C10, as the code has it: when the query text, the printed dataset id
    and the caller id all lie in the Latin-1 range, [generateCacheKey]
    returns a key of at most 32 alphanumeric characters; for every query
    text with a code unit above U+00FF [btoa] throws, and the handler
    answers an authenticated request with the 500 response, leaving every
    table as it was (nothing is classified, retrieved, cached or recorded). *)
Theorem generateCacheKey_partial :
  (∀ q d u,
     Forall (λ c, (c ≤ 255)%N) q →
     Forall (λ c, (c ≤ 255)%N) (interpolate d) →
     Forall (λ c, (c ≤ 255)%N) u →
     ∃ key, generateCacheKey q d u = Ok key ∧ length key ≤ 32 ∧
            Forall (λ c, alnum c = true) key) ∧
  (∀ q d u c, c ∈ q → (255 < c)%N →
     generateCacheKey q d u = Throw InvalidCharacterError) ∧
  (∀ toLowerCase cosine_distance env req userId w c,
     authenticated env req userId →
     c ∈ req_query req → (255 < c)%N →
     serve toLowerCase cosine_distance env req w
     = (RespError InvalidCharacterError, w)).
Proof.
  assert (Hthrow : ∀ q d u c, c ∈ q → (255 < c)%N →
            generateCacheKey q d u = Throw InvalidCharacterError).
  { intros q d u c Hc Hlt. apply generateCacheKey_throws.
    rewrite latin1_keyContent, (latin1_above q c Hc Hlt). done. }
  split; [| split; [exact Hthrow |]].
  - intros q d u Hq Hd Hu. apply generateCacheKey_ok.
    rewrite latin1_keyContent.
    apply latin1_spec in Hq, Hd, Hu. by rewrite Hq, Hd, Hu.
  - intros toLowerCase cosine_distance env req userId w c Hauth Hc Hlt.
    rewrite (serve_authenticated _ _ _ _ _ _ Hauth). unfold catch.
    by rewrite (answer_key_throws _ _ _ _ _ _ _ _
                  (Hthrow _ (req_databaseId req) userId c Hc Hlt)).
Qed.

Lemma generateCacheKey_partial_witness :
  run example_env euro_request example_world
  = (RespError InvalidCharacterError, example_world).
Proof.
  apply (proj2 (proj2 generateCacheKey_partial)
           asciiToLowerCase unit_cosine_distance example_env euro_request
           alice example_world 8364%N).
  - split; [reflexivity |].
    exists (js "Bearer token-alice"). by vm_compute.
  - vm_compute. set_solver.
  - reflexivity.
Defined.

(** C10 fails as stated: a Latin-1 query text does not make the key
    derivable when the dataset id of the request is not Latin-1. *)
Lemma generateCacheKey_latin1_query_throws :
  latin1 (js "How many employees do we have?") = true ∧
  generateCacheKey (js "How many employees do we have?") (Some [8364%N]) alice
  = Throw InvalidCharacterError.
Proof. by vm_compute. Qed.


(** ** Retrieval *)

#[global] Instance closer_total : Total closer.
Proof.
  intros a b. unfold closer. rewrite !Qle_bool_iff.
  destruct (Qlt_le_dec (fst a) (fst b)); [left | right]; [by apply Qlt_le_weak | done].
Qed.

#[global] Instance closer_trans : Transitive closer.
Proof.
  intros a b c. unfold closer. rewrite !Qle_bool_iff. apply Qle_trans.
Qed.

Lemma closer_more_similar a b : closer a b → more_similar (project a) (project b).
Proof.
  unfold closer, more_similar. rewrite Qle_bool_iff.
  destruct a as [da [dca doca]], b as [db [dcb docb]]. simpl. intros H.
  apply Qplus_le_r. by apply Qopp_le_compat.
Qed.

Section Retrieval.

Variable cosine_distance : vector → vector → Q.
Variable w : World.
Variable query_embedding : vector.
Variable match_threshold : Q.
Variable user : jsstring.

Local Abbreviation candidates :=
  (candidates cosine_distance UseVariable w query_embedding match_threshold
     (Some user)).
Local Notation "'rows_of' n" :=
  (matching_rows cosine_distance UseVariable w query_embedding
     match_threshold n (Some user)) (at level 10, n at level 9).
Local Abbreviation clears :=
  (clears cosine_distance w query_embedding match_threshold user).
Local Abbreviation hit :=
  (λ dc d e, project (cosine_distance e query_embedding, (dc, d))).

Lemma joined_spec dc d :
  (dc, d) ∈ joined w ↔
  dc ∈ document_chunks w ∧ d ∈ documents w ∧ document_id dc = d_id d.
Proof.
  unfold joined. rewrite list_elem_of_bind. split.
  - intros [dc' [Hin Hdc]]. apply list_elem_of_bind in Hin as [d' [Hin Hd]].
    case_bool_decide; [| by apply elem_of_nil in Hin].
    apply list_elem_of_singleton in Hin. by simplify_eq.
  - intros (Hdc & Hd & Heq). exists dc. split; [| done].
    apply list_elem_of_bind. exists d. split; [| done].
    rewrite bool_decide_eq_true_2 by done. by apply list_elem_of_singleton.
Qed.

Lemma candidates_spec δ dc d :
  (δ, (dc, d)) ∈ candidates ↔
  ∃ e, clears dc d e ∧ δ = cosine_distance e query_embedding.
Proof.
  unfold candidates. rewrite list_elem_of_omap. unfold clears. split.
  - intros [[dc' d'] [Hin Hsel]]. apply joined_spec in Hin as (Hdc & Hd & Heq).
    unfold selected, owner_test in Hsel.
    destruct (embedding dc') as [e|] eqn:He; [| done].
    destruct (bool_decide (d_user_id d' = Some user)) eqn:Hown; simpl in Hsel; [| done].
    destruct (Qle_bool _ _) eqn:Hle; simpl in Hsel; [done |].
    simplify_eq. exists e. repeat split; try done.
    + by apply bool_decide_eq_true in Hown.
    + apply Qnot_le_lt. intros Hq. apply Qle_bool_iff in Hq. congruence.
  - intros (e & (Hdc & Hd & Heq & Hown & He & Hlt) & ->).
    exists (dc, d). split; [by apply joined_spec |].
    unfold selected, owner_test. rewrite He.
    rewrite bool_decide_eq_true_2 by done. simpl.
    destruct (Qle_bool _ _) eqn:Hle; [| done].
    apply Qle_bool_iff in Hle. by apply Qle_not_lt in Hle.
Qed.

Lemma sorted_candidates :
  StronglySorted closer (merge_sort closer candidates).
Proof. apply StronglySorted_merge_sort; apply _. Qed.

Lemma matching_rows_sound match_count m :
  m ∈ rows_of match_count →
  ∃ dc d e, clears dc d e ∧ m = hit dc d e.
Proof.
  unfold matching_rows. intros Hm.
  apply list_elem_of_fmap in Hm as [[δ [dc d]] [-> Hin]].
  apply elem_of_take in Hin as (i & Hi & _).
  apply list_elem_of_lookup_2 in Hi.
  rewrite merge_sort_Permutation in Hi.
  apply candidates_spec in Hi as (e & Hc & ->). by exists dc, d, e.
Qed.

Lemma matching_rows_sorted match_count :
  StronglySorted more_similar (rows_of match_count).
Proof.
  unfold matching_rows.
  apply (StronglySorted_fmap _ closer); [apply closer_more_similar |].
  pose proof sorted_candidates as Hs.
  rewrite <- (take_drop match_count (merge_sort closer candidates)) in Hs.
  by apply StronglySorted_app_1_l in Hs.
Qed.

Lemma matching_rows_length match_count :
  length (rows_of match_count) = match_count `min` length candidates.
Proof.
  unfold matching_rows.
  by rewrite length_fmap, length_take, merge_sort_Permutation.
Qed.

Lemma matching_rows_complete match_count dc d e :
  clears dc d e →
  hit dc d e ∈ rows_of match_count ∨
  (length (rows_of match_count) = match_count ∧
   ∀ m, m ∈ rows_of match_count → more_similar m (hit dc d e)).
Proof.
  intros Hc.
  assert (Hin : (cosine_distance e query_embedding, (dc, d)) ∈
                merge_sort closer candidates).
  { rewrite merge_sort_Permutation. apply candidates_spec. by exists e. }
  pose proof sorted_candidates as Hs.
  rewrite <- (take_drop match_count (merge_sort closer candidates)) in Hin, Hs.
  apply elem_of_app in Hin as [Hin | Hin].
  - left. unfold matching_rows.
    by apply (list_elem_of_fmap_2 project) in Hin.
  - right. split.
    + rewrite matching_rows_length.
      rewrite <- (merge_sort_Permutation closer candidates).
      apply list_elem_of_lookup_1 in Hin as [i Hi].
      apply lookup_lt_Some in Hi. rewrite length_drop in Hi. lia.
    + intros m Hm. unfold matching_rows in Hm.
      apply list_elem_of_fmap in Hm as [x [-> Hx]].
      apply (closer_more_similar x (cosine_distance e query_embedding, (dc, d))).
      by apply (StronglySorted_app_1_elem_of _ _ _ _ _ Hs).
Qed.

Lemma matching_rows_none match_count :
  (∀ dc d e, ¬ clears dc d e) → rows_of match_count = [].
Proof.
  intros Hnone.
  destruct (rows_of match_count) as [|m rows] eqn:Hrows; [done |].
  assert (Hm : m ∈ rows_of match_count) by (rewrite Hrows; by left).
  apply matching_rows_sound in Hm as (dc & d & e & Hc & _).
  by destruct (Hnone dc d e).
Qed.

End Retrieval.

(** What the query of [match_documents] selects once [user_id] is read as
    the function's parameter: rows of stored chunks the caller owns whose
    similarity is strictly above the threshold, in descending similarity,
    as many as the limit allows, the most similar first; none when no
    chunk qualifies. *)
Lemma matching_rows_top_matches :
  ∀ (cosine_distance : vector → vector → Q) (w : World)
    (query_embedding : vector) (match_threshold : Q) (match_count : nat)
    (user : jsstring),
    let rows := matching_rows cosine_distance UseVariable w query_embedding
                  match_threshold match_count (Some user) in
    let clears := clears cosine_distance w query_embedding match_threshold user in
    let hit dc d e := project (cosine_distance e query_embedding, (dc, d)) in
    (∀ m, m ∈ rows → ∃ dc d e, clears dc d e ∧ m = hit dc d e) ∧
    StronglySorted more_similar rows ∧
    length rows = match_count `min`
                  length (candidates cosine_distance UseVariable w
                            query_embedding match_threshold (Some user)) ∧
    (∀ dc d e, clears dc d e →
       hit dc d e ∈ rows ∨
       (length rows = match_count ∧ ∀ m, m ∈ rows → more_similar m (hit dc d e))) ∧
    ((∀ dc d e, ¬ clears dc d e) → rows = []).
Proof.
  intros cosine_distance w query_embedding match_threshold match_count user
    rows clears hit.
  split; [| split; [| split; [| split]]].
  - intros m. apply matching_rows_sound.
  - apply matching_rows_sorted.
  - apply matching_rows_length.
  - intros dc d e. apply matching_rows_complete.
  - apply matching_rows_none.
Qed.

(** C7 on the code: the query of [match_documents] names [user_id]
    unqualified, which is both the function's parameter and a column of
    [documents]; under the default [variable_conflict] the call raises for
    every input, the reply carries no rows, and [processDocumentQuery]
    returns an empty result whatever chunks qualify.  Only under
    [use_variable] does the search return the rows the claim describes. *)
Theorem match_documents_ambiguous_user_id :
  ∀ (cosine_distance : vector → vector → Q) (env : Env) (w : World)
    (query userId : jsstring),
    (variable_conflict env = ConflictError →
       match_documents cosine_distance ConflictError w (random_embedding env)
         (7 # 10) 10 (Some userId) = None ∧
       ∀ r w', processDocumentQuery cosine_distance env query userId w = (Ok r, w') →
               documentResults r = Some []) ∧
    (variable_conflict env = UseVariable →
     reply env OpMatchDocuments = Succeeds →
       ∃ r, processDocumentQuery cosine_distance env query userId w = (Ok r, w) ∧
            documentResults r =
              Some (toDocumentResult <$>
                      matching_rows cosine_distance UseVariable w
                        (random_embedding env) (7 # 10) 10 (Some userId))).
Proof.
  intros cosine_distance env w query userId. split.
  - intros Hconf. split; [done |].
    intros r w'. unfold processDocumentQuery, bind, call, ret. rewrite Hconf.
    destruct (reply env OpMatchDocuments); simpl; try done.
    + by intros [= <- <-].
    + by intros [= <- <-].
  - intros Hconf Hrep.
    unfold processDocumentQuery, bind, call, ret. rewrite Hconf, Hrep. simpl.
    by eexists.
Qed.

(** In the example deployment two of the caller's chunks are similar
    enough to the query embedding; the search as deployed returns neither. *)
Example match_documents_example :
  m_id <$> matching_rows unit_cosine_distance UseVariable example_world
             [1; 0]%Q (7 # 10) 10 (Some alice)
  = [js "c2"; js "c1"] ∧
  match_documents unit_cosine_distance (variable_conflict example_env)
    example_world [1; 0]%Q (7 # 10) 10 (Some alice) = None ∧
  (processDocumentQuery unit_cosine_distance example_env
     (js "Who has Python skills?") alice example_world).1
  = Ok {| queryType := Document;
          sqlResults := None;
          documentResults := Some [];
          generatedSQL := None;
          performanceMetrics :=
            {| responseTime := 0; cacheHit := false; resultsCount := 0 |};
          sources := [] |}.
Proof. by vm_compute. Qed.

(** ** The shape of results, and the cache *)

Lemma shape_ok_set_performanceMetrics p r :
  shape_ok (set_performanceMetrics p r) ↔ shape_ok r.
Proof. done. Qed.

Lemma cache_wf_empty w : query_cache w = ∅ → cache_wf w.
Proof. intros H key row. by rewrite H, lookup_empty. Qed.

Lemma cache_wf_upsert env key q r t w :
  cache_wf w → shape_ok r →
  cache_wf (set_query_cache (upsert env key q r t (query_cache w)) w).
Proof.
  intros Hwf Hr k row. simpl. unfold upsert.
  destruct (query_cache w !! key) as [old|] eqn:Hold; [apply Hwf |].
  destruct (decide (key = k)) as [-> | Hne].
  - rewrite lookup_insert_eq. by intros [= <-].
  - rewrite lookup_insert_ne by done. apply Hwf.
Qed.

Lemma cache_wf_history h w : cache_wf w → cache_wf (set_query_history h w).
Proof. done. Qed.

Lemma checkCache_Some env key w r :
  (checkCache env key w).1 = Ok (Some r) ↔
  reply env OpCheckCache = Succeeds ∧
  ∃ row, query_cache w !! key = Some row ∧
         (t_lookup env < expires_at row)%Z ∧ results row = r.
Proof.
  unfold checkCache, bind, call, ret.
  destruct (reply env OpCheckCache); simpl.
  - destruct (query_cache w !! key) as [row|]; simpl.
    + destruct (Z.ltb_spec (t_lookup env) (expires_at row)); simpl.
      * split; [intros [= <-]; eauto | intros [_ (row' & [= <-] & _ & ->)]; done].
      * split; [done | intros [_ (row' & [= <-] & Hlt & _)]; lia].
    + split; [done | by intros [_ (row' & ? & _)]].
  - split; [done | by intros [? _]].
  - split; [done | by intros [? _]].
Qed.

Section Outcomes.

Variable toLowerCase : jsstring → jsstring.
Variable cosine_distance : vector → vector → Q.

Local Abbreviation serve := (serve toLowerCase cosine_distance).
Local Abbreviation answer := (answer toLowerCase cosine_distance).
Local Abbreviation dispatch := (dispatch toLowerCase cosine_distance).
Local Abbreviation processSQLQuery := (processSQLQuery toLowerCase).
Local Abbreviation processDocumentQuery := (processDocumentQuery cosine_distance).
Local Abbreviation processHybridQuery := (processHybridQuery toLowerCase cosine_distance).
Local Abbreviation classifyQuery := (classifyQuery toLowerCase).

Lemma processSQLQuery_Ok env q d u w r w' :
  processSQLQuery env q d u w = (Ok r, w') →
  queryType r = SQL ∧ is_Some (sqlResults r) ∧ documentResults r = None ∧
  cacheHit (performanceMetrics r) = false.
Proof.
  unfold processSQLQuery, bind, call, ret, throw.
  destruct (reply env OpSelectSchema); simpl; try done.
  destruct (single _); simpl; [| done].
  intros [= <- <-]. simpl. eauto.
Qed.

Lemma processDocumentQuery_Ok env q u w r w' :
  processDocumentQuery env q u w = (Ok r, w') →
  queryType r = Document ∧ sqlResults r = None ∧ is_Some (documentResults r) ∧
  cacheHit (performanceMetrics r) = false.
Proof.
  unfold processDocumentQuery, bind, call, ret.
  destruct (reply env OpMatchDocuments); simpl; try done.
  - intros [= <- <-]. simpl. eauto.
  - intros [= <- <-]. simpl. eauto.
Qed.

Lemma dispatch_Ok env t q d u w r w' :
  dispatch env t q d u w = (Ok r, w') →
  queryType r = t ∧ shape_ok r ∧ cacheHit (performanceMetrics r) = false.
Proof.
  destruct t; simpl.
  - intros H. apply processSQLQuery_Ok in H as (Ht & _ & Hd & Hc).
    unfold shape_ok. by rewrite Ht.
  - intros H. apply processDocumentQuery_Ok in H as (Ht & Hs & _ & Hc).
    unfold shape_ok. by rewrite Ht.
  - rewrite processHybridQuery_run.
    destruct (processSQLQuery env q d u w) as [[s|e] w1] eqn:Hs; [| done].
    destruct (processDocumentQuery env q u w) as [[dres|e] w2] eqn:Hd; [| done].
    apply processSQLQuery_Ok in Hs as (_ & Hs & _).
    apply processDocumentQuery_Ok in Hd as (_ & _ & Hd & _).
    intros [= <- <-]. unfold shape_ok. simpl. eauto.
Qed.

(** What a run of [answer] that ends in a response has done: it found
    nothing in the cache and computed the answer. *)
Lemma answer_Ok env q d u w resp w1 :
  answer env q d u w = (Ok resp, w1) →
  ∃ key, generateCacheKey q d u = Ok key ∧
    (checkCache env key w).1 = Ok None ∧
    ∃ r key',
      dispatch env (classifyQuery q) q d u w = (Ok r, w) ∧
      generateCacheKey q (Some []) u = Ok key' ∧
      resp = RespOk (stamped env r) ∧
      reply env OpCacheResult ≠ Throws ∧
      reply env OpStoreQueryHistory ≠ Throws ∧
      query_cache w1 =
        match reply env OpCacheResult with
        | Succeeds => upsert env key q (stamped env r) (t_store env + ttl)
                        (query_cache w)
        | _ => query_cache w
        end ∧
      query_history w1 =
        match reply env OpStoreQueryHistory with
        | Succeeds => query_history w ++ [historyRecord u q (stamped env r) key']
        | _ => query_history w
        end.
Proof.
  destruct (generateCacheKey q d u) as [key|e] eqn:Hk;
    [| by rewrite (answer_key_throws _ _ _ _ _ _ _ _ Hk)].
  destruct (generateCacheKey_history _ _ _ _ Hk) as [key' Hk'].
  intros Hrun. exists key. split; [done |].
  destruct ((checkCache env key w).1) as [[r|]|e] eqn:Hc.
  - by rewrite (answer_hit _ _ _ _ _ _ _ _ _ Hk Hc) in Hrun.
  - split; [done |].
    rewrite (answer_miss _ _ _ _ _ _ _ _ Hk Hc) in Hrun.
    pose proof (dispatch_world toLowerCase cosine_distance env
                  (classifyQuery q) q d u w) as Hw.
    destruct (dispatch env (classifyQuery q) q d u w) as [[r|e] w0];
      simpl in Hw; subst w0; [| done].
    exists r, key'. split; [done |]. split; [done |].
    rewrite cacheResult_run in Hrun.
    destruct (reply env OpCacheResult);
      rewrite ?(storeQueryHistory_run _ _ _ _ _ _ Hk') in Hrun;
      by destruct (reply env OpStoreQueryHistory); simplify_eq/=.
  - by rewrite (answer_check_throws _ _ _ _ _ _ _ _ _ Hk Hc) in Hrun.
Qed.

(** The cache stays well formed whatever way a run ends. *)
Lemma answer_cache_wf env q d u w :
  cache_wf w → cache_wf (answer env q d u w).2.
Proof.
  intros Hwf.
  destruct (generateCacheKey q d u) as [key|e] eqn:Hk;
    [| by rewrite (answer_key_throws _ _ _ _ _ _ _ _ Hk)].
  destruct (generateCacheKey_history _ _ _ _ Hk) as [key' Hk'].
  destruct ((checkCache env key w).1) as [[r|]|e] eqn:Hc.
  - by rewrite (answer_hit _ _ _ _ _ _ _ _ _ Hk Hc).
  - rewrite (answer_miss _ _ _ _ _ _ _ _ Hk Hc).
    destruct (dispatch env (classifyQuery q) q d u w) as [[r|e] w0] eqn:Hd;
      [| done].
    apply dispatch_Ok in Hd as (_ & Hshape & _).
    rewrite cacheResult_run.
    destruct (reply env OpCacheResult);
      rewrite ?(storeQueryHistory_run _ _ _ _ _ _ Hk');
      destruct (reply env OpStoreQueryHistory); simpl; try done;
      try apply cache_wf_history; by apply cache_wf_upsert.
  - by rewrite (answer_check_throws _ _ _ _ _ _ _ _ _ Hk Hc).
Qed.

(** A request is either answered for its user, or turned away with the
    tables untouched. *)
Lemma serve_cases env req w :
  (∃ userId, authenticated env req userId) ∨
  ((serve env req w).2 = w ∧ ∀ r, (serve env req w).1 ≠ RespOk r).
Proof.
  unfold authenticated, serve.
  destruct (is_options req); [by right |].
  unfold attempt, catch, bind, call, ret, throw.
  destruct (authorization req) as [h|]; [| by right].
  destruct (reply env OpGetUser); [| by right | by right].
  destruct (getUser env _) as [userId|] eqn:Hu; [| by right].
  left. exists userId. split; [done |]. by exists h.
Qed.

End Outcomes.

Lemma serve_shape toLowerCase cosine_distance env req w :
  cache_wf w →
  (∀ r, (serve toLowerCase cosine_distance env req w).1 = RespOk r → shape_ok r) ∧
  cache_wf (serve toLowerCase cosine_distance env req w).2.
Proof.
  intros Hwf.
  destruct (serve_cases toLowerCase cosine_distance env req w)
    as [[userId Hauth] | [Hw Hno]].
  - rewrite (serve_authenticated _ _ _ _ _ _ Hauth). unfold catch.
    pose proof (answer_cache_wf toLowerCase cosine_distance env
                  (req_query req) (req_databaseId req) userId w Hwf) as Hwf'.
    destruct (answer _ _ env _ _ userId w) as [[resp|e] w1] eqn:Hrun;
      simpl in *; [| done].
    split; [| done]. intros r ->.
    apply answer_Ok in Hrun as (key & _ & _ & r0 & key' & Hd & _ & [= ->] & _).
    apply dispatch_Ok in Hd as (_ & Hshape & _).
    by apply shape_ok_set_performanceMetrics.
  - rewrite Hw. split; [| done]. intros r Hr. by destruct (Hno r).
Qed.

Lemma reachable_cache_wf toLowerCase cosine_distance w :
  reachable toLowerCase cosine_distance w → cache_wf w.
Proof.
  induction 1 as [w H | env req w _ IH | w w' _ IH Heq].
  - by apply cache_wf_empty.
  - by apply serve_shape.
  - intros key row. rewrite Heq. apply IH.
Qed.

(** C8: every result [serve] sends, computed or taken from the cache, has
    the shape of its intent: no document results for sql, no sql results
    for document, both present (possibly empty) for hybrid. *)
Theorem intent_shape_invariant :
  ∀ (toLowerCase : jsstring → jsstring) (cosine_distance : vector → vector → Q)
    (env : Env) (req : Request) (w : World) (r : QueryResult),
    reachable toLowerCase cosine_distance w →
    (serve toLowerCase cosine_distance env req w).1 = RespOk r →
    match queryType r with
    | SQL => documentResults r = None
    | Document => sqlResults r = None
    | Hybrid => is_Some (sqlResults r) ∧ is_Some (documentResults r)
    end.
Proof.
  intros toLowerCase cosine_distance env req w r Hreach Hr.
  apply reachable_cache_wf in Hreach.
  by apply (serve_shape toLowerCase cosine_distance env req w Hreach).
Qed.

Lemma intent_shape_invariant_witness :
  ∃ r, (run example_env hybrid_request example_world).1 = RespOk r ∧
       queryType r = Hybrid ∧
       is_Some (sqlResults r) ∧ is_Some (documentResults r).
Proof.
  eexists. split; [by vm_compute |]. split; [reflexivity |].
  exact (intent_shape_invariant asciiToLowerCase unit_cosine_distance
           example_env hybrid_request example_world _
           (reachable_init _ _ example_world eq_refl) eq_refl).
Defined.

(** ** Keys in use *)

Lemma base64_app (a b : list N) (n : nat) :
  length a = 3 * n → base64 (a ++ b) = base64 a ++ base64 b.
Proof.
  revert a. induction n as [|n IH]; intros a Ha.
  - by destruct a.
  - destruct a as [|x [|y [|z a]]]; simpl in Ha; try lia.
    cbn [app base64]. rewrite (IH a) by lia. done.
Qed.

Lemma filter_keeps_all {A} (P : A → Prop) `{∀ x, Decision (P x)} (l : list A) :
  length l ≤ length (filter P l) → filter P l = l.
Proof.
  induction l as [|x l IH]; [done |].
  rewrite filter_cons. case_decide; simpl; intros Hlen.
  - f_equal. apply IH. lia.
  - pose proof (length_filter P l). lia.
Qed.

(** C6 fails in the code.  [generateCacheKey] puts the dataset and the
    caller into the string it encodes, after the question, and then keeps
    only the first 32 letters and digits of the encoding: when the first 24
    code units of the question encode to 32 letters and digits (letters and
    spaces always do), the key is that encoding, and the dataset and the
    caller have no part in it.  Two inputs with the same question that
    differ in the dataset, in the caller, or in both, get the same key. *)
Theorem generateCacheKey_drops_dataset_and_caller :
  ∀ (query : jsstring) (databaseId databaseId' : option jsstring)
    (userId userId' : jsstring),
    24 ≤ length query →
    32 ≤ length (filter (λ c, alnum c = true) (base64 (take 24 query))) →
    latin1 (keyContent query databaseId userId) = true →
    latin1 (keyContent query databaseId' userId') = true →
    generateCacheKey query databaseId userId = Ok (base64 (take 24 query)) ∧
    generateCacheKey query databaseId' userId' = Ok (base64 (take 24 query)).
Proof.
  intros query databaseId databaseId' userId userId' Hlen Hlong Hl Hl'.
  assert (Hcut : ∀ d u, latin1 (keyContent query d u) = true →
            generateCacheKey query d u = Ok (base64 (take 24 query))).
  { intros d u Hlatin. unfold generateCacheKey, btoa. rewrite Hlatin.
    unfold keyContent. rewrite <- (take_drop 24 query) at 1.
    rewrite <- (assoc_L (++)).
    assert (H24 : length (take 24 query) = 3 * 8) by (rewrite length_take; lia).
    rewrite (base64_app _ _ 8 H24), filter_app.
    rewrite take_app_le by done.
    assert (H32 : length (base64 (take 24 query)) = 32).
    { clear -H24. remember (take 24 query) as l eqn:E. clear E.
      do 24 (destruct l as [|? l]; [simpl in H24; lia |]).
      destruct l; [reflexivity | simpl in H24; lia]. }
    rewrite filter_keeps_all by lia.
    f_equal. apply take_ge. lia. }
  split; by apply Hcut.
Qed.

Lemma generateCacheKey_drops_dataset_and_caller_witness :
  keyContent (js "How many employees do we have?") (Some (js "db-1")) (js "alice")
  ≠ keyContent (js "How many employees do we have?") (Some (js "db-2")) (js "bob") ∧
  generateCacheKey (js "How many employees do we have?") (Some (js "db-1")) (js "alice")
  = Ok (js "SG93IG1hbnkgZW1wbG95ZWVzIGRvIHdl") ∧
  generateCacheKey (js "How many employees do we have?") (Some (js "db-2")) (js "bob")
  = Ok (js "SG93IG1hbnkgZW1wbG95ZWVzIGRvIHdl").
Proof.
  split; [by vm_compute |].
  apply (generateCacheKey_drops_dataset_and_caller
           (js "How many employees do we have?")
           (Some (js "db-1")) (Some (js "db-2")) (js "alice") (js "bob")).
  - vm_compute. lia.
  - vm_compute. lia.
  - reflexivity.
  - reflexivity.
Defined.

(** ** History *)

(** C9, as the code has it: a request gets a successful response only when
    its answer is computed, and the record of the query is then in the
    history when the insert succeeds; an insert whose reply reports an error
    leaves the history as it was while the successful response is still
    sent.  A request whose answer is found in the cache never reaches the
    insert, and the history stays as it was. *)
Theorem history_appended_when_computed :
  ∀ (toLowerCase : jsstring → jsstring) (cosine_distance : vector → vector → Q)
    (env : Env) (req : Request) (userId : jsstring) (w : World) (key : jsstring),
    authenticated env req userId →
    generateCacheKey (req_query req) (req_databaseId req) userId = Ok key →
    let out := serve toLowerCase cosine_distance env req w in
    (∀ r, out.1 = RespOk r →
       (checkCache env key w).1 = Ok None ∧
       ∃ key', generateCacheKey (req_query req) (Some []) userId = Ok key' ∧
               query_history out.2
               = match reply env OpStoreQueryHistory with
                 | Succeeds =>
                     query_history w ++ [historyRecord userId (req_query req) r key']
                 | _ => query_history w
                 end) ∧
    (∀ r, (checkCache env key w).1 = Ok (Some r) →
       query_history out.2 = query_history w ∧ ∀ r', out.1 ≠ RespOk r').
Proof.
  intros toLowerCase cosine_distance env req userId w key Hauth Hk out.
  subst out. rewrite (serve_authenticated _ _ _ _ _ _ Hauth). unfold catch.
  split.
  - intros r Hout.
    destruct (answer _ _ env _ _ userId w) as [[resp|e] w1] eqn:Hrun;
      simpl in *; [| done]. subst resp.
    apply answer_Ok in Hrun as (key0 & Hk0 & Hc & Hmiss).
    assert (key0 = key) as -> by congruence.
    destruct Hmiss as (r0 & key' & _ & Hk' & [= ->] & _ & _ & _ & Hh).
    split; [done |]. eauto.
  - intros r Hc. rewrite (answer_hit _ _ _ _ _ _ _ _ _ Hk Hc). simpl.
    split; [done | by intros r'].
Qed.

Lemma history_appended_when_computed_witness :
  (checkCache example_env (js "SG93IG1hbnkgZW1wbG95ZWVzIGRvIHdl") example_world).1
  = Ok None ∧
  ∃ key', generateCacheKey (req_query count_request) (Some []) alice = Ok key' ∧
    query_history (run example_env count_request example_world).2
    = query_history example_world
      ++ [historyRecord alice (req_query count_request) count_result key'].
Proof.
  apply (proj1 (history_appended_when_computed asciiToLowerCase
                  unit_cosine_distance example_env count_request alice
                  example_world (js "SG93IG1hbnkgZW1wbG95ZWVzIGRvIHdl")
                  ltac:(split; [reflexivity |];
                        exists (js "Bearer token-alice"); by vm_compute)
                  ltac:(by vm_compute)) count_result).
  by vm_compute.
Defined.

(** C9 fails as stated: the history insert comes back with an error, which
    the handler does not read; the count question still gets its successful
    response, and the history holds no record of it. *)
Lemma history_insert_error_leaves_no_record :
  (run (with_reply example_env OpStoreQueryHistory ReplyError)
     count_request example_world).1
  = RespOk count_result ∧
  query_history example_world = [] ∧
  query_history
    (run (with_reply example_env OpStoreQueryHistory ReplyError)
       count_request example_world).2
  = [].
Proof. by vm_compute. Qed.

(** ** Failures *)

(** C2: once the answer is computed, a cache write or a history insert
    that fails does not change the outcome.  The client reports a failed
    write in its reply, which [cacheResult] and [storeQueryHistory] do not
    read: whether each of the two writes succeeds or fails, the computed
    result is sent as the successful response. *)
Theorem write_failures_after_computation :
  ∀ (toLowerCase : jsstring → jsstring) (cosine_distance : vector → vector → Q)
    (env : Env) (req : Request) (userId : jsstring) (w : World)
    (key : jsstring) (r : QueryResult),
    authenticated env req userId →
    generateCacheKey (req_query req) (req_databaseId req) userId = Ok key →
    (checkCache env key w).1 = Ok None →
    dispatch toLowerCase cosine_distance env
      (classifyQuery toLowerCase (req_query req))
      (req_query req) (req_databaseId req) userId w = (Ok r, w) →
    reply env OpCacheResult ≠ Throws →
    reply env OpStoreQueryHistory ≠ Throws →
    (serve toLowerCase cosine_distance env req w).1 = RespOk (stamped env r).
Proof.
  intros toLowerCase cosine_distance env req userId w key r Hauth Hk Hc Hd.
  rewrite (serve_authenticated _ _ _ _ _ _ Hauth). unfold catch.
  rewrite (answer_miss _ _ _ _ _ _ _ _ Hk Hc), Hd, cacheResult_run.
  destruct (generateCacheKey_history _ _ _ _ Hk) as [key' Hk'].
  destruct (reply env OpCacheResult);
    rewrite ?(storeQueryHistory_run _ _ _ _ _ _ Hk');
    destruct (reply env OpStoreQueryHistory); simpl; done.
Qed.

Lemma write_failures_after_computation_witness :
  (run (with_reply (with_reply example_env OpCacheResult ReplyError)
          OpStoreQueryHistory ReplyError)
     count_request example_world).1
  = RespOk count_result.
Proof.
  apply (write_failures_after_computation asciiToLowerCase
           unit_cosine_distance
           (with_reply (with_reply example_env OpCacheResult ReplyError)
              OpStoreQueryHistory ReplyError)
           count_request alice example_world
           (js "SG93IG1hbnkgZW1wbG95ZWVzIGRvIHdl")
           (set_performanceMetrics
              {| responseTime := 0; cacheHit := false; resultsCount := 1 |}
              count_result)
           ltac:(split; [reflexivity |];
                 exists (js "Bearer token-alice"); by vm_compute)
           ltac:(by vm_compute) ltac:(by vm_compute)
           ltac:(by vm_compute)).
  - by vm_compute.
  - by vm_compute.
Defined.

(** C1, as the code has it: a hybrid query is answered only when both
    legs complete, and the answer then carries the rows of both; when a leg
    throws (no database is found, or a call to the store throws) the whole
    request gets the 500 response, with nothing cached or recorded and no
    partial result; a search whose reply reports an error is not a failed
    leg: it completes with empty document results. *)
Theorem hybrid_all_or_nothing :
  ∀ (toLowerCase : jsstring → jsstring) (cosine_distance : vector → vector → Q)
    (env : Env) (req : Request) (userId : jsstring) (w : World) (key : jsstring),
    authenticated env req userId →
    generateCacheKey (req_query req) (req_databaseId req) userId = Ok key →
    (checkCache env key w).1 = Ok None →
    classifyQuery toLowerCase (req_query req) = Hybrid →
    let sqlLeg := (processSQLQuery toLowerCase env (req_query req)
                     (req_databaseId req) userId w).1 in
    let docLeg := (processDocumentQuery cosine_distance env (req_query req)
                     userId w).1 in
    let out := serve toLowerCase cosine_distance env req w in
    (∀ e, sqlLeg = Throw e → out = (RespError e, w)) ∧
    (∀ s e, sqlLeg = Ok s → docLeg = Throw e → out = (RespError e, w)) ∧
    (∀ r, out.1 = RespOk r →
       ∃ s dres, sqlLeg = Ok s ∧ docLeg = Ok dres ∧
                 sqlResults r = sqlResults s ∧
                 documentResults r = documentResults dres ∧
                 sources r = sources s ++ sources dres) ∧
    (∀ s dres, sqlLeg = Ok s → docLeg = Ok dres →
       reply env OpCacheResult ≠ Throws →
       reply env OpStoreQueryHistory ≠ Throws →
       ∃ r, out.1 = RespOk r ∧
            sqlResults r = sqlResults s ∧
            documentResults r = documentResults dres) ∧
    (reply env OpMatchDocuments = ReplyError →
       ∃ dres, docLeg = Ok dres ∧ documentResults dres = Some []).
Proof.
  intros toLowerCase cosine_distance env req userId w key Hauth Hk Hc Hcl
    sqlLeg docLeg out.
  subst out. rewrite (serve_authenticated _ _ _ _ _ _ Hauth). unfold catch.
  rewrite (answer_miss _ _ _ _ _ _ _ _ Hk Hc), Hcl. simpl.
  rewrite processHybridQuery_run. subst sqlLeg docLeg.
  destruct (generateCacheKey_history _ _ _ _ Hk) as [key' Hk'].
  destruct (processSQLQuery _ env _ _ userId w) as [[s|e] w1];
    destruct (processDocumentQuery _ env _ userId w) as [[dres|e'] w2] eqn:Hdoc;
    simpl.
  all: split; [intros ? [= <-]; try done |].
  all: split; [intros ? ? [= <-] [= <-]; try done |].
  all: split; [| split].
  all: try (intros r Hr; exfalso; revert Hr; done).
  all: try (intros ? ? [= <-] [= <-]; try done).
  all: try (intros Hrep; exfalso; revert Hdoc;
            unfold processDocumentQuery, bind, call, ret; rewrite Hrep; done).
  all: try (intros Hrep; revert Hdoc;
            unfold processDocumentQuery, bind, call, ret; rewrite Hrep;
            intros [= <- <-]; by eexists).
  - intros r. rewrite cacheResult_run.
    destruct (reply env OpCacheResult);
      rewrite ?(storeQueryHistory_run _ _ _ _ _ _ Hk');
      destruct (reply env OpStoreQueryHistory); simpl; try done.
    all: intros [= <-]; by exists s, dres.
  - intros H1 H2. rewrite cacheResult_run.
    destruct (reply env OpCacheResult);
      rewrite ?(storeQueryHistory_run _ _ _ _ _ _ Hk');
      destruct (reply env OpStoreQueryHistory); simpl; try done.
    all: by eexists.
Qed.

Lemma hybrid_all_or_nothing_witness :
  run example_env hybrid_request no_database_world
  = (RespError DatabaseNotFound, no_database_world).
Proof.
  apply (proj1 (hybrid_all_or_nothing asciiToLowerCase unit_cosine_distance
                  example_env hybrid_request alice no_database_world
                  (js "RW1wbG95ZWVzIHdpdGggUHl0aG9uIHNr")
                  ltac:(split; [reflexivity |];
                        exists (js "Bearer token-alice"); by vm_compute)
                  ltac:(by vm_compute) ltac:(by vm_compute)
                  ltac:(by vm_compute))).
  by vm_compute.
Defined.

(** C1 fails as stated: with the database missing and the documents
    searchable, and again with the database there and the search throwing,
    the hybrid query gets the 500 response and no partial result. *)
Lemma hybrid_leg_failure_fails_query :
  classifyQuery asciiToLowerCase (req_query hybrid_request) = Hybrid ∧
  (processSQLQuery asciiToLowerCase example_env (req_query hybrid_request)
     (req_databaseId hybrid_request) alice no_database_world).1
  = Throw DatabaseNotFound ∧
  succeeded (processDocumentQuery unit_cosine_distance example_env
               (req_query hybrid_request) alice no_database_world).1 = true ∧
  run example_env hybrid_request no_database_world
  = (RespError DatabaseNotFound, no_database_world) ∧
  succeeded (processSQLQuery asciiToLowerCase search_down_env
               (req_query hybrid_request) (req_databaseId hybrid_request)
               alice example_world).1 = true ∧
  (processDocumentQuery unit_cosine_distance search_down_env
     (req_query hybrid_request) alice example_world).1
  = Throw (Rejected OpMatchDocuments) ∧
  run search_down_env hybrid_request example_world
  = (RespError (Rejected OpMatchDocuments), example_world).
Proof. by vm_compute. Qed.

(** ** Repeated questions *)

(** C5 fails in the code.  No response of the handler reports
    [cacheHit = true]: a successful response always carries a computed
    result.  When a request has been answered by computing and its result
    has been written to the cache under a key that had no row, the same
    request looked up before the entry expires (five minutes after the
    write) finds the result in the cache, [updateCacheHit] throws, and the
    caller gets the 500 response instead of the result; looked up at the
    moment of expiry or later, the request finds nothing in the cache. *)
Theorem repeat_within_ttl_fails :
  (∀ (toLowerCase : jsstring → jsstring) (cosine_distance : vector → vector → Q)
     (env : Env) (req : Request) (w : World) (r : QueryResult),
     (serve toLowerCase cosine_distance env req w).1 = RespOk r →
     cacheHit (performanceMetrics r) = false) ∧
  (∀ (toLowerCase : jsstring → jsstring) (cosine_distance : vector → vector → Q)
     (env1 env2 : Env) (req : Request) (userId : jsstring)
     (w : World) (key : jsstring) (r1 : QueryResult),
     authenticated env1 req userId →
     authenticated env2 req userId →
     generateCacheKey (req_query req) (req_databaseId req) userId = Ok key →
     query_cache w !! key = None →
     (serve toLowerCase cosine_distance env1 req w).1 = RespOk r1 →
     reply env1 OpCacheResult = Succeeds →
     reply env2 OpCheckCache = Succeeds →
     let w1 := (serve toLowerCase cosine_distance env1 req w).2 in
     ((t_lookup env2 < t_store env1 + 5 * 60 * 1000)%Z →
        (checkCache env2 key w1).1 = Ok (Some r1) ∧
        serve toLowerCase cosine_distance env2 req w1
        = (RespError TypeError, w1)) ∧
     ((t_store env1 + 5 * 60 * 1000 ≤ t_lookup env2)%Z →
        (checkCache env2 key w1).1 = Ok None)).
Proof.
  split.
  - intros toLowerCase cosine_distance env req w r Hr.
    destruct (serve_cases toLowerCase cosine_distance env req w)
      as [[userId Hauth] | [_ Hno]]; [| by destruct (Hno r)].
    rewrite (serve_authenticated _ _ _ _ _ _ Hauth) in Hr. unfold catch in Hr.
    destruct (answer _ _ env _ _ userId w) as [[resp|e] w1] eqn:Hans;
      simplify_eq/=.
    apply answer_Ok in Hans as (key & _ & _ & r0 & key' & Hd & _ & [= ->] & _).
    by apply dispatch_Ok in Hd as (_ & _ & Hc).
  - intros toLowerCase cosine_distance env1 env2 req userId w key r1
      Hauth1 Hauth2 Hk Hfresh Hr1 Hstore Hcheck w1.
    assert (Hrow : query_cache w1 !! key
                   = Some {| query_text := req_query req;
                             results := r1;
                             expires_at := (t_store env1 + ttl)%Z;
                             hit_count := 0;
                             last_accessed := t_store env1 |}).
    { subst w1. revert Hr1.
      rewrite (serve_authenticated _ _ _ _ _ _ Hauth1). unfold catch.
      destruct (answer _ _ env1 _ _ userId w) as [[resp|e] w'] eqn:Hans;
        simpl; [| done]. intros ->.
      apply answer_Ok in Hans as (key0 & Hk0 & _ & Hmiss).
      assert (key0 = key) as -> by congruence.
      destruct Hmiss as (r0 & key' & _ & _ & [= ->] & _ & _ & Hcache & _).
      rewrite Hcache, Hstore. unfold upsert.
      by rewrite Hfresh, lookup_insert_eq. }
    clearbody w1. split.
    + intros Httl.
      assert (Hc : (checkCache env2 key w1).1 = Ok (Some r1)).
      { apply checkCache_Some. split; [done |].
        eexists. split; [exact Hrow |]. simpl. by unfold ttl. }
      split; [done |].
      rewrite (serve_authenticated _ _ _ _ _ _ Hauth2). unfold catch.
      by rewrite (answer_hit _ _ _ _ _ _ _ _ _ Hk Hc).
    + intros Hlate. unfold checkCache, bind, call, ret.
      rewrite Hcheck, Hrow. simpl.
      destruct (Z.ltb_spec (t_lookup env2) (t_store env1 + ttl)); [| done].
      unfold ttl in *. lia.
Qed.

Lemma repeat_within_ttl_fails_witness :
  (run example_env count_request example_world).1 = RespOk count_result ∧
  run later_env count_request cached_world
  = (RespError TypeError, cached_world) ∧
  t_lookup expired_env = (t_store example_env + 5 * 60 * 1000)%Z ∧
  (checkCache expired_env (js "SG93IG1hbnkgZW1wbG95ZWVzIGRvIHdl") cached_world).1
  = Ok None.
Proof.
  assert (Halice : ∀ env, reply env OpGetUser = Succeeds →
            getUser env = getUser example_env →
            authenticated env count_request alice).
  { intros env Hrep Hget. split; [reflexivity |].
    exists (js "Bearer token-alice"). rewrite Hget. by vm_compute. }
  assert (Hk : generateCacheKey (req_query count_request)
                 (req_databaseId count_request) alice
               = Ok (js "SG93IG1hbnkgZW1wbG95ZWVzIGRvIHdl")) by by vm_compute.
  assert (Hr1 : (run example_env count_request example_world).1
                = RespOk count_result) by by vm_compute.
  split; [exact Hr1 |]. split; [| split; [reflexivity |]].
  - exact (proj2 (proj1 (proj2 repeat_within_ttl_fails asciiToLowerCase
             unit_cosine_distance example_env later_env count_request alice
             example_world _ count_result
             (Halice example_env eq_refl eq_refl)
             (Halice later_env eq_refl eq_refl)
             Hk eq_refl Hr1 eq_refl eq_refl) ltac:(by vm_compute))).
  - exact (proj2 (proj2 repeat_within_ttl_fails asciiToLowerCase
             unit_cosine_distance example_env expired_env count_request alice
             example_world _ count_result
             (Halice example_env eq_refl eq_refl)
             (Halice expired_env eq_refl eq_refl)
             Hk eq_refl Hr1 eq_refl eq_refl) ltac:(by vm_compute)).
Defined.

(** * Further properties of the handler *)

Ltac nothing_new :=
  exists []; split; [by rewrite app_nil_r | simpl; lia].

Section Frames.

Variable toLowerCase : jsstring → jsstring.
Variable cosine_distance : vector → vector → Q.

Local Abbreviation serve := (serve toLowerCase cosine_distance).
Local Abbreviation answer := (answer toLowerCase cosine_distance).
Local Abbreviation dispatch := (dispatch toLowerCase cosine_distance).
Local Abbreviation classifyQuery := (classifyQuery toLowerCase).

(** What one run of [answer] can have done to the tables. *)
Lemma answer_frame env q d u w :
  let w' := (answer env q d u w).2 in
  discovered_databases w' = discovered_databases w ∧
  documents w' = documents w ∧
  document_chunks w' = document_chunks w ∧
  (∃ new, query_history w' = query_history w ++ new ∧ length new ≤ 1) ∧
  (∀ k, query_cache w' !! k ≠ query_cache w !! k → generateCacheKey q d u = Ok k) ∧
  (∀ k, is_Some (query_cache w !! k) → is_Some (query_cache w' !! k)).
Proof.
  assert (Hsame : ∀ w0 : World,
    discovered_databases w0 = discovered_databases w0 ∧
    documents w0 = documents w0 ∧ document_chunks w0 = document_chunks w0 ∧
    (∃ new, query_history w0 = query_history w0 ++ new ∧ length new ≤ 1) ∧
    (∀ k, query_cache w0 !! k ≠ query_cache w0 !! k → generateCacheKey q d u = Ok k) ∧
    (∀ k, is_Some (query_cache w0 !! k) → is_Some (query_cache w0 !! k))).
  { intros w0. split_and!; try done.
    nothing_new. }
  destruct (generateCacheKey q d u) as [key|e] eqn:Hk;
    [| rewrite (answer_key_throws _ _ _ _ _ _ _ _ Hk); simpl;
       destruct (Hsame w) as (? & ? & ? & ? & ? & ?); split_and!; try done ].
  destruct (generateCacheKey_history _ _ _ _ Hk) as [key' Hk'].
  assert (Hstay : ∀ r t k row, query_cache w !! k = Some row →
            upsert env key q r t (query_cache w) !! k = Some row).
  { intros r t k row Hrow. unfold upsert.
    destruct (query_cache w !! key) as [old|] eqn:Hold; [done |].
    rewrite lookup_insert_ne; [done | congruence]. }
  assert (Hupsert : ∀ r t k,
            upsert env key q r t (query_cache w) !! k ≠ query_cache w !! k →
            Ok key = Ok k).
  { intros r t k. unfold upsert.
    destruct (query_cache w !! key) as [old|] eqn:Hold; [done |].
    destruct (decide (key = k)) as [-> | Hne]; [done |].
    by rewrite lookup_insert_ne. }
  assert (Hkeep : ∀ r t k, is_Some (query_cache w !! k) →
            is_Some (upsert env key q r t (query_cache w) !! k)).
  { intros r t k [row Hrow]. rewrite (Hstay r t k row Hrow). eauto. }
  destruct ((checkCache env key w).1) as [[r|]|e] eqn:Hc.
  - rewrite (answer_hit _ _ _ _ _ _ _ _ _ Hk Hc). apply Hsame.
  - rewrite (answer_miss _ _ _ _ _ _ _ _ Hk Hc).
    destruct (dispatch env (classifyQuery q) q d u w) as [[r|e] w0] eqn:Hd;
      [| apply Hsame].
    rewrite cacheResult_run.
    destruct (reply env OpCacheResult);
      rewrite ?(storeQueryHistory_run _ _ _ _ _ _ Hk');
      destruct (reply env OpStoreQueryHistory); simpl; try apply Hsame.
    all: split_and!; try done; eauto.
    all: try nothing_new.
    all: try (eexists [_]; split; [reflexivity | simpl; lia]).
  - rewrite (answer_check_throws _ _ _ _ _ _ _ _ _ Hk Hc). apply Hsame.
Qed.

(** What one run of [answer] can have done to the rows of the cache: the
    rows it found are as they were, and a row it did not find is new. *)
Lemma answer_rows env q d u w :
  let w' := (answer env q d u w).2 in
  (∀ k row, query_cache w !! k = Some row → query_cache w' !! k = Some row) ∧
  (∀ k row, query_cache w' !! k = Some row →
     query_cache w !! k = Some row ∨ hit_count row = 0%Z).
Proof.
  destruct (generateCacheKey q d u) as [key|e] eqn:Hk;
    [| by rewrite (answer_key_throws _ _ _ _ _ _ _ _ Hk); simpl; eauto ].
  destruct (generateCacheKey_history _ _ _ _ Hk) as [key' Hk'].
  assert (Hstay : ∀ r t k row, query_cache w !! k = Some row →
            upsert env key q r t (query_cache w) !! k = Some row).
  { intros r t k row Hrow. unfold upsert.
    destruct (query_cache w !! key) as [old|] eqn:Hold; [done |].
    rewrite lookup_insert_ne; [done | congruence]. }
  assert (Hnew : ∀ r t k row,
            upsert env key q r t (query_cache w) !! k = Some row →
            query_cache w !! k = Some row ∨ hit_count row = 0%Z).
  { intros r t k row. unfold upsert.
    destruct (query_cache w !! key) as [old|] eqn:Hold; [by left |].
    destruct (decide (key = k)) as [-> | Hne].
    - rewrite lookup_insert_eq. intros [= <-]. by right.
    - rewrite lookup_insert_ne by done. by left. }
  destruct ((checkCache env key w).1) as [[r|]|e] eqn:Hc.
  - rewrite (answer_hit _ _ _ _ _ _ _ _ _ Hk Hc). simpl. eauto.
  - rewrite (answer_miss _ _ _ _ _ _ _ _ Hk Hc).
    destruct (dispatch env (classifyQuery q) q d u w) as [[r|e] w0] eqn:Hd;
      [| simpl; eauto].
    rewrite cacheResult_run.
    destruct (reply env OpCacheResult);
      rewrite ?(storeQueryHistory_run _ _ _ _ _ _ Hk');
      destruct (reply env OpStoreQueryHistory); simpl; eauto.
  - rewrite (answer_check_throws _ _ _ _ _ _ _ _ _ Hk Hc). simpl. eauto.
Qed.

Lemma serve_rows env req w :
  let w' := (serve env req w).2 in
  (∀ k row, query_cache w !! k = Some row → query_cache w' !! k = Some row) ∧
  (∀ k row, query_cache w' !! k = Some row →
     query_cache w !! k = Some row ∨ hit_count row = 0%Z).
Proof.
  destruct (serve_cases toLowerCase cosine_distance env req w)
    as [[userId Hauth] | [Hw _]]; [| rewrite Hw; eauto].
  rewrite (serve_authenticated _ _ _ _ _ _ Hauth). unfold catch.
  pose proof (answer_rows env (req_query req) (req_databaseId req) userId w)
    as Hrows.
  by destruct (answer env _ _ userId w) as [[resp|e] w1].
Qed.

End Frames.

(** X1.  Whatever the request and whatever fails, the handler leaves the
    databases, documents and chunks as they were, appends at most one
    record to the history and removes none, changes the cache only at the
    key derived from the request for its user, and evicts no cache entry. *)
Theorem serve_frame :
  ∀ (toLowerCase : jsstring → jsstring) (cosine_distance : vector → vector → Q)
    (env : Env) (req : Request) (w : World),
    let w' := (serve toLowerCase cosine_distance env req w).2 in
    discovered_databases w' = discovered_databases w ∧
    documents w' = documents w ∧
    document_chunks w' = document_chunks w ∧
    (∃ new, query_history w' = query_history w ++ new ∧ length new ≤ 1) ∧
    (∀ k, query_cache w' !! k ≠ query_cache w !! k →
       ∃ userId, authenticated env req userId ∧
                 generateCacheKey (req_query req) (req_databaseId req) userId = Ok k) ∧
    (∀ k, is_Some (query_cache w !! k) → is_Some (query_cache w' !! k)).
Proof.
  intros toLowerCase cosine_distance env req w w'. subst w'.
  destruct (serve_cases toLowerCase cosine_distance env req w)
    as [[userId Hauth] | [Hw _]].
  - rewrite (serve_authenticated _ _ _ _ _ _ Hauth). unfold catch.
    pose proof (answer_frame toLowerCase cosine_distance env (req_query req)
                  (req_databaseId req) userId w) as Hf.
    destruct (answer _ _ env _ _ userId w) as [[resp|e] w1]; simpl in *.
    all: destruct Hf as (? & ? & ? & ? & Hcache & ?); split_and!; try done.
    all: intros k Hk; exists userId; split; [done | by apply Hcache].
  - rewrite Hw. split_and!; try done.
    nothing_new.
Qed.

(** X2.  A request that brings no user gets no work done: with the
    [Authorization] header missing the handler answers 500, with a token
    the auth service does not resolve (or an error reply) it answers 401,
    with the auth call throwing it answers 500; in each case no table is
    touched and no result is sent. *)
Theorem no_user_no_work :
  ∀ (toLowerCase : jsstring → jsstring) (cosine_distance : vector → vector → Q)
    (env : Env) (req : Request) (w : World),
    is_options req = false →
    (authorization req = None →
       serve toLowerCase cosine_distance env req w = (RespError TypeError, w)) ∧
    (∀ h, authorization req = Some h →
       reply env OpGetUser = ReplyError ∨
       (reply env OpGetUser = Succeeds ∧
        getUser env (replace h (js "Bearer ") []) = None) →
       serve toLowerCase cosine_distance env req w = (RespUnauthorized, w)) ∧
    (∀ h, authorization req = Some h →
       reply env OpGetUser = Throws →
       serve toLowerCase cosine_distance env req w
       = (RespError (Rejected OpGetUser), w)).
Proof.
  intros toLowerCase cosine_distance env req w Hopt.
  unfold serve, attempt, catch, bind, call, ret, throw. rewrite Hopt.
  split_and!.
  - by intros ->.
  - intros h -> [-> | [-> ->]]; done.
  - by intros h -> ->.
Qed.

Lemma no_user_no_work_witness :
  run example_env mallory_request cached_world
  = (RespUnauthorized, cached_world).
Proof.
  apply (no_user_no_work asciiToLowerCase unit_cosine_distance example_env
           mallory_request cached_world eq_refl)
    with (h := js "Bearer token-mallory").
  - reflexivity.
  - right. by vm_compute.
Defined.

(** X3.  An entry is valid strictly before [expires_at]: a request whose
    lookup happens at or after that instant is computed afresh and its
    response reports [cacheHit = false].  The key still has its row, so the
    cache write of the new result is refused: the cache stays exactly as it
    was, the expired row included, and the new result is not filed. *)
Theorem expired_entry_is_recomputed :
  ∀ (toLowerCase : jsstring → jsstring) (cosine_distance : vector → vector → Q)
    (env : Env) (req : Request) (userId key : jsstring) (w w' : World)
    (row : CacheRow) (r : QueryResult),
    authenticated env req userId →
    generateCacheKey (req_query req) (req_databaseId req) userId = Ok key →
    query_cache w !! key = Some row →
    (expires_at row ≤ t_lookup env)%Z →
    serve toLowerCase cosine_distance env req w = (RespOk r, w') →
    cacheHit (performanceMetrics r) = false ∧
    (∃ r0, dispatch toLowerCase cosine_distance env
             (classifyQuery toLowerCase (req_query req)) (req_query req)
             (req_databaseId req) userId w = (Ok r0, w) ∧
           r = stamped env r0) ∧
    query_cache w' = query_cache w.
Proof.
  intros toLowerCase cosine_distance env req userId key w w' row r
    Hauth Hk Hrow Hexp Hrun.
  rewrite (serve_authenticated _ _ _ _ _ _ Hauth) in Hrun. unfold catch in Hrun.
  destruct (answer _ _ env _ _ userId w) as [[resp|e] w1] eqn:Hans; simplify_eq.
  apply answer_Ok in Hans as (key0 & Hk0 & _ & Hcomputed).
  assert (key0 = key) as -> by congruence.
  destruct Hcomputed as (r0 & key' & Hd & _ & [= ->] & _ & _ & Hcache & _).
  pose proof Hd as Hd'. apply dispatch_Ok in Hd' as (_ & _ & Hhit).
  split_and!; [done | by exists r0 |].
  rewrite Hcache. unfold upsert. rewrite Hrow.
  by destruct (reply env OpCacheResult).
Qed.

Lemma expired_entry_is_recomputed_witness :
  ∃ r w',
    run expired_env count_request cached_world = (RespOk r, w') ∧
    cacheHit (performanceMetrics r) = false ∧
    query_cache w' = query_cache cached_world.
Proof.
  eexists _, _. split; [by vm_compute |].
  pose proof (expired_entry_is_recomputed asciiToLowerCase
            unit_cosine_distance expired_env count_request alice
            (js "SG93IG1hbnkgZW1wbG95ZWVzIGRvIHdl") cached_world _
            {| query_text := req_query count_request;
               results := count_result;
               expires_at := 301011;
               hit_count := 0;
               last_accessed := 1011 |} _
            ltac:(split; [reflexivity |];
                  exists (js "Bearer token-alice"); by vm_compute)
            eq_refl eq_refl ltac:(by vm_compute) eq_refl) as (H1 & _ & H2).
  split; [exact H1 | exact H2].
Defined.

(** X4.  The cache is looked up by key alone.  When the key a request
    derives has a row that has not expired, whoever wrote it (the same
    question asked by another caller about another dataset is enough), the
    request is not computed: the lookup finds the row, [updateCacheHit]
    throws, and the handler answers 500 with every table as it was. *)
Theorem cached_key_blocks_request :
  ∀ (toLowerCase : jsstring → jsstring) (cosine_distance : vector → vector → Q)
    (env : Env) (req : Request) (userId key : jsstring) (w : World)
    (row : CacheRow),
    authenticated env req userId →
    generateCacheKey (req_query req) (req_databaseId req) userId = Ok key →
    reply env OpCheckCache = Succeeds →
    query_cache w !! key = Some row →
    (t_lookup env < expires_at row)%Z →
    serve toLowerCase cosine_distance env req w = (RespError TypeError, w).
Proof.
  intros toLowerCase cosine_distance env req userId key w row
    Hauth Hk Hcheck Hrow Hlt.
  assert (Hc : (checkCache env key w).1 = Ok (Some (results row))).
  { apply checkCache_Some. split; [done |]. by exists row. }
  rewrite (serve_authenticated _ _ _ _ _ _ Hauth). unfold catch.
  by rewrite (answer_hit _ _ _ _ _ _ _ _ _ Hk Hc).
Qed.

Lemma cached_key_blocks_request_witness :
  generateCacheKey (req_query count_request) (req_databaseId count_request) alice
  = generateCacheKey (req_query bob_request) (req_databaseId bob_request) bob ∧
  run bob_env bob_request
    (set_query_cache (query_cache cached_world) no_database_world)
  = (RespError TypeError,
     set_query_cache (query_cache cached_world) no_database_world).
Proof.
  split; [by vm_compute |].
  apply (cached_key_blocks_request asciiToLowerCase unit_cosine_distance
           bob_env bob_request bob (js "SG93IG1hbnkgZW1wbG95ZWVzIGRvIHdl")
           (set_query_cache (query_cache cached_world) no_database_world)
           {| query_text := req_query count_request;
              results := count_result;
              expires_at := 301011;
              hit_count := 0;
              last_accessed := 1011 |}).
  - split; [reflexivity |]. exists (js "Bearer token-bob"). by vm_compute.
  - by vm_compute.
  - reflexivity.
  - by vm_compute.
  - by vm_compute.
Defined.

(** X5.  The rows of the cache are written once.  No request changes or
    removes a row the cache holds: its result, its [expires_at], its
    [hit_count] and its [last_accessed] stay as they were when it was
    inserted.  So in every state the handler can reach from an empty cache
    each row has [hit_count = 0]: no hit is ever counted. *)
Theorem cache_rows_written_once :
  ∀ (toLowerCase : jsstring → jsstring) (cosine_distance : vector → vector → Q),
    (∀ (env : Env) (req : Request) (w : World) (k : jsstring) (row : CacheRow),
       query_cache w !! k = Some row →
       query_cache (serve toLowerCase cosine_distance env req w).2 !! k
       = Some row) ∧
    (∀ (w : World) (k : jsstring) (row : CacheRow),
       reachable toLowerCase cosine_distance w →
       query_cache w !! k = Some row →
       hit_count row = 0%Z).
Proof.
  intros toLowerCase cosine_distance. split.
  - intros env req w k row.
    apply (proj1 (serve_rows toLowerCase cosine_distance env req w)).
  - intros w k row Hreach. revert k row.
    induction Hreach as [w H | env req w _ IH | w w' _ IH Heq]; intros k row.
    + by rewrite H, lookup_empty.
    + intros Hrow.
      apply (proj2 (serve_rows toLowerCase cosine_distance env req w)) in Hrow
        as [Hold | Hzero]; [by apply (IH k) | done].
    + rewrite Heq. apply IH.
Qed.

Lemma cache_rows_written_once_witness :
  query_cache cached_world !! js "SG93IG1hbnkgZW1wbG95ZWVzIGRvIHdl"
  = Some {| query_text := req_query count_request;
            results := count_result;
            expires_at := 301011;
            hit_count := 0;
            last_accessed := 1011 |} ∧
  query_cache (run later_env count_request cached_world).2
    !! js "SG93IG1hbnkgZW1wbG95ZWVzIGRvIHdl"
  = Some {| query_text := req_query count_request;
            results := count_result;
            expires_at := 301011;
            hit_count := 0;
            last_accessed := 1011 |} ∧
  query_cache (run expired_env count_request cached_world).2
    !! js "SG93IG1hbnkgZW1wbG95ZWVzIGRvIHdl"
  = Some {| query_text := req_query count_request;
            results := count_result;
            expires_at := 301011;
            hit_count := 0;
            last_accessed := 1011 |}.
Proof.
  assert (Hrow : query_cache cached_world !! js "SG93IG1hbnkgZW1wbG95ZWVzIGRvIHdl"
                 = Some {| query_text := req_query count_request;
                           results := count_result;
                           expires_at := 301011;
                           hit_count := 0;
                           last_accessed := 1011 |}) by by vm_compute.
  split; [exact Hrow |]. split.
  - exact (proj1 (cache_rows_written_once asciiToLowerCase unit_cosine_distance)
             later_env count_request cached_world _ _ Hrow).
  - exact (proj1 (cache_rows_written_once asciiToLowerCase unit_cosine_distance)
             expired_env count_request cached_world _ _ Hrow).
Defined.

(** ** Counts and sources *)

Section Tallies.

Variable toLowerCase : jsstring → jsstring.
Variable cosine_distance : vector → vector → Q.

Local Abbreviation serve := (serve toLowerCase cosine_distance).
Local Abbreviation answer := (answer toLowerCase cosine_distance).
Local Abbreviation dispatch := (dispatch toLowerCase cosine_distance).
Local Abbreviation processSQLQuery := (processSQLQuery toLowerCase).
Local Abbreviation processDocumentQuery := (processDocumentQuery cosine_distance).
Local Abbreviation classifyQuery := (classifyQuery toLowerCase).

Lemma processSQLQuery_tally env q d u w r w' :
  processSQLQuery env q d u w = (Ok r, w') →
  tally_ok r ∧ sources_ok r ∧ documentResults r = None ∧
  ∃ rows, sqlResults r = Some rows.
Proof.
  unfold processSQLQuery, bind, call, ret, throw.
  destruct (reply env OpSelectSchema); simpl; try done.
  destruct (single _); simpl; [| done].
  intros [= <- <-]. unfold tally_ok, sources_ok. simpl.
  split_and!; [lia | done | done | by eexists].
Qed.

Lemma processDocumentQuery_tally env q u w r w' :
  processDocumentQuery env q u w = (Ok r, w') →
  tally_ok r ∧ sources_ok r ∧ sqlResults r = None ∧
  ∃ docs, documentResults r = Some docs.
Proof.
  unfold processDocumentQuery, bind, call, ret.
  destruct (reply env OpMatchDocuments); simpl; try done.
  all: intros [= <- <-]; unfold tally_ok, sources_ok; simpl.
  all: split_and!; [done | done | done | by eexists].
Qed.

Lemma dispatch_tally env t q d u w r w' :
  dispatch env t q d u w = (Ok r, w') → tally_ok r ∧ sources_ok r.
Proof.
  destruct t; simpl.
  - intros H. by apply processSQLQuery_tally in H as (? & ? & _).
  - intros H. by apply processDocumentQuery_tally in H as (? & ? & _).
  - rewrite processHybridQuery_run.
    destruct (processSQLQuery env q d u w) as [[s|e] w1] eqn:Hs; [| done].
    destruct (processDocumentQuery env q u w) as [[dres|e] w2] eqn:Hd; [| done].
    apply processSQLQuery_tally in Hs as (_ & Hss & Hsd & rows & Hrows).
    apply processDocumentQuery_tally in Hd as (_ & Hds & Hdn & docs & Hdocs).
    intros [= <- <-]. unfold tally_ok, sources_ok in *. simpl.
    rewrite Hss, Hds, Hsd, Hdn, Hrows, Hdocs. simpl.
    done.
Qed.

Lemma serve_counted env req w :
  counted w →
  (∀ r, (serve env req w).1 = RespOk r → tally_ok r ∧ sources_ok r) ∧
  counted (serve env req w).2.
Proof.
  intros Hinv.
  destruct (serve_cases toLowerCase cosine_distance env req w)
    as [[userId Hauth] | [Hw Hno]];
    [| rewrite Hw; split; [intros r Hr; by destruct (Hno r) | done]].
  rewrite (serve_authenticated _ _ _ _ _ _ Hauth). unfold catch.
  set (q := req_query req). set (d := req_databaseId req).
  destruct (generateCacheKey q d userId) as [key|e] eqn:Hk;
    [| by rewrite (answer_key_throws _ _ _ _ _ _ _ _ Hk)].
  destruct (generateCacheKey_history _ _ _ _ Hk) as [key' Hk'].
  destruct ((checkCache env key w).1) as [[r|]|e] eqn:Hc.
  - by rewrite (answer_hit _ _ _ _ _ _ _ _ _ Hk Hc).
  - rewrite (answer_miss _ _ _ _ _ _ _ _ Hk Hc).
    destruct (dispatch env (classifyQuery q) q d userId w) as [[r|e] w0] eqn:Hd;
      [| done].
    apply dispatch_tally in Hd as [Ht Hs].
    assert (Hup : ∀ t, counted (set_query_cache
                         (upsert env key q (stamped env r) t (query_cache w)) w)).
    { intros t k row'. simpl. unfold upsert.
      destruct (query_cache w !! key) as [old|] eqn:Hold; [apply Hinv |].
      destruct (decide (key = k)) as [<- | Hne].
      - rewrite lookup_insert_eq. by intros [= <-].
      - rewrite lookup_insert_ne by done. apply Hinv. }
    rewrite cacheResult_run.
    destruct (reply env OpCacheResult);
      rewrite ?(storeQueryHistory_run _ _ _ _ _ _ Hk');
      destruct (reply env OpStoreQueryHistory); simpl; (split; [| try done]).
    all: try (by intros r' [= <-]).
    all: try apply Hup.
    all: intros k row'; simpl; apply Hup.
  - by rewrite (answer_check_throws _ _ _ _ _ _ _ _ _ Hk Hc).
Qed.

Lemma reachable_counted w :
  reachable toLowerCase cosine_distance w → counted w.
Proof.
  induction 1 as [w H | env req w _ IH | w w' _ IH Heq].
  - intros key row. by rewrite H, lookup_empty.
  - by apply serve_counted.
  - intros key row. rewrite Heq. apply IH.
Qed.

End Tallies.

(** X6.  In every result the handler sends, computed or cached,
    [resultsCount] is the number of SQL rows plus the number of document
    matches the result carries, and [sources] is ["database"] when the
    result has SQL rows followed by the file name of every document match,
    in the order of the matches. *)
Theorem results_are_counted :
  ∀ (toLowerCase : jsstring → jsstring) (cosine_distance : vector → vector → Q)
    (env : Env) (req : Request) (w : World) (r : QueryResult),
    reachable toLowerCase cosine_distance w →
    (serve toLowerCase cosine_distance env req w).1 = RespOk r →
    resultsCount (performanceMetrics r)
    = count (sqlResults r) + count (documentResults r) ∧
    sources r
    = match sqlResults r with Some _ => [js "database"] | None => [] end ++
      (document <$> default [] (documentResults r)).
Proof.
  intros toLowerCase cosine_distance env req w r Hreach Hr.
  apply reachable_counted in Hreach.
  by apply (serve_counted toLowerCase cosine_distance env req w Hreach).
Qed.

Lemma results_are_counted_witness :
  ∃ r, (run tuned_env hybrid_request example_world).1 = RespOk r ∧
       resultsCount (performanceMetrics r) = 7 ∧
       sources r = [js "database"; js "jane.pdf"; js "jane.pdf"].
Proof.
  eexists. split; [by vm_compute |].
  exact (results_are_counted asciiToLowerCase unit_cosine_distance
           tuned_env hybrid_request example_world _
           (reachable_init _ _ example_world eq_refl) eq_refl).
Defined.

(** ** The database of a query *)

(** X7.  The SQL path answers only from a database the caller owns: the
    result is built from the one row of [discovered_databases] with the
    requested id and the caller as owner; when there is no such row (the
    id is unknown, belongs to another user, or is undefined), or when the
    lookup's reply reports an error, the path throws "Database not found",
    and a request routed to it on a cache miss gets the 500 response with
    no table changed. *)
Theorem database_lookup_is_scoped :
  ∀ (toLowerCase : jsstring → jsstring) (cosine_distance : vector → vector → Q)
    (env : Env) (req : Request) (userId key : jsstring) (w : World),
    reply env OpSelectSchema ≠ Throws →
    let q := req_query req in
    let d := req_databaseId req in
    let out := processSQLQuery toLowerCase env q d userId w in
    (∀ r, out.1 = Ok r →
       ∃ row, row ∈ discovered_databases w ∧
              Some (db_id row) = d ∧ db_user_id row = userId ∧
              generatedSQL r = Some (generateSQL toLowerCase q (schema_data row)) ∧
              sqlResults r
              = Some (executeSQL (generateSQL toLowerCase q (schema_data row))
                        (schema_data row))) ∧
    ((reply env OpSelectSchema = ReplyError ∨
      ∀ row, row ∈ discovered_databases w →
             ¬ (Some (db_id row) = d ∧ db_user_id row = userId)) →
       out = (Throw DatabaseNotFound, w) ∧
       (authenticated env req userId →
        generateCacheKey q d userId = Ok key →
        (checkCache env key w).1 = Ok None →
        classifyQuery toLowerCase q ≠ Document →
        serve toLowerCase cosine_distance env req w
        = (RespError DatabaseNotFound, w))).
Proof.
  intros toLowerCase cosine_distance env req userId key w Hrep q d out.
  subst out. split.
  - unfold processSQLQuery, bind, call, ret, throw.
    destruct (reply env OpSelectSchema); simpl; try done.
    destruct (filter _ (discovered_databases w)) as [|row [|row' rest]] eqn:Hf;
      simpl; try done.
    intros r [= <-].
    assert (Hin : row ∈ filter (λ row, Some (db_id row) = d ∧ db_user_id row = userId)
                          (discovered_databases w)) by (rewrite Hf; by left).
    apply list_elem_of_filter in Hin as [[Hid Hu] Hin].
    by exists row.
  - intros Hnone.
    assert (Hsql : processSQLQuery toLowerCase env q d userId w
                   = (Throw DatabaseNotFound, w)).
    { unfold processSQLQuery, bind, call, ret, throw.
      destruct Hnone as [-> | Hnone]; [done |].
      destruct (reply env OpSelectSchema); simpl; try done.
      destruct (filter _ (discovered_databases w)) as [|row rest] eqn:Hf;
        simpl; [done |].
      assert (Hin : row ∈ filter (λ row, Some (db_id row) = d ∧ db_user_id row = userId)
                            (discovered_databases w)) by (rewrite Hf; by left).
      apply list_elem_of_filter in Hin as [Hown Hin].
      by destruct (Hnone row Hin). }
    split; [done |].
    intros Hauth Hk Hc Hcl.
    rewrite (serve_authenticated _ _ _ _ _ _ Hauth). unfold catch.
    rewrite (answer_miss _ _ _ _ _ _ _ _ Hk Hc).
    fold q d. destruct (classifyQuery toLowerCase q); simpl.
    + by rewrite Hsql.
    + done.
    + by rewrite processHybridQuery_run, Hsql.
Qed.

Lemma database_lookup_is_scoped_witness :
  run example_env count_request foreign_database_world
  = (RespError DatabaseNotFound, foreign_database_world).
Proof.
  apply (database_lookup_is_scoped asciiToLowerCase unit_cosine_distance
           example_env count_request alice
           (js "SG93IG1hbnkgZW1wbG95ZWVzIGRvIHdl") foreign_database_world).
  - done.
  - right. intros row Hin [_ Hu].
    apply list_elem_of_singleton in Hin. subst row. by vm_compute in Hu.
  - split; [reflexivity |]. exists (js "Bearer token-alice"). by vm_compute.
  - by vm_compute.
  - by vm_compute.
  - by vm_compute.
Defined.

(** ** Classification and synthesis together *)

Lemma contains_trans (a b c : jsstring) : contains a b → contains b c → contains a c.
Proof.
  intros (p1 & q1 & ->) (p2 & q2 & ->). exists (p1 ++ p2), (q2 ++ q1).
  by rewrite <- !(assoc_L (++)).
Qed.

Lemma mentions_mono kws (s t : jsstring) : contains t s → mentions kws s → mentions kws t.
Proof.
  intros Hc (k & Hk & Hs). exists k. split; [done |]. by apply (contains_trans t s k).
Qed.

Lemma asciiToLowerCase_contains (s t : jsstring) :
  contains s t → contains (asciiToLowerCase s) (asciiToLowerCase t).
Proof.
  intros (pre & post & ->). exists (asciiToLowerCase pre), (asciiToLowerCase post).
  unfold asciiToLowerCase. by rewrite !fmap_app.
Qed.

Lemma classifyQuery_Hybrid toLowerCase query :
  classifyQuery toLowerCase query = Hybrid ↔
  mentions sqlKeywords (toLowerCase query) ∧ mentions docKeywords (toLowerCase query).
Proof.
  rewrite <- !some_includes_spec. unfold classifyQuery.
  destruct (some _ sqlKeywords), (some _ docKeywords); simpl; intuition congruence.
Qed.

Lemma classifyQuery_SQL toLowerCase query :
  classifyQuery toLowerCase query = SQL ↔ ¬ mentions docKeywords (toLowerCase query).
Proof.
  rewrite <- some_includes_spec. unfold classifyQuery.
  destruct (some _ sqlKeywords), (some _ docKeywords); simpl; intuition congruence.
Qed.

Lemma classifyQuery_Document toLowerCase query :
  classifyQuery toLowerCase query = Document ↔
  ¬ mentions sqlKeywords (toLowerCase query) ∧ mentions docKeywords (toLowerCase query).
Proof.
  rewrite <- !some_includes_spec. unfold classifyQuery.
  destruct (some _ sqlKeywords), (some _ docKeywords); simpl; intuition congruence.
Qed.

(** X8.  Classification only moves towards hybrid as a question grows: when
    the lowercased text of a question occurs in the lowercased text of a
    longer one, a hybrid question stays hybrid, a question that reached
    the document search (document or hybrid) still reaches it, a question
    with a structural keyword never becomes document-only, and a longer
    question classified sql had only sql parts. *)
Theorem classifyQuery_monotone :
  ∀ (toLowerCase : jsstring → jsstring) (query longer : jsstring),
    contains (toLowerCase longer) (toLowerCase query) →
    (classifyQuery toLowerCase query = Hybrid →
       classifyQuery toLowerCase longer = Hybrid) ∧
    (classifyQuery toLowerCase query ≠ SQL →
       classifyQuery toLowerCase longer ≠ SQL) ∧
    (mentions sqlKeywords (toLowerCase query) →
       classifyQuery toLowerCase longer ≠ Document) ∧
    (classifyQuery toLowerCase longer = SQL →
       classifyQuery toLowerCase query = SQL).
Proof.
  intros toLowerCase query longer Hc. split_and!.
  - rewrite !classifyQuery_Hybrid. intros [Hs Hd].
    split; by eapply mentions_mono.
  - rewrite !classifyQuery_SQL. intros Hq Hl. apply Hq. intros Hd.
    apply Hl. by eapply mentions_mono.
  - rewrite classifyQuery_Document. intros Hs [Hn _]. apply Hn.
    by eapply mentions_mono.
  - rewrite !classifyQuery_SQL. intros Hl Hd. apply Hl. by eapply mentions_mono.
Qed.

Lemma classifyQuery_monotone_witness :
  classifyQuery asciiToLowerCase
    (js "Who has Python skills and SALARY above 100k?") = Hybrid.
Proof.
  apply (classifyQuery_monotone asciiToLowerCase
           (js "Python skills and SALARY")
           (js "Who has Python skills and SALARY above 100k?")).
  - apply asciiToLowerCase_contains.
    by exists (js "Who has "), (js " above 100k?").
  - by vm_compute.
Defined.

Lemma mentions_sql_phrase (s : jsstring) (phrase keyword : string) :
  includes s (js phrase) = true →
  js keyword ∈ sqlKeywords →
  contains (js phrase) (js keyword) →
  mentions sqlKeywords s.
Proof.
  intros Hs Hk Hc. exists (js keyword). split; [done |].
  apply includes_spec in Hs. by apply (contains_trans s (js phrase)).
Qed.

(** X9.  Four of the statement templates are always reachable through the
    handler's routing: a question for which [generateSQL] picks the count,
    the average-salary, the average-by-department or the top-by-department
    statement is never classified document-only, since its phrase holds a
    structural keyword.  The other two templates can be shadowed: there are
    questions for which [generateSQL] would pick the highest-paid or the
    hired-this-year statement and which are classified document-only, so
    the relational path never runs for them. *)
Theorem templates_and_routing :
  (∀ (toLowerCase : jsstring → jsstring) (query : jsstring) (schema : Schema),
     generateSQL toLowerCase query schema
       ∈ [sql_count; sql_avg; sql_avg_by_dept; sql_top_by_dept] →
     classifyQuery toLowerCase query ≠ Document) ∧
  (∀ schema : Schema,
     ∃ query, generateSQL asciiToLowerCase query schema = sql_top ∧
              classifyQuery asciiToLowerCase query = Document) ∧
  (∀ schema : Schema,
     ∃ query, generateSQL asciiToLowerCase query schema = sql_hired_this_year ∧
              classifyQuery asciiToLowerCase query = Document).
Proof.
  split_and!.
  - intros toLowerCase query schema Hin.
    rewrite classifyQuery_Document. intros [Hn _]. apply Hn. clear Hn.
    unfold generateSQL in Hin.
    destruct (includes (toLowerCase query) (js "how many employees")) eqn:H1.
    { apply (mentions_sql_phrase _ "how many employees" "employees" H1).
      - apply (list_elem_of_lookup_2 _ 7). reflexivity.
      - by exists (js "how many "), []. }
    destruct (includes (toLowerCase query) (js "average salary")) eqn:H2.
    { apply (mentions_sql_phrase _ "average salary" "average" H2).
      - apply (list_elem_of_lookup_2 _ 1). reflexivity.
      - by exists [], (js " salary"). }
    destruct (includes (toLowerCase query) (js "highest paid")) eqn:H3.
    { destruct (includes (toLowerCase query) (js "each department")) eqn:H4.
      - apply (mentions_sql_phrase _ "each department" "department" H4).
        + apply (list_elem_of_lookup_2 _ 6). reflexivity.
        + by exists (js "each "), [].
      - exfalso. revert Hin. clear. rewrite !elem_of_cons, elem_of_nil.
        intros [H | [H | [H | [H | []]]]]; by vm_compute in H. }
    exfalso. revert Hin. clear.
    destruct (includes _ _); rewrite !elem_of_cons, elem_of_nil;
      intros [H | [H | [H | [H | []]]]]; by vm_compute in H.
  - intros schema. by exists (js "Highest paid Python developers").
  - intros schema. by exists (js "Java programmers hired this year").
Qed.

Lemma templates_and_routing_witness :
  generateSQL asciiToLowerCase
    (js "What is the average salary of Java developers?") {| tables := [] |}
  = sql_avg ∧
  classifyQuery asciiToLowerCase
    (js "What is the average salary of Java developers?") ≠ Document.
Proof.
  split; [by vm_compute |].
  apply (proj1 templates_and_routing asciiToLowerCase
           (js "What is the average salary of Java developers?")
           {| tables := [] |}).
  apply (list_elem_of_lookup_2 _ 1). reflexivity.
Defined.

(** ** The scope of the document search *)

Lemma selected_Some dist resolution qe threshold user_id row x :
  selected dist resolution qe threshold user_id row = Some x →
  ∃ e, embedding row.1 = Some e ∧ x = (dist e qe, row) ∧
       (threshold < 1 - dist e qe)%Q ∧
       owner_test resolution user_id row.2 = true.
Proof.
  destruct row as [dc d]. unfold selected. simpl.
  destruct (embedding dc) as [e|]; [| done].
  destruct (owner_test resolution user_id d); simpl; [| done].
  destruct (Qle_bool _ _) eqn:Hle; simpl; [done |].
  intros [= <-]. exists e. split_and!; try done.
  apply Qnot_le_lt. intros Hq. apply Qle_bool_iff in Hq. congruence.
Qed.

Lemma matching_rows_scope dist resolution w qe threshold n user_id m :
  m ∈ matching_rows dist resolution w qe threshold n user_id →
  ∃ dc d e, dc ∈ document_chunks w ∧ d ∈ documents w ∧
            document_id dc = d_id d ∧ embedding dc = Some e ∧
            (threshold < 1 - dist e qe)%Q ∧
            owner_test resolution user_id d = true ∧
            m = project (dist e qe, (dc, d)).
Proof.
  unfold matching_rows. intros Hm.
  apply list_elem_of_fmap in Hm as [x [-> Hin]].
  apply elem_of_take in Hin as (i & Hi & _).
  apply list_elem_of_lookup_2 in Hi.
  rewrite merge_sort_Permutation in Hi.
  unfold candidates in Hi. apply list_elem_of_omap in Hi as [[dc d] [Hj Hsel]].
  apply joined_spec in Hj as (Hdc & Hd & Heq).
  apply selected_Some in Hsel as (e & He & -> & Hlt & Hown).
  by exists dc, d, e.
Qed.

Lemma matching_rows_at_most dist resolution w qe threshold n user_id :
  length (matching_rows dist resolution w qe threshold n user_id) ≤ n.
Proof. unfold matching_rows. rewrite length_fmap, length_take. lia. Qed.

(** X10.  What the document path can return.  Every document result is
    built from a stored chunk with an embedding, joined to its document,
    whose similarity to the query embedding is strictly above 0.7, and
    there are at most ten.  The chunk belongs to a document of the caller
    only as long as the unqualified [user_id] of [match_documents] is not
    read as the column: read as the column, the owner test holds of every
    row, and a chunk of another user's document is returned. *)
Theorem document_results_scope :
  (∀ (cosine_distance : vector → vector → Q) (env : Env) (query userId : jsstring)
     (w w' : World) (r : QueryResult),
     processDocumentQuery cosine_distance env query userId w = (Ok r, w') →
     ∃ docs, documentResults r = Some docs ∧ length docs ≤ 10 ∧
       ∀ doc, doc ∈ docs →
         ∃ dc d e, dc ∈ document_chunks w ∧ d ∈ documents w ∧
                   document_id dc = d_id d ∧ embedding dc = Some e ∧
                   (7 # 10 < similarity doc)%Q ∧
                   doc = toDocumentResult
                           (project (cosine_distance e (generateEmbedding env query),
                                     (dc, d))) ∧
                   (variable_conflict env ≠ UseColumn → d_user_id d = Some userId)) ∧
  (∃ (env : Env) (query : jsstring) (r : QueryResult) (doc : DocumentResult),
     variable_conflict env = UseColumn ∧
     processDocumentQuery unit_cosine_distance env query alice example_world
     = (Ok r, example_world) ∧
     doc ∈ default [] (documentResults r) ∧ document doc = js "bob.pdf").
Proof.
  split.
  - intros cosine_distance env query userId w w' r.
    unfold processDocumentQuery, bind, call, ret.
    destruct (reply env OpMatchDocuments); simpl; [| | done].
    + intros [= <- <-]. simpl.
      destruct (variable_conflict env) eqn:Hres; simpl.
      * exists []. split_and!; [done | simpl; lia |]. by intros doc ?%elem_of_nil.
      * eexists. split_and!; [done | |].
        { rewrite length_fmap. apply matching_rows_at_most. }
        intros doc Hdoc. apply list_elem_of_fmap in Hdoc as [m [-> Hm]].
        apply matching_rows_scope in Hm as (dc & d & e & ? & ? & ? & ? & ? & Hown & ->).
        exists dc, d, e. split_and!; try done.
        intros _. simpl in Hown. by apply bool_decide_eq_true in Hown.
      * eexists. split_and!; [done | |].
        { rewrite length_fmap. apply matching_rows_at_most. }
        intros doc Hdoc. apply list_elem_of_fmap in Hdoc as [m [-> Hm]].
        apply matching_rows_scope in Hm as (dc & d & e & ? & ? & ? & ? & ? & Hown & ->).
        exists dc, d, e. split_and!; done.
    + intros [= <- <-]. simpl.
      exists []. split_and!; [done | simpl; lia |]. by intros doc ?%elem_of_nil.
  - exists {| reply := reply example_env;
              variable_conflict := UseColumn;
              getUser := getUser example_env;
              t_start := t_start example_env;
              t_lookup := t_lookup example_env;
                       t_respond := t_respond example_env;
              t_store := t_store example_env;
              random_embedding := random_embedding example_env |},
           (js "Who has Python skills?").
    eexists. eexists. split_and!.
    + done.
    + by vm_compute.
    + simpl. apply (list_elem_of_lookup_2 _ 0). by vm_compute.
    + by vm_compute.
Qed.

Lemma document_results_scope_witness :
  ∃ docs, documentResults
            {| queryType := Document; sqlResults := None;
               documentResults :=
                 Some (toDocumentResult <$>
                         matching_rows unit_cosine_distance UseVariable example_world
                           [1; 0]%Q (7 # 10) 10 (Some alice));
               generatedSQL := None;
               performanceMetrics :=
                 {| responseTime := 0; cacheHit := false; resultsCount := 2 |};
               sources := [js "jane.pdf"; js "jane.pdf"] |} = Some docs ∧
          length docs ≤ 10 ∧
          ∀ doc, doc ∈ docs →
            ∃ dc d e, dc ∈ document_chunks example_world ∧
                      d ∈ documents example_world ∧
                      document_id dc = d_id d ∧ embedding dc = Some e ∧
                      (7 # 10 < similarity doc)%Q ∧
                      doc = toDocumentResult
                              (project (unit_cosine_distance e
                                          (generateEmbedding tuned_env
                                             (js "Who has Python skills?")),
                                        (dc, d))) ∧
                      (variable_conflict tuned_env ≠ UseColumn →
                       d_user_id d = Some alice).
Proof.
  exact (proj1 document_results_scope unit_cosine_distance tuned_env
           (js "Who has Python skills?") alice example_world example_world _
           eq_refl).
Defined.

(** * The document processor *)

Section Splitting.
Import DocumentProcessor.

Lemma split_cons_inv sep s : ∃ piece pieces, split sep s = piece :: pieces.
Proof.
  destruct s as [|c s]; simpl; [by eexists _, _ |].
  destruct (c =? sep)%N; [by eexists _, _ |].
  destruct (split sep s); by eexists _, _.
Qed.

Lemma split_length sep s : 0 < length (split sep s).
Proof. destruct (split_cons_inv sep s) as (p & ps & ->). simpl. lia. Qed.

Lemma split_without sep s : sep ∉ s → split sep s = [s].
Proof.
  induction s as [|c s IH]; [done |].
  intros Hn. apply not_elem_of_cons in Hn as [Hc Hs]. simpl.
  destruct (N.eqb_spec c sep) as [-> | _]; [done |].
  by rewrite (IH Hs).
Qed.

Lemma split_app sep a b :
  split sep (a ++ sep :: b) = split sep a ++ split sep b.
Proof.
  induction a as [|c a IH]; simpl.
  - by rewrite N.eqb_refl.
  - destruct (split_cons_inv sep a) as (p & ps & Ha). rewrite Ha in IH.
    destruct (N.eqb_spec c sep) as [-> | _].
    + by rewrite IH, Ha.
    + by rewrite IH, Ha.
Qed.

Lemma split_last sep a b : last (split sep (a ++ sep :: b)) = last (split sep b).
Proof.
  rewrite split_app.
  destruct (split_cons_inv sep b) as (q & qs & ->).
  rewrite last_app. destruct (last (q :: qs)) eqn:Hl; [done |].
  by apply last_None in Hl.
Qed.

Lemma split_pieces sep s : Forall (λ piece, sep ∉ piece) (split sep s).
Proof.
  induction s as [|c s IH]; simpl.
  - constructor; [apply not_elem_of_nil | constructor].
  - destruct (split_cons_inv sep s) as (p & ps & Hs). rewrite Hs in *.
    apply Forall_cons in IH as [Hp Hps].
    destruct (N.eqb_spec c sep) as [-> | Hne]; simpl.
    + repeat constructor; [apply not_elem_of_nil | done | done].
    + constructor; [| done]. apply not_elem_of_cons. by split.
Qed.

Lemma join_split sep s : join [sep] (split sep s) = s.
Proof.
  induction s as [|c s IH]; [done |]. simpl.
  destruct (split_cons_inv sep s) as (p & ps & Hs). rewrite Hs in *.
  destruct (N.eqb_spec c sep) as [-> | _]; simpl.
  - by rewrite <- IH.
  - rewrite <- IH. simpl. by destruct ps.
Qed.

End Splitting.

(** X11.  The file type is the text after the last dot of the lowercased
    name: it is never empty and holds no dot; a name without a dot is its
    own file type (in lower case), and a name that is empty or ends in a
    dot has the type [unknown]. *)
Theorem getFileType_extension :
  ∀ (toLowerCase : jsstring → jsstring) (filename : jsstring),
    let lowered := toLowerCase filename in
    let fileType := DocumentProcessor.getFileType toLowerCase filename in
    fileType ≠ [] ∧ (46%N ∉ fileType) ∧
    (∀ base extension,
       lowered = base ++ 46%N :: extension → (46%N ∉ extension) →
       extension ≠ [] → fileType = extension) ∧
    ((46%N ∉ lowered) → lowered ≠ [] → fileType = lowered) ∧
    (lowered = [] ∨ (∃ base, lowered = base ++ [46%N]) →
       fileType = js "unknown").
Proof.
  intros toLowerCase filename lowered fileType.
  unfold fileType, DocumentProcessor.getFileType. fold lowered. split_and!.
  - by destruct (last _) as [[|c e]|].
  - assert (Hu : 46%N ∉ js "unknown").
    { intros H. vm_compute in H.
      repeat (apply elem_of_cons in H as [H | H]; [done |]).
      by apply elem_of_nil in H. }
    destruct (last _) as [[|c e]|] eqn:Hl; [done | | done].
    apply last_Some_elem_of in Hl.
    pose proof (split_pieces 46 lowered) as Hp.
    rewrite Forall_forall in Hp. by apply Hp.
  - intros base extension -> Hn Hne.
    rewrite split_last, (split_without _ _ Hn). simpl.
    by destruct extension.
  - intros Hn Hne. rewrite (split_without _ _ Hn). simpl. by destruct lowered.
  - intros [-> | [base ->]]; [done |]. by rewrite split_last.
Qed.

Section DataRows.
Import DocumentProcessor.

Variable lines : list jsstring.
Variable headers : jsstring.

Lemma rowLoop_groups turns i :
  length lines - i ≤ turns →
  ∃ groups : list (list jsstring),
    concat groups = drop i lines ∧
    length (rowLoop turns lines headers i) = length groups ∧
    ∀ k g, groups !! k = Some g →
      1 ≤ length g ≤ 10 ∧
      (S k < length groups → length g = 10) ∧
      rowLoop turns lines headers i !! k
      = Some {| text := headers ++ [LF] ++ join [LF] g;
                index := (i + 10 * k) / 10;
                chunk_metadata := DataRows (i + 10 * k) (i + 10 * k + length g - 1) |}.
Proof.
  revert i. induction turns as [|turns IH]; intros i Hi.
  - exists []. simpl. split_and!; [| done | done].
    rewrite drop_ge; [done | lia].
  - cbn [rowLoop]. destruct (Nat.ltb_spec i (length lines)) as [Hlt | Hge].
    + destruct (IH (i + 10)) as (groups & Hcat & Hlen & Hk); [lia |].
      exists (take 10 (drop i lines) :: groups). split_and!.
      * simpl. rewrite Hcat, <- (drop_drop lines 10 i).
        apply take_drop.
      * simpl. by rewrite Hlen.
      * assert (Hg0 : length (take 10 (drop i lines)) = 10 `min` (length lines - i)).
        { by rewrite length_take, length_drop. }
        intros [|k] g Hg.
        -- simpl in Hg. injection Hg as <-. split_and!; [lia | lia | |].
           ++ intros Hmore. destruct groups as [|g1 groups]; [simpl in Hmore; lia |].
              destruct (Hk 0 g1 eq_refl) as ([Hg1 _] & _).
              assert (Hd : length (drop (i + 10) lines) ≠ 0).
              { rewrite <- Hcat. simpl. rewrite length_app. lia. }
              rewrite length_drop in Hd. lia.
           ++ rewrite Nat.mul_0_r, Nat.add_0_r.
              transitivity (Some (rowChunk lines headers i)); [reflexivity |].
              unfold rowChunk, slice.
              replace (i + 10 - i) with 10 by lia.
              rewrite Hg0. do 3 f_equal. lia.
        -- simpl in Hg. destruct (Hk k g Hg) as (Hgl & Hfull & Hchunk).
           split_and!; [lia | lia | simpl; intros ?; apply Hfull; lia |].
           transitivity (rowLoop turns lines headers (i + 10) !! k); [reflexivity |].
           rewrite Hchunk.
           by replace (i + 10 + 10 * k) with (i + 10 * S k) by lia.
    + exists []. split_and!; [| done | done].
      rewrite drop_ge; [done | lia].
Qed.

End DataRows.

(** X12.  [chunkByDataRows] cuts the lines after the first into groups of
    ten, in order and without loss: every line is in exactly one group,
    every group but the last has ten lines and the last between one and
    ten; chunk [k] is the first line, a line feed and the lines of group
    [k], it has index [k] and records the first and last line number of
    its group; the first line and the groups joined by line feeds are the
    content again; a content of one line gives no chunk. *)
Theorem chunkByDataRows_partition :
  ∀ content : jsstring,
    let LF := DocumentProcessor.LF in
    let lines := DocumentProcessor.split LF content in
    let headers := hd [] lines in
    let chunks := DocumentProcessor.chunkByDataRows content in
    (∃ groups : list (list jsstring),
       concat groups = drop 1 lines ∧
       length chunks = length groups ∧
       DocumentProcessor.join [LF] (headers :: concat groups) = content ∧
       ∀ k g, groups !! k = Some g →
         1 ≤ length g ≤ 10 ∧
         (S k < length groups → length g = 10) ∧
         chunks !! k
         = Some {| DocumentProcessor.text :=
                     headers ++ [LF] ++ DocumentProcessor.join [LF] g;
                   DocumentProcessor.index := k;
                   DocumentProcessor.chunk_metadata :=
                     DocumentProcessor.DataRows (10 * k + 1) (10 * k + length g) |}) ∧
    ((LF ∉ content) → chunks = []).
Proof.
  intros content LF lines headers chunks. split.
  - destruct (rowLoop_groups lines headers (length lines) 1) as (groups & Hcat & Hlen & Hk);
      [lia |].
    exists groups. split_and!; try done.
    + rewrite Hcat. unfold headers, lines.
      destruct (split_cons_inv LF content) as (p & ps & Hs).
      rewrite Hs. cbn [hd drop]. rewrite drop_0, <- Hs. apply join_split.
    + intros k g Hg. destruct (Hk k g Hg) as (Hgl & Hfull & Hchunk).
      split_and!; [lia | lia | done |].
      unfold chunks, DocumentProcessor.chunkByDataRows. fold LF lines headers.
      rewrite Hchunk. do 2 f_equal.
      * replace (1 + 10 * k) with (k * 10 + 1) by lia.
        rewrite Nat.div_add_l by lia. simpl. lia.
      * f_equal; lia.
  - intros Hn. unfold chunks, DocumentProcessor.chunkByDataRows. subst LF.
    by rewrite (split_without _ _ Hn).
Qed.

Lemma chunkByDataRows_partition_witness :
  DocumentProcessor.chunkByDataRows (js "name,salary") = [].
Proof.
  apply (chunkByDataRows_partition (js "name,salary")).
  intros H. vm_compute in H.
  repeat (apply elem_of_cons in H as [H | H]; [done |]).
  by apply elem_of_nil in H.
Defined.

Section Trimming.
Import DocumentProcessor.

Lemma trimStart_drop s :
  ∃ k, trimStart s = drop k s ∧ Forall (λ c, isWhiteSpace c = true) (take k s).
Proof.
  induction s as [|c s (k & Hk & Hws)]; [by exists 0 |]. simpl.
  destruct (isWhiteSpace c) eqn:Hc.
  - exists (S k). split; [done |]. by constructor.
  - by exists 0.
Qed.

Lemma trimStart_head s c : head (trimStart s) = Some c → isWhiteSpace c = false.
Proof.
  induction s as [|a s IH]; [done |]. simpl.
  destruct (isWhiteSpace a) eqn:Ha; [done |]. by intros [= <-].
Qed.

Lemma visible_white s : Forall (λ c, isWhiteSpace c = true) s → visible s = [].
Proof.
  unfold visible. induction 1 as [|c s Hc _ IH]; [done |].
  rewrite filter_cons_False; [done | congruence].
Qed.

Lemma visible_nil s : visible s = [] → Forall (λ c, isWhiteSpace c = true) s.
Proof.
  unfold visible. induction s as [|c s IH]; [constructor |].
  rewrite filter_cons. destruct (decide _) as [Hc | Hc]; [done |].
  intros Hs. constructor; [| by apply IH]. by destruct (isWhiteSpace c).
Qed.

Lemma visible_app s t : visible (s ++ t) = visible s ++ visible t.
Proof. apply filter_app. Qed.

Lemma trimStart_visible s : visible (trimStart s) = visible s.
Proof.
  destruct (trimStart_drop s) as (k & -> & Hws).
  rewrite <- (take_drop k s) at 2. by rewrite visible_app, (visible_white _ Hws).
Qed.

Lemma trimEnd_visible s : visible (trimEnd s) = visible s.
Proof.
  unfold trimEnd, visible. rewrite filter_reverse.
  fold (visible (trimStart (reverse s))). rewrite trimStart_visible.
  unfold visible. by rewrite filter_reverse, reverse_involutive.
Qed.

Lemma trim_visible s : visible (trim s) = visible s.
Proof. unfold trim. by rewrite trimEnd_visible, trimStart_visible. Qed.

Lemma trimStart_length s : length (trimStart s) ≤ length s.
Proof.
  destruct (trimStart_drop s) as (k & -> & _). rewrite length_drop. lia.
Qed.

Lemma trimEnd_take s : ∃ j, trimEnd s = take j s.
Proof.
  unfold trimEnd. destruct (trimStart_drop (reverse s)) as (k & -> & _).
  exists (length s - k). by rewrite drop_reverse, reverse_involutive.
Qed.

Lemma trim_length s : length (trim s) ≤ length s.
Proof.
  unfold trim. destruct (trimEnd_take (trimStart s)) as (j & ->).
  pose proof (trimStart_length s). rewrite length_take. lia.
Qed.

Lemma trim_trimmed s : trimmed (trim s).
Proof.
  intros c [Hh | Hl].
  - unfold trim in Hh. destruct (trimEnd_take (trimStart s)) as (j & Hj).
    rewrite Hj in Hh. apply (trimStart_head s).
    destruct j; [done |]. by destruct (trimStart s).
  - unfold trim, trimEnd in Hl. rewrite last_reverse in Hl.
    by apply trimStart_head in Hl.
Qed.

Lemma trim_white s : Forall (λ c, isWhiteSpace c = true) s → trim s = [].
Proof.
  intros Hws. apply visible_white in Hws. rewrite <- trim_visible in Hws.
  apply visible_nil in Hws. pose proof (trim_trimmed s) as Ht.
  destruct (trim s) as [|c t]; [done |].
  apply Forall_cons in Hws as [Hc _]. rewrite (Ht c) in Hc; [done | by left].
Qed.

End Trimming.

Section RegExpSplit.
Import DocumentProcessor.

Local Abbreviation white := (λ c, isWhiteSpace c = true).

Lemma run_take p s : Forall (λ c, p c = true) (take (run p s) s).
Proof.
  induction s as [|c s IH]; [constructor |]. simpl.
  destruct (p c) eqn:Hc; [| constructor]. by constructor.
Qed.

Lemma afterLastLF_length s n : afterLastLF s = Some n → n ≤ length s.
Proof.
  revert n. induction s as [|c s IH]; [done |]. simpl. intros n.
  destruct (afterLastLF s) as [k|].
  - intros [= <-]. specialize (IH k eq_refl). lia.
  - destruct (c =? LF)%N; [| done]. intros [= <-]. lia.
Qed.

Lemma blankLines_blank : blank blankLines.
Proof.
  intros s n. unfold blankLines.
  destruct s as [|a [|b rest]]; [done | done |].
  destruct (N.eqb_spec a LF) as [-> |]; [| done].
  destruct (N.eqb_spec b LF) as [-> |]; [| done]. simpl.
  intros [= <-]. simpl. do 2 (constructor; [done |]).
  eapply Forall_impl; [apply run_take |].
  simpl. by intros c ->%N.eqb_eq.
Qed.

Lemma blankGap_blank : blank blankGap.
Proof.
  intros s n. unfold blankGap.
  destruct s as [|a rest]; [done |].
  destruct (N.eqb_spec a LF) as [-> |]; [| done].
  destruct (afterLastLF _) as [j|] eqn:Hj; [| done].
  intros [= <-]. simpl. constructor; [done |].
  apply afterLastLF_length in Hj. rewrite length_take in Hj.
  replace (take j rest) with (take j (take (run isWhiteSpace rest) rest)).
  - apply Forall_take, run_take.
  - rewrite take_take. f_equal. lia.
Qed.

Lemma visible_cons c s : visible (c :: s) = visible [c] ++ visible s.
Proof. apply (visible_app [c] s). Qed.

Lemma splitLoop_visible m skip cur s :
  blank m → Forall white (take skip s) →
  visible (concat (splitLoop m skip cur s)) = visible cur ++ visible (drop skip s).
Proof.
  intros Hm. revert skip cur.
  induction s as [|c s IH]; intros skip cur Hskip.
  - cbn [splitLoop concat]. rewrite drop_nil, app_nil_r.
    change (visible []) with (@nil N). by rewrite app_nil_r.
  - destruct skip as [|k].
    + cbn [splitLoop]. rewrite drop_0, (visible_cons c s).
      destruct (m (c :: s)) as [[|k]|] eqn:Hmatch.
      * destruct cur as [|a cur].
        -- rewrite IH by constructor. by rewrite drop_0.
        -- cbn [concat]. rewrite visible_app, IH by constructor.
           by rewrite drop_0.
      * apply Hm in Hmatch. cbn [take] in Hmatch.
        apply Forall_cons in Hmatch as [Hc Hk].
        cbn [concat]. rewrite visible_app, (IH k [] Hk).
        rewrite <- (take_drop k s) at 2.
        rewrite visible_app, (visible_white (take k s) Hk).
        rewrite (visible_white [c]) by (by constructor). done.
      * rewrite IH by constructor. rewrite drop_0, visible_app.
        by rewrite <- (assoc_L (++)).
    + cbn [splitLoop drop]. cbn [take] in Hskip.
      apply Forall_cons in Hskip as [_ Hk]. by apply IH.
Qed.

Lemma splitRegExp_visible m s :
  blank m → visible (concat (splitRegExp m s)) = visible s.
Proof.
  intros Hm. destruct s as [|c s].
  - simpl. by destruct (m []).
  - unfold splitRegExp. by rewrite (splitLoop_visible m 0 [] (c :: s) Hm).
Qed.

End RegExpSplit.

Section Grouping.
Import DocumentProcessor.

Variable limit : nat.
Variable kind : ChunkMetadata.

Lemma foldl_invariant {A B} (P : list B → A → Prop) (f : A → B → A) :
  (∀ seen a b, P seen a → P (seen ++ [b]) (f a b)) →
  ∀ l seen a, P seen a → P (seen ++ l) (foldl f a l).
Proof.
  intros Hstep. induction l as [|b l IH]; intros seen a Ha.
  - by rewrite app_nil_r.
  - simpl. rewrite (cons_middle b seen l), (assoc_L (++)).
    apply IH, Hstep, Ha.
Qed.

Local Abbreviation wellformed := (wellformed limit kind).

Lemma grouped_mono seen b chunks :
  grouped limit kind seen chunks → grouped limit kind (seen ++ [b]) chunks.
Proof.
  intros [Hidx Hall]. split; [done |].
  intros c Hc. destruct (Hall c Hc) as (? & ? & ? & [Hle | (sec & Hsec & Ht)]).
  - split_and!; try done. by left.
  - split_and!; try done. right. exists sec. split; [| done].
    apply elem_of_app. by left.
Qed.

Lemma pushTrimmed_wellformed seen chunks cur :
  grouped limit kind seen chunks →
  length cur ≤ limit + 2 ∨ cur ∈ seen →
  let st := pushTrimmed kind cur (chunks, length chunks) in
  st.2 = length st.1 ∧ grouped limit kind seen st.1.
Proof.
  intros [Hidx Hall] Hcur. unfold pushTrimmed.
  pose proof (trim_trimmed cur) as Ht. pose proof (trim_length cur) as Hl.
  destruct (trim cur) as [|a t] eqn:Htrim; simpl; [done |].
  split; [rewrite length_app; simpl; lia |]. split.
  - rewrite fmap_app, length_app, Hidx. simpl.
    by rewrite Nat.add_1_r, seq_S.
  - intros c Hc. apply elem_of_app in Hc as [Hc | Hc]; [by apply Hall |].
    apply list_elem_of_singleton in Hc as ->. simpl. split_and!; try done.
    destruct Hcur as [Hle | Hin].
    + left. simpl in Hl. lia.
    + right. by exists cur.
Qed.

Lemma turn_wellformed seen st section :
  wellformed seen st → wellformed (seen ++ [section]) (turn limit kind st section).
Proof.
  destruct st as [[chunks idx] cur]. intros (Hidx & Hg & Hcur). simpl in *.
  subst idx. unfold turn.
  destruct (Nat.ltb_spec limit (length cur + length section)) as [Hlt | Hle].
  - destruct (pushTrimmed_wellformed seen chunks cur Hg Hcur) as [Hi Hg'].
    split_and!; simpl.
    + done.
    + by apply grouped_mono.
    + right. apply elem_of_app. right. by apply list_elem_of_singleton.
  - split_and!; simpl.
    + done.
    + by apply grouped_mono.
    + left. rewrite !length_app. destruct cur; simpl in *; lia.
Qed.

Lemma groupSections_grouped sections :
  grouped limit kind sections (groupSections limit kind sections).
Proof.
  unfold groupSections.
  assert (H0 : wellformed [] ([], 0, [])).
  { split_and!; simpl; [done | | left; lia].
    split; [done |]. by intros c ?%elem_of_nil. }
  pose proof (foldl_invariant wellformed (turn limit kind) turn_wellformed
                sections [] _ H0) as H.
  simpl in H. destruct (foldl _ _ sections) as [[chunks idx] cur].
  destruct H as (Hidx & Hg & Hcur). simpl in *. subst idx.
  by apply pushTrimmed_wellformed.
Qed.

Lemma pushTrimmed_visible cur st :
  visible (concat (text <$> (pushTrimmed kind cur st).1))
  = visible (concat (text <$> st.1) ++ cur).
Proof.
  unfold pushTrimmed. rewrite visible_app, <- (trim_visible cur).
  destruct (trim cur) as [|a t]; simpl.
  - by rewrite app_nil_r.
  - by rewrite fmap_app, concat_app, visible_app; simpl; rewrite app_nil_r.
Qed.

Lemma turn_kept seen st section :
  kept seen st → kept (seen ++ [section]) (turn limit kind st section).
Proof.
  destruct st as [pushed cur]. unfold kept. cbn [fst snd]. intros Hk.
  rewrite concat_app, (visible_app (concat seen)), <- Hk.
  cbn [concat]. rewrite app_nil_r.
  unfold turn. destruct (limit <? _); cbn [fst snd].
  - by rewrite visible_app, pushTrimmed_visible.
  - rewrite !visible_app. rewrite <- !(assoc_L (++)). do 2 f_equal.
    destruct cur; [done |].
    rewrite (visible_white [LF; LF]); [done |]. by repeat constructor.
Qed.

Lemma groupSections_visible sections :
  visible (concat (text <$> groupSections limit kind sections))
  = visible (concat sections).
Proof.
  unfold groupSections.
  pose proof (foldl_invariant kept (turn limit kind) turn_kept
                sections [] ([], 0, []) eq_refl) as H.
  simpl in H. destruct (foldl _ _ sections) as [pushed cur].
  by rewrite pushTrimmed_visible.
Qed.

End Grouping.


(** X14.  Chunking by sections or paragraphs loses nothing but white
    space: the code units of the content that are not white space are
    those of the chunk texts, in the same order; a content of white space
    only (the empty content included) gives no chunk. *)
Theorem section_chunks_keep_text :
  ∀ content : jsstring,
    let semantic := DocumentProcessor.chunkBySemanticSections content in
    let paragraphs := DocumentProcessor.chunkByParagraphs content in
    DocumentProcessor.visible (concat (DocumentProcessor.text <$> semantic))
    = DocumentProcessor.visible content ∧
    DocumentProcessor.visible (concat (DocumentProcessor.text <$> paragraphs))
    = DocumentProcessor.visible content ∧
    (DocumentProcessor.visible content = [] → semantic = [] ∧ paragraphs = []).
Proof.
  intros content semantic paragraphs.
  assert (Hs : DocumentProcessor.visible (concat (DocumentProcessor.text <$> semantic))
               = DocumentProcessor.visible content).
  { unfold semantic, DocumentProcessor.chunkBySemanticSections.
    rewrite groupSections_visible. apply splitRegExp_visible, blankLines_blank. }
  assert (Hp : DocumentProcessor.visible (concat (DocumentProcessor.text <$> paragraphs))
               = DocumentProcessor.visible content).
  { unfold paragraphs, DocumentProcessor.chunkByParagraphs.
    rewrite groupSections_visible. apply splitRegExp_visible, blankGap_blank. }
  split_and!; [done | done |].
  intros Hnone. rewrite Hnone in Hs, Hp.
  assert (Hempty : ∀ limit kind sections chunks,
            DocumentProcessor.grouped limit kind sections chunks →
            DocumentProcessor.visible (concat (DocumentProcessor.text <$> chunks)) = [] →
            chunks = []).
  { intros limit kind sections [|c cs] [_ Hall] Hv; [done |].
    destruct (Hall c) as (Hne & Ht & _); [by left |].
    apply visible_nil in Hv. simpl in Hv.
    destruct (DocumentProcessor.text c) as [|a t]; [done |].
    apply Forall_cons in Hv as [Ha _].
    rewrite (Ht a) in Ha; [done | by left]. }
  split.
  - eapply Hempty; [| exact Hs]. apply groupSections_grouped.
  - eapply Hempty; [| exact Hp]. apply groupSections_grouped.
Qed.

(** ** The upload handler *)

Section Upload.
Import DocumentProcessor.

Variable toLowerCase : jsstring → jsstring.
Variable env : Env.

Local Abbreviation storeChunks := (storeChunks env).
Local Abbreviation processFile := (processFile toLowerCase env).
Local Abbreviation processFiles := (processFiles toLowerCase env).
Local Abbreviation chunksOf := (chunksOf toLowerCase).
Local Abbreviation survives := (survives toLowerCase env).

Lemma storeChunks_outcome i docId k chunks store :
  (storeChunks i docId k chunks store).1 = None ↔
  ∀ j, j < length chunks → reply env (InsertChunk i (k + j)) ≠ Throws.
Proof.
  revert k store. induction chunks as [|chunk rest IH]; intros k store; simpl.
  - split; [intros _ j Hj; lia | done].
  - destruct (reply env (InsertChunk i k)) eqn:Hr.
    + rewrite IH. split.
      * intros H [|j] Hj; [rewrite Nat.add_0_r; congruence |].
        replace (k + S j) with (S k + j) by lia. apply H. lia.
      * intros H j Hj. replace (S k + j) with (k + S j) by lia. apply H. lia.
    + rewrite IH. split.
      * intros H [|j] Hj; [rewrite Nat.add_0_r; congruence |].
        replace (k + S j) with (S k + j) by lia. apply H. lia.
      * intros H j Hj. replace (S k + j) with (k + S j) by lia. apply H. lia.
    + simpl. split; [done |]. intros H. destruct (H 0); [lia |].
      by rewrite Nat.add_0_r.
Qed.

Lemma processFile_survives userId i file store :
  survives i file →
  (processFile userId i file store).1
  = EntryCompleted (document_uuid env i) (name file) (length (chunksOf file)).
Proof.
  intros (Hins & Hupd & Hch). unfold processFile. rewrite Hins.
  fold (chunksOf file).
  assert (Hnone : ∀ store', (storeChunks i (document_uuid env i) 0 (chunksOf file) store').1
                            = None).
  { intros store'. apply storeChunks_outcome. intros j Hj. by apply Hch. }
  destruct (reply env (UpdateDocument i)); [| | done].
  - cbn [id newDocument]. 
    destruct (storeChunks _ _ _ _ _) as [[e|] s] eqn:Hs; [| done].
    specialize (Hnone {| documents :=
                           completed env i (extractTextContent toLowerCase file)
                             (chunksOf file) (document_uuid env i) <$>
                             (documents store ++ [newDocument toLowerCase env userId i file]);
                         document_chunks := document_chunks store |}).
    cbn [documents document_chunks] in Hs. by rewrite Hs in Hnone.
  - cbn [id newDocument].
    destruct (storeChunks _ _ _ _ _) as [[e|] s] eqn:Hs; [| done].
    specialize (Hnone {| documents :=
                           documents store ++ [newDocument toLowerCase env userId i file];
                         document_chunks := document_chunks store |}).
    by rewrite Hs in Hnone.
Qed.

Lemma processFile_fails userId i file store :
  ¬ survives i file →
  ∃ error, (processFile userId i file store).1 = EntryError (name file) error.
Proof.
  intros Hnot. unfold processFile.
  destruct (reply env (InsertDocument i)) eqn:Hins; [| by eexists | by eexists].
  fold (chunksOf file).
  destruct (reply env (UpdateDocument i)) eqn:Hupd; [| | by eexists].
  - destruct (storeChunks _ _ _ _ _) as [[e|] s] eqn:Hs; [by eexists |].
    exfalso. apply Hnot. split_and!; [done | congruence |].
    intros k Hk.
    eapply (proj1 (storeChunks_outcome i _ 0 (chunksOf file) _)) in Hk;
      [exact Hk | by rewrite Hs].
  - destruct (storeChunks _ _ _ _ _) as [[e|] s] eqn:Hs; [by eexists |].
    exfalso. apply Hnot. split_and!; [done | congruence |].
    intros k Hk.
    eapply (proj1 (storeChunks_outcome i _ 0 (chunksOf file) _)) in Hk;
      [exact Hk | by rewrite Hs].
Qed.

Lemma processFiles_length userId i files store :
  length (processFiles userId i files store).1 = length files.
Proof.
  revert i store. induction files as [|file rest IH]; intros i store; [done |].
  simpl. destruct (processFile userId i file store) as [entry store1].
  specialize (IH (S i) store1).
  destruct (processFiles userId (S i) rest store1) as [entries store2].
  simpl in *. by rewrite IH.
Qed.

Lemma processFiles_lookup userId i files store j file :
  files !! j = Some file →
  ∃ store', (processFiles userId i files store).1 !! j
            = Some (processFile userId (i + j) file store').1.
Proof.
  revert i store j. induction files as [|f rest IH]; intros i store j Hj; [done |].
  simpl. destruct (processFile userId i f store) as [entry store1] eqn:Hf.
  destruct j as [|j]; simpl in Hj.
  - injection Hj as ->. exists store.
    destruct (processFiles userId (S i) rest store1) as [entries store2].
    rewrite Nat.add_0_r, Hf. done.
  - destruct (IH (S i) store1 j Hj) as (store' & Hl). exists store'.
    destruct (processFiles userId (S i) rest store1) as [entries store2].
    simpl in *. rewrite Hl. by replace (i + S j) with (S i + j) by lia.
Qed.

Lemma storeChunks_accepted i docId k chunks store :
  storeChunks i docId k chunks store
  = ((acceptedChunks env i docId k chunks).1,
     {| documents := documents store;
        document_chunks :=
          document_chunks store ++ (acceptedChunks env i docId k chunks).2 |}).
Proof.
  revert k store. induction chunks as [|chunk rest IH]; intros k store; simpl.
  - rewrite app_nil_r. by destruct store.
  - destruct (reply env (InsertChunk i k)).
    + rewrite IH. cbn [documents document_chunks].
      destruct (acceptedChunks env i docId (S k) rest) as [error rows]. simpl.
      by rewrite <- (assoc_L (++)).
    + apply IH.
    + simpl. rewrite app_nil_r. by destruct store.
Qed.

Lemma acceptedChunks_rows i docId k chunks :
  Forall (λ c, chunk_document_id c = docId) (acceptedChunks env i docId k chunks).2 ∧
  length (acceptedChunks env i docId k chunks).2 ≤ length chunks.
Proof.
  revert k. induction chunks as [|chunk rest IH]; intros k; simpl.
  - split; [constructor | lia].
  - destruct (reply env (InsertChunk i k)).
    + destruct (IH (S k)) as [H1 H2].
      destruct (acceptedChunks env i docId (S k) rest) as [error rows]. simpl in *.
      split; [by constructor | lia].
    + destruct (IH (S k)) as [H1 H2]. split; [done | lia].
    + simpl. split; [constructor | lia].
Qed.

Lemma completed_other i text chunks docId (rows : list DocumentRecord) :
  docId ∉ id <$> rows → completed env i text chunks docId <$> rows = rows.
Proof.
  induction rows as [|row rows IH]; [done |]. rewrite !fmap_cons.
  intros Hn. apply not_elem_of_cons in Hn as [Hrow Hrows].
  rewrite (IH Hrows). f_equal. unfold completed.
  rewrite bool_decide_eq_false_2; [done | congruence].
Qed.

Lemma processFile_frame userId i file store :
  document_uuid env i ∉ id <$> documents store →
  processFile userId i file store
  = ((processFile userId i file empty_store).1,
     add_rows store (written toLowerCase env userId i file)).
Proof.
  intros Hfresh. unfold written, processFile.
  destruct (reply env (InsertDocument i));
    [| by unfold add_rows; simpl; rewrite !app_nil_r; destruct store
     | by unfold add_rows; simpl; rewrite !app_nil_r; destruct store].
  rewrite !storeChunks_accepted. cbn [documents document_chunks empty_store].
  destruct (reply env (UpdateDocument i)).
  - cbn [documents document_chunks].
    rewrite fmap_app, (completed_other _ _ _ _ _ Hfresh).
    destruct (acceptedChunks _ _ _ _ _) as [[e|] rows]; by simpl.
  - cbn [documents document_chunks].
    destruct (acceptedChunks _ _ _ _ _) as [[e|] rows]; by simpl.
  - unfold add_rows. simpl. by rewrite app_nil_r.
Qed.

Lemma written_rows userId i file :
  let more := written toLowerCase env userId i file in
  Forall (λ d, id d = document_uuid env i ∧ user_id d = userId ∧
               filename d = name file ∧
               file_type d = getFileType toLowerCase (name file))
         (documents more) ∧
  Forall (λ c, chunk_document_id c = document_uuid env i) (document_chunks more) ∧
  (document_chunks more ≠ [] → documents more ≠ []) ∧
  length (document_chunks more) ≤ length (chunksOf file).
Proof.
  unfold written, processFile.
  destruct (reply env (InsertDocument i)); simpl;
    [| split_and!; [constructor | constructor | done | lia]
     | split_and!; [constructor | constructor | done | lia]].
  rewrite !storeChunks_accepted. cbn [documents document_chunks empty_store].
  fold (chunksOf file).
  destruct (acceptedChunks_rows i (document_uuid env i) 0 (chunksOf file)) as [Hrows Hlen].
  destruct (reply env (UpdateDocument i)).
  - destruct (acceptedChunks _ _ _ _ _) as [[e|] rows]; simpl in *.
    + unfold completed. rewrite bool_decide_eq_true_2 by done.
      split_and!; [by repeat constructor | done | done | done].
    + unfold completed. rewrite bool_decide_eq_true_2 by done.
      split_and!; [by repeat constructor | done | done | done].
  - destruct (acceptedChunks _ _ _ _ _) as [[e|] rows]; simpl in *.
    + split_and!; [by repeat constructor | done | done | done].
    + split_and!; [by repeat constructor | done | done | done].
  - simpl. split_and!; [by repeat constructor | constructor | done | lia].
Qed.

Lemma add_rows_empty store : add_rows store empty_store = store.
Proof. unfold add_rows. simpl. rewrite !app_nil_r. by destruct store. Qed.

Lemma add_rows_assoc s t u : add_rows (add_rows s t) u = add_rows s (add_rows t u).
Proof. unfold add_rows. simpl. by rewrite <- !(assoc_L (++)). Qed.

Lemma processFiles_frame userId i files store :
  (∀ j, j < length files → document_uuid env (i + j) ∉ id <$> documents store) →
  (∀ j j', j < length files → j' < length files →
           document_uuid env (i + j) = document_uuid env (i + j') → j = j') →
  (processFiles userId i files store).2
  = add_rows store (writtenAll toLowerCase env userId i files).
Proof.
  revert i store. induction files as [|file rest IH]; intros i store Hnew Hinj.
  - simpl. by rewrite add_rows_empty.
  - simpl. rewrite processFile_frame.
    2:{ specialize (Hnew 0). rewrite Nat.add_0_r in Hnew. apply Hnew. simpl. lia. }
    specialize (IH (S i) (add_rows store (written toLowerCase env userId i file))).
    destruct (processFiles userId (S i) rest _) as [entries store2].
    simpl in *. rewrite IH.
    + apply add_rows_assoc.
    + intros j Hj. unfold add_rows. simpl. rewrite fmap_app.
      intros Hin. apply elem_of_app in Hin as [Hin | Hin].
      * apply (Hnew (S j)); [lia |]. by replace (i + S j) with (S (i + j)) by lia.
      * destruct (written_rows userId i file) as (Hdocs & _).
        apply list_elem_of_fmap in Hin as (d & Hid & Hd).
        rewrite Forall_forall in Hdocs. destruct (Hdocs d Hd) as (Hd0 & _).
        rewrite Hd0 in Hid.
        specialize (Hinj (S j) 0). rewrite Nat.add_0_r in Hinj.
        replace (i + S j) with (S (i + j)) in Hinj by lia.
        discriminate Hinj; [lia | lia | done].
    + intros j j' Hj Hj' Heq.
      specialize (Hinj (S j) (S j')).
      replace (i + S j) with (S (i + j)) in Hinj by lia.
      replace (i + S j') with (S (i + j')) in Hinj by lia.
      assert (S j = S j') by (apply Hinj; [lia | lia | done]). lia.
Qed.

Lemma writtenAll_rows userId i files :
  let more := writtenAll toLowerCase env userId i files in
  Forall (λ d, user_id d = userId ∧
               ∃ j file, files !! j = Some file ∧
                         id d = document_uuid env (i + j) ∧
                         filename d = name file ∧
                         file_type d = getFileType toLowerCase (name file))
         (documents more) ∧
  Forall (λ c, ∃ d, d ∈ documents more ∧ chunk_document_id c = id d)
         (document_chunks more).
Proof.
  revert i. induction files as [|file rest IH]; intros i; simpl.
  - split; constructor.
  - destruct (IH (S i)) as [Hdocs Hchunks].
    destruct (written_rows userId i file) as (Hd & Hc & Hsome & _).
    split.
    + apply Forall_app. split.
      * eapply Forall_impl; [exact Hd |]. simpl.
        intros d (Hid & Hu & Hf & Ht). split; [done |].
        exists 0, file. by rewrite Nat.add_0_r.
      * eapply Forall_impl; [exact Hdocs |]. simpl.
        intros d (Hu & j & f & Hj & Hid & Hf & Ht). split; [done |].
        exists (S j), f. split_and!; try done.
        by replace (i + S j) with (S i + j) by lia.
    + apply Forall_app. split.
      * destruct (documents (written toLowerCase env userId i file)) as [|d ds] eqn:Hds.
        -- destruct (document_chunks (written toLowerCase env userId i file));
             [constructor | by destruct Hsome].
        -- eapply Forall_impl; [exact Hc |]. simpl. intros c Hcid.
           exists d. split; [by left |].
           apply Forall_cons in Hd as [(Hid & _) _]. congruence.
      * eapply Forall_impl; [exact Hchunks |]. simpl.
        intros c (d & Hd' & Hcid). exists d. split; [| done].
        apply elem_of_app. by right.
Qed.

Lemma acceptedChunks_sublist i docId k chunks :
  chunk_text <$> (acceptedChunks env i docId k chunks).2 `sublist_of` text <$> chunks.
Proof.
  revert k. induction chunks as [|chunk rest IH]; intros k; simpl; [done |].
  destruct (reply env (InsertChunk i k)).
  - specialize (IH (S k)).
    destruct (acceptedChunks env i docId (S k) rest) as [error rows]. simpl in *.
    by apply sublist_skip.
  - apply sublist_cons, IH.
  - simpl. apply sublist_nil_l.
Qed.

Lemma acceptedChunks_all i docId k chunks :
  (∀ j, j < length chunks → reply env (InsertChunk i (k + j)) = Succeeds) →
  chunk_text <$> (acceptedChunks env i docId k chunks).2 = text <$> chunks ∧
  chunk_index <$> (acceptedChunks env i docId k chunks).2 = index <$> chunks ∧
  chunk_meta <$> (acceptedChunks env i docId k chunks).2 = chunk_metadata <$> chunks.
Proof.
  revert k. induction chunks as [|chunk rest IH]; intros k Hall; [done |].
  cbn [acceptedChunks].
  pose proof (Hall 0) as H0. rewrite Nat.add_0_r in H0.
  rewrite H0 by (simpl; lia).
  destruct (IH (S k)) as (H1 & H2 & H3).
  { intros j Hj. replace (S k + j) with (k + S j) by lia. apply Hall. simpl. lia. }
  destruct (acceptedChunks env i docId (S k) rest) as [error rows]. cbn [snd] in *.
  by rewrite !fmap_cons, H1, H2, H3.
Qed.

Lemma written_chunks userId i file :
  document_chunks (written toLowerCase env userId i file)
  = match reply env (InsertDocument i), reply env (UpdateDocument i) with
    | Succeeds, (Succeeds | ReplyError) =>
        (acceptedChunks env i (document_uuid env i) 0 (chunksOf file)).2
    | _, _ => []
    end.
Proof.
  unfold written, processFile.
  destruct (reply env (InsertDocument i)); [| done | done].
  rewrite !storeChunks_accepted. cbn [documents document_chunks empty_store].
  fold (chunksOf file).
  destruct (reply env (UpdateDocument i)); [| | done].
  - by destruct (acceptedChunks _ _ _ _ _) as [[e|] rows].
  - by destruct (acceptedChunks _ _ _ _ _) as [[e|] rows].
Qed.

Lemma stored_for_add docId s t :
  stored_for docId (add_rows s t) = stored_for docId s ++ stored_for docId t.
Proof. unfold stored_for, add_rows. simpl. apply filter_app. Qed.

Lemma stored_for_all docId store :
  Forall (λ c, chunk_document_id c = docId) (document_chunks store) →
  stored_for docId store = document_chunks store.
Proof.
  unfold stored_for. induction 1 as [|c cs Hc _ IH]; [done |].
  by rewrite filter_cons_True, IH.
Qed.

Lemma stored_for_none docId store :
  Forall (λ c, chunk_document_id c ≠ docId) (document_chunks store) →
  stored_for docId store = [].
Proof.
  unfold stored_for. induction 1 as [|c cs Hc _ IH]; [done |].
  by rewrite filter_cons_False.
Qed.

Lemma stored_for_writtenAll userId i files j file :
  (∀ j j', j < length files → j' < length files →
           document_uuid env (i + j) = document_uuid env (i + j') → j = j') →
  files !! j = Some file →
  stored_for (document_uuid env (i + j)) (writtenAll toLowerCase env userId i files)
  = document_chunks (written toLowerCase env userId (i + j) file).
Proof.
  revert i j. induction files as [|f rest IH]; intros i j Hinj Hj; [done |].
  simpl. rewrite stored_for_add.
  destruct (written_rows userId i f) as (_ & Hc & _).
  destruct j as [|j]; simpl in Hj.
  - injection Hj as ->. rewrite Nat.add_0_r.
    rewrite (stored_for_all _ _ Hc), stored_for_none; [by rewrite app_nil_r |].
    destruct (writtenAll_rows userId (S i) rest) as [Hdocs Hchunks].
    eapply Forall_impl; [exact Hchunks |]. simpl.
    intros c (d & Hd & Hcid) Heq.
    rewrite Forall_forall in Hdocs.
    destruct (Hdocs d Hd) as (_ & j' & f' & Hj' & Hid & _).
    apply lookup_lt_Some in Hj'.
    specialize (Hinj (S j') 0). rewrite Nat.add_0_r in Hinj.
    replace (i + S j') with (S i + j') in Hinj by lia.
    discriminate Hinj; [simpl; lia | simpl; lia | congruence].
  - rewrite stored_for_none.
    + simpl. replace (i + S j) with (S i + j) by lia. apply IH; [| done].
      intros a b Ha Hb Heq. specialize (Hinj (S a) (S b)).
      replace (i + S a) with (S i + a) in Hinj by lia.
      replace (i + S b) with (S i + b) in Hinj by lia.
      assert (S a = S b) by (apply Hinj; simpl; [lia | lia | done]). lia.
    + eapply Forall_impl; [exact Hc |]. simpl. intros c Hcid Heq.
      apply lookup_lt_Some in Hj.
      specialize (Hinj 0 (S j)). rewrite Nat.add_0_r in Hinj.
      discriminate Hinj; [simpl; lia | simpl; lia | congruence].
Qed.

End Upload.

Section UploadOutcome.
Import DocumentProcessor.

Lemma serve_writtenAll toLowerCase env req userId files store :
  uploads env req userId files →
  fresh env store (length files) →
  (serve toLowerCase env req store).2
  = add_rows store (writtenAll toLowerCase env userId 0 files).
Proof.
  intros (Hopt & Hbody & h & Hh & Hrep & Huser) [Hnew Hinj].
  unfold serve. rewrite Hopt, Hh, Hrep, Huser, Hbody.
  destruct files as [|f rest]; [by rewrite add_rows_empty |].
  pose proof (processFiles_frame toLowerCase env userId 0 (f :: rest) store) as Hf.
  destruct (processFiles toLowerCase env userId 0 (f :: rest) store) as [es s'].
  simpl in Hf. simpl. apply Hf.
  - intros j Hj. by apply Hnew.
  - intros j j' Hj Hj'. by apply Hinj.
Qed.

(** X15.  An upload of at least one file by an authenticated caller is
    always answered with one entry per file, in the order of the files,
    and what happens to one file does not depend on the others: the
    entry of a file is [completed], with the id of its document row and
    the number of chunks its content was cut into, exactly when none of
    the calls made for that file throws and the reply of its document
    insert carries no error; otherwise it is an error entry with the
    file's name. *)
Theorem upload_one_entry_per_file :
  ∀ (toLowerCase : jsstring → jsstring) (env : Env) (req : Request)
    (userId : jsstring) (files : list File) (store : Store),
    uploads env req userId files → files ≠ [] →
    ∃ entries,
      (serve toLowerCase env req store).1 = Processed entries ∧
      length entries = length files ∧
      ∀ i file, files !! i = Some file →
        (survives toLowerCase env i file →
           entries !! i
           = Some (EntryCompleted (document_uuid env i) (name file)
                     (length (chunksOf toLowerCase file)))) ∧
        (¬ survives toLowerCase env i file →
           ∃ error, entries !! i = Some (EntryError (name file) error)).
Proof.
  intros toLowerCase env req userId files store (Hopt & Hbody & h & Hh & Hrep & Huser) Hne.
  unfold serve. rewrite Hopt, Hh, Hrep, Huser, Hbody.
  destruct files as [|f rest]; [done |].
  pose proof (processFiles_length toLowerCase env userId 0 (f :: rest) store) as Hlen.
  pose proof (processFiles_lookup toLowerCase env userId 0 (f :: rest) store) as Hlook.
  destruct (processFiles toLowerCase env userId 0 (f :: rest) store) as [entries store'].
  exists entries. split_and!; [done | done |].
  intros i file Hi. destruct (Hlook i file Hi) as (s & Hs). simpl in Hs.
  rewrite Hs. split.
  - intros Hsv. by rewrite (processFile_survives toLowerCase env userId i file s Hsv).
  - intros Hnot.
    destruct (processFile_fails toLowerCase env userId i file s Hnot) as (e & He).
    exists e. by rewrite He.
Qed.

Lemma upload_one_entry_per_file_witness :
  ∃ entries,
    (serve asciiToLowerCase upload_env upload_request empty_store).1
    = Processed entries ∧
    length entries = length upload_files ∧
    ∀ i file, upload_files !! i = Some file →
      (survives asciiToLowerCase upload_env i file →
         entries !! i
         = Some (EntryCompleted (document_uuid upload_env i) (name file)
                   (length (chunksOf asciiToLowerCase file)))) ∧
      (¬ survives asciiToLowerCase upload_env i file →
         ∃ error, entries !! i = Some (EntryError (name file) error)).
Proof.
  apply (upload_one_entry_per_file asciiToLowerCase upload_env upload_request
           (js "alice") upload_files empty_store); [| done].
  split_and!; [done | done |]. exists (js "Bearer token-alice"). by vm_compute.
Defined.

(** X16.  What an upload writes belongs to the caller.  When the ids the
    database hands out are new, the handler only appends: the rows that
    were in [documents] and [document_chunks] stay as they were; every
    document row added carries the caller's id as [user_id], the name of
    one of the uploaded files and the file type computed from that name;
    every chunk row added refers to a document row added by the same
    request; and chunk rows keep referring to stored documents. *)
Theorem upload_rows_belong_to_caller :
  ∀ (toLowerCase : jsstring → jsstring) (env : Env) (req : Request)
    (userId : jsstring) (files : list File) (store : Store),
    uploads env req userId files →
    fresh env store (length files) →
    let store' := (serve toLowerCase env req store).2 in
    ∃ more,
      store' = add_rows store more ∧
      Forall (λ d, user_id d = userId ∧
                   ∃ i file, files !! i = Some file ∧
                             id d = document_uuid env i ∧
                             filename d = name file ∧
                             file_type d = getFileType toLowerCase (name file))
             (documents more) ∧
      Forall (λ c, ∃ d, d ∈ documents more ∧ chunk_document_id c = id d)
             (document_chunks more) ∧
      (linked store → linked store').
Proof.
  intros toLowerCase env req userId files store Hup Hfresh store'.
  exists (writtenAll toLowerCase env userId 0 files).
  destruct (writtenAll_rows toLowerCase env userId 0 files) as [Hdocs Hchunks].
  assert (Hstore : store' = add_rows store (writtenAll toLowerCase env userId 0 files))
    by (by apply serve_writtenAll).
  split_and!; [done | done | done |].
  intros Hlinked c. rewrite Hstore. unfold add_rows. simpl.
  rewrite fmap_app. intros Hc. apply elem_of_app in Hc as [Hc | Hc].
  - apply elem_of_app. left. by apply Hlinked.
  - apply elem_of_app. right. rewrite Forall_forall in Hchunks.
    destruct (Hchunks c Hc) as (d & Hd & ->). by apply list_elem_of_fmap_2.
Qed.

Lemma upload_rows_belong_to_caller_witness :
  ∃ more,
    (serve asciiToLowerCase upload_env upload_request empty_store).2
    = add_rows empty_store more ∧
    Forall (λ d, user_id d = js "alice" ∧
                 ∃ i file, upload_files !! i = Some file ∧
                           id d = document_uuid upload_env i ∧
                           filename d = name file ∧
                           file_type d = getFileType asciiToLowerCase (name file))
           (documents more) ∧
    Forall (λ c, ∃ d, d ∈ documents more ∧ chunk_document_id c = id d)
           (document_chunks more) ∧
    (linked empty_store →
     linked (serve asciiToLowerCase upload_env upload_request empty_store).2).
Proof.
  apply (upload_rows_belong_to_caller asciiToLowerCase upload_env upload_request
           (js "alice") upload_files empty_store).
  - split_and!; [done | done |]. exists (js "Bearer token-alice"). by vm_compute.
  - split.
    + intros i _ Hin. by apply elem_of_nil in Hin.
    + intros [|[|[|i]]] [|[|[|j]]] Hi Hj; simpl in Hi, Hj; try lia;
        by vm_compute.
Defined.

(** X17.  Without a resolved user and at least one file nothing is
    written: a preflight, a request without [Authorization] header (500),
    an unresolved token (401), a body that is no form data (500) and an
    empty list of files (400) all leave both tables as they were, and
    none is answered with a list of processed files. *)
Theorem upload_needs_user_and_files :
  ∀ (toLowerCase : jsstring → jsstring) (env : Env) (req : Request) (store : Store),
    (∀ userId files, uploads env req userId files → files = []) →
    (serve toLowerCase env req store).2 = store ∧
    (serve toLowerCase env req store).1
      ∈ [Preflight; Unauthorized; NoFiles; Failed NullHeader;
         Failed (Rejected GetUser); Failed NoFormData].
Proof.
  intros toLowerCase env req store Hnone. unfold serve.
  destruct (is_options req) eqn:Hopt; [split; [done | by left] |].
  destruct (authorization req) as [h|] eqn:Hh;
    [| split; [done | do 3 right; by left]].
  destruct (reply env GetUser) eqn:Hrep;
    [| split; [done | right; by left]
     | split; [done | do 4 right; by left]].
  destruct (getUser env _) as [userId|] eqn:Huser;
    [| split; [done | right; by left]].
  destruct (body req) as [[|f rest]|] eqn:Hbody.
  - split; [done | do 2 right; by left].
  - assert (Hup : uploads env req userId (f :: rest)).
    { split_and!; [done | done |]. by exists h. }
    by apply Hnone in Hup.
  - split; [done | do 5 right; by left].
Qed.

Lemma upload_needs_user_and_files_witness :
  (serve asciiToLowerCase upload_env
     {| is_options := false; authorization := None; body := Some upload_files |}
     empty_store).2 = empty_store ∧
  (serve asciiToLowerCase upload_env
     {| is_options := false; authorization := None; body := Some upload_files |}
     empty_store).1
    ∈ [Preflight; Unauthorized; NoFiles; Failed NullHeader;
       Failed (Rejected GetUser); Failed NoFormData].
Proof.
  apply (upload_needs_user_and_files asciiToLowerCase upload_env
           {| is_options := false; authorization := None; body := Some upload_files |}
           empty_store).
  by intros userId files (_ & _ & h & Hh & _).
Defined.

(** X18.  A [completed] entry reports the chunks that were cut, not the
    chunks that were stored.  With new ids and chunk rows that refer to
    stored documents, the texts of the chunk rows found under the id of
    the file at position [i] after the request are, in order, texts of
    chunks cut from that file, never more than were cut; they are all the
    chunks, with their indices and metadata, when the document insert and
    every chunk insert of the file succeed and the update does not throw.
    The entry can overstate: when every write after the document insert
    is answered with an error the files are reported [completed] with
    their chunk counts while no chunk row is stored and the document rows
    still say [processing]. *)
Theorem upload_reports_cut_chunks :
  (∀ (toLowerCase : jsstring → jsstring) (env : Env) (req : Request)
     (userId : jsstring) (files : list File) (store : Store) (i : nat) (file : File),
     uploads env req userId files →
     fresh env store (length files) →
     linked store →
     files !! i = Some file →
     let rows := stored_for (document_uuid env i)
                   (serve toLowerCase env req store).2 in
     let chunks := chunksOf toLowerCase file in
     chunk_text <$> rows `sublist_of` text <$> chunks ∧
     length rows ≤ length chunks ∧
     (reply env (InsertDocument i) = Succeeds →
      reply env (UpdateDocument i) ≠ Throws →
      (∀ k, k < length chunks → reply env (InsertChunk i k) = Succeeds) →
      chunk_text <$> rows = text <$> chunks ∧
      chunk_index <$> rows = index <$> chunks ∧
      chunk_meta <$> rows = chunk_metadata <$> chunks)) ∧
  (∃ entries store',
     serve asciiToLowerCase refusing_env upload_request empty_store
     = (Processed entries, store') ∧
     Forall (λ e, ∃ docId filename n, e = EntryCompleted docId filename n ∧ 0 < n)
            entries ∧
     document_chunks store' = [] ∧
     Forall (λ d, status d = js "processing") (documents store')).
Proof.
  split.
  - intros toLowerCase env req userId files store i file Hup Hfresh Hlinked Hi rows chunks.
    pose proof (serve_writtenAll toLowerCase env req userId files store Hup Hfresh)
      as Hmore.
    assert (Hrows : rows = document_chunks (written toLowerCase env userId i file)).
    { unfold rows. rewrite Hmore, stored_for_add.
      destruct Hfresh as [Hnew Hinj].
      rewrite stored_for_none.
      - simpl. apply (stored_for_writtenAll toLowerCase env userId 0 files i file);
          [| done].
        intros j j' Hj Hj'. by apply Hinj.
      - apply Forall_forall. intros c Hc Heq.
        apply (Hnew i); [by apply lookup_lt_Some in Hi |].
        rewrite <- Heq. by apply Hlinked. }
    rewrite Hrows, written_chunks. fold chunks.
    pose proof (acceptedChunks_sublist env i (document_uuid env i) 0 chunks) as Hsub.
    pose proof (acceptedChunks_rows env i (document_uuid env i) 0 chunks) as [_ Hlen].
    split_and!.
    + destruct (reply env (InsertDocument i)); [| apply sublist_nil_l | apply sublist_nil_l].
      destruct (reply env (UpdateDocument i)); [done | done | apply sublist_nil_l].
    + destruct (reply env (InsertDocument i)); [| simpl; lia | simpl; lia].
      destruct (reply env (UpdateDocument i)); [done | done | simpl; lia].
    + intros Hins Hupd Hall. rewrite Hins.
      destruct (reply env (UpdateDocument i)); [| | done].
      * by apply acceptedChunks_all.
      * by apply acceptedChunks_all.
  - eexists _, _. split; [by vm_compute |]. split_and!.
    + do 3 (constructor; [eexists _, _, _; split; [reflexivity | lia] |]).
      constructor.
    + done.
    + do 3 (constructor; [reflexivity |]). constructor.
Qed.

Lemma upload_reports_cut_chunks_witness :
  let rows := stored_for (document_uuid upload_env 2)
                (serve asciiToLowerCase upload_env upload_request empty_store).2 in
  let chunks := chunksOf asciiToLowerCase
                  {| name := js "cv.pdf"; size := 1; contents := [] |} in
  chunk_text <$> rows `sublist_of` text <$> chunks ∧
  length rows ≤ length chunks ∧
  (reply upload_env (InsertDocument 2) = Succeeds →
   reply upload_env (UpdateDocument 2) ≠ Throws →
   (∀ k, k < length chunks → reply upload_env (InsertChunk 2 k) = Succeeds) →
   chunk_text <$> rows = text <$> chunks ∧
   chunk_index <$> rows = index <$> chunks ∧
   chunk_meta <$> rows = chunk_metadata <$> chunks).
Proof.
  apply (proj1 upload_reports_cut_chunks asciiToLowerCase upload_env upload_request
           (js "alice") upload_files empty_store 2).
  - split_and!; [done | done |]. exists (js "Bearer token-alice"). by vm_compute.
  - split.
    + intros i _ Hin. by apply elem_of_nil in Hin.
    + intros [|[|[|i]]] [|[|[|j]]] Hi Hj; simpl in Hi, Hj; try lia;
        by vm_compute.
  - intros c Hc. by apply elem_of_nil in Hc.
  - done.
Defined.

End UploadOutcome.

Section CSV.
Import DocumentProcessor.

Lemma split_prefix sep p s :
  sep ∉ p → hd [] (split sep (p ++ s)) = p ++ hd [] (split sep s).
Proof.
  induction p as [|c p IH]; [done |].
  intros Hn. apply not_elem_of_cons in Hn as [Hc Hp]. simpl.
  destruct (N.eqb_spec c sep) as [-> | _]; [done |].
  specialize (IH Hp).
  destruct (split_cons_inv sep (p ++ s)) as (q & qs & Hq).
  rewrite Hq in *. simpl in *. by rewrite IH.
Qed.

Lemma split_two sep p s : 2 ≤ length (split sep (p ++ sep :: s)).
Proof.
  rewrite split_app, length_app.
  pose proof (split_length sep p). pose proof (split_length sep s). lia.
Qed.

Lemma rowLoop_texts turns lines headers i c :
  c ∈ rowLoop turns lines headers i → ∃ rest, text c = headers ++ rest.
Proof.
  revert i. induction turns as [|turns IH]; intros i; simpl.
  - by intros ?%elem_of_nil.
  - destruct (i <? length lines); [| by intros ?%elem_of_nil].
    intros [-> | Hc]%elem_of_cons; [by eexists | by apply (IH (i + 10))].
Qed.

Lemma parseCSVContent_lines csv csv' :
  length (split LF csv') = length (split LF csv) →
  take 10 (split LF csv') = take 10 (split LF csv) →
  parseCSVContent csv' = parseCSVContent csv.
Proof.
  intros Hlen Htake. unfold parseCSVContent.
  assert (Hhd : hd [] (split LF csv') = hd [] (split LF csv)).
  { destruct (split LF csv') as [|a l'], (split LF csv) as [|b l]; simpl in *;
      congruence. }
  assert (Hrows : take 9 (drop 1 (split LF csv')) = take 9 (drop 1 (split LF csv))).
  { rewrite !take_drop_commute. simpl. by rewrite Htake. }
  by rewrite Hlen, Hhd, Hrows.
Qed.

End CSV.

Section CSVUpload.
Import DocumentProcessor.

(** X19.  A file of type [csv] is chunked as its rendering, not as its
    rows: the handler cuts the text [parseCSVContent] made of it, so there
    is always at least one chunk (for an empty file too), every chunk
    text begins with the summary line [CSV Document with ...], and the
    chunks depend on the file through its first ten lines and its number
    of lines only: data after the ninth row reaches no chunk. *)
Theorem csv_chunks_of_rendering :
  ∀ (toLowerCase : jsstring → jsstring) (file : File),
    getFileType toLowerCase (name file) = js "csv" →
    let chunks := chunksOf toLowerCase file in
    chunks = chunkByDataRows (parseCSVContent (contents file)) ∧
    chunks ≠ [] ∧
    (∀ c, c ∈ chunks → ∃ rest, text c = js "CSV Document with " ++ rest) ∧
    (∀ file', name file' = name file →
       length (split LF (contents file')) = length (split LF (contents file)) →
       take 10 (split LF (contents file')) = take 10 (split LF (contents file)) →
       chunksOf toLowerCase file' = chunks).
Proof.
  intros toLowerCase file Htype chunks.
  assert (Hchunks : ∀ f, name f = name file →
            chunksOf toLowerCase f = chunkByDataRows (parseCSVContent (contents f))).
  { intros f Hf. unfold chunksOf, extractTextContent, intelligentChunking.
    rewrite Hf, Htype. by vm_compute. }
  split_and!.
  - by apply Hchunks.
  - unfold chunks. rewrite (Hchunks file eq_refl).
    unfold chunkByDataRows, parseCSVContent.
    set (lines := split LF (contents file)).
    set (summary := js "CSV Document with " ++ js (pretty (length lines - 1)) ++
                    js " rows and columns: " ++ join (js ", ") (split 44 (hd [] lines))).
    set (rest := [LF] ++ concat ((λ line, renderRow (split 44 (hd [] lines)) (split 44 line))
                                   <$> take 9 (drop 1 lines))).
    assert (Hrender : js "CSV Document with " ++ js (pretty (length lines - 1)) ++
                      js " rows and columns: " ++
                      join (js ", ") (split 44 (hd [] lines)) ++ [LF; LF] ++
                      concat ((λ line, renderRow (split 44 (hd [] lines)) (split 44 line))
                                <$> take 9 (drop 1 lines))
                      = summary ++ LF :: rest).
    { unfold summary, rest. by rewrite <- !(assoc_L (++)). }
    rewrite Hrender.
    pose proof (split_two LF summary rest) as Htwo.
    destruct (length (split LF (summary ++ LF :: rest))) as [|[|n]] eqn:Hn; [lia | lia |].
    cbn [rowLoop]. rewrite Hn. by replace (1 <? S (S n)) with true by done.
  - intros c. unfold chunks. rewrite (Hchunks file eq_refl).
    unfold chunkByDataRows. intros Hc.
    apply rowLoop_texts in Hc as (rest & ->).
    unfold parseCSVContent. rewrite split_prefix.
    + eexists. by rewrite <- (assoc_L (++)).
    + intros Hin. vm_compute in Hin.
      repeat (apply elem_of_cons in Hin as [Hin | Hin]; [done |]).
      by apply elem_of_nil in Hin.
  - intros file' Hname Hlen Htake. unfold chunks.
    rewrite (Hchunks file' Hname), (Hchunks file eq_refl).
    by rewrite (parseCSVContent_lines _ _ Hlen Htake).
Qed.

Lemma csv_chunks_of_rendering_witness :
  let chunks := chunksOf asciiToLowerCase
                  {| name := js "staff.CSV"; size := 20;
                     contents := js "name,role" ++ [LF] ++ js "Ann,dev" ++ [LF] ++
                                 js "Bob,ops" |} in
  chunks ≠ [] ∧
  ∀ c, c ∈ chunks → ∃ rest, text c = js "CSV Document with " ++ rest.
Proof.
  pose proof (csv_chunks_of_rendering asciiToLowerCase
                {| name := js "staff.CSV"; size := 20;
                   contents := js "name,role" ++ [LF] ++ js "Ann,dev" ++ [LF] ++
                               js "Bob,ops" |} eq_refl) as (_ & Hne & Hall & _).
  by split.
Defined.

End CSVUpload.

(** * Schema discovery *)

Section Discovery.
Import SchemaDiscovery.

Variable inherited : jsstring → bool.
Variable env : Env.

Lemma storeTables_databases databaseId k tables store :
  discovered_databases (storeTables env databaseId k tables store).2
  = discovered_databases store.
Proof.
  revert k store. induction tables as [|table rest IH]; intros k store; simpl; [done |].
  destruct (reply env (InsertTable k)); [by rewrite IH | by rewrite IH | done].
Qed.

Lemma storeTables_outcome databaseId k tables store :
  (storeTables env databaseId k tables store).1 = None ↔
  ∀ j, j < length tables → reply env (InsertTable (k + j)) ≠ Throws.
Proof.
  revert k store. induction tables as [|table rest IH]; intros k store; simpl.
  - split; [intros _ j Hj; lia | done].
  - destruct (reply env (InsertTable k)) eqn:Hr.
    + rewrite IH. split.
      * intros H [|j] Hj; [rewrite Nat.add_0_r; congruence |].
        replace (k + S j) with (S k + j) by lia. apply H. lia.
      * intros H j Hj. replace (S k + j) with (k + S j) by lia. apply H. lia.
    + rewrite IH. split.
      * intros H [|j] Hj; [rewrite Nat.add_0_r; congruence |].
        replace (k + S j) with (S k + j) by lia. apply H. lia.
      * intros H j Hj. replace (S k + j) with (k + S j) by lia. apply H. lia.
    + simpl. split; [done |]. intros H. destruct (H 0); [lia |].
      by rewrite Nat.add_0_r.
Qed.

Lemma serve_databases req userId connection store :
  connects env req userId connection →
  discovered_databases (serve inherited env req store).2
  = discovered_databases store ++
    match reply env InsertDatabase with
    | Succeeds =>
        [{| id := database_uuid env;
            user_id := userId;
            connection_name := connectionName connection;
            database_type := databaseType connection;
            connection_string := connectionString connection;
            schema_data := analyzeDatabase inherited (connectionString connection)
                             (databaseType connection);
            status := js "active" |}]
    | _ => []
    end.
Proof.
  intros (Hopt & Hbody & h & Hh & Hrep & Huser).
  unfold serve. rewrite Hopt, Hh, Hrep, Huser, Hbody.
  destruct (reply env InsertDatabase); simpl; [| by rewrite app_nil_r | by rewrite app_nil_r].
  destruct (analyzeDatabase _ _ _) as [schema | key]; [| done].
  cbn [id].
  match goal with
  | |- context [storeTables env ?d 0 ?t ?s] =>
      pose proof (storeTables_databases d 0 t s) as Hdb;
      destruct (storeTables env d 0 t s) as [[e|] s']
  end; simpl in *; by rewrite Hdb.
Qed.

End Discovery.

Section DiscoveryOutcome.
Import SchemaDiscovery.

(** X20.  Discovery never looks at the database it is pointed to.  For a
    database type that names no member of the runtime's
    [Object.prototype], whatever the connection string and the type, the
    schema is the fixed one with the tables [employees] and
    [departments]: a successful response carries the id of the new row,
    that schema and the message [Discovered 2 tables with 10 columns],
    and is sent exactly when the database insert succeeds and neither
    table insert throws; the row stored for the database records the
    caller, the connection as given, that schema and the status [active];
    when the database insert does not succeed nothing is written. *)
Theorem discovery_ignores_connection :
  ∀ (inherited : jsstring → bool) (env : Env) (req : Request)
    (userId : jsstring) (connection : Connection) (store : Store),
    connects env req userId connection →
    inherited (interpolate (databaseType connection)) = false →
    let response := (serve inherited env req store).1 in
    let store' := (serve inherited env req store).2 in
    analyzeDatabase inherited (connectionString connection) (databaseType connection)
    = Discovered postgresql ∧
    (reply env InsertDatabase = Succeeds ∧
     (∀ k, k < 2 → reply env (InsertTable k) ≠ Throws) →
       response = Success (database_uuid env) postgresql
                    (js "Discovered 2 tables with 10 columns")) ∧
    (∀ databaseId schema text, response = Success databaseId schema text →
       reply env InsertDatabase = Succeeds ∧
       (∀ k, k < 2 → reply env (InsertTable k) ≠ Throws)) ∧
    (reply env InsertDatabase = Succeeds →
       discovered_databases store'
       = discovered_databases store ++
         [{| id := database_uuid env;
             user_id := userId;
             connection_name := connectionName connection;
             database_type := databaseType connection;
             connection_string := connectionString connection;
             schema_data := Discovered postgresql;
             status := js "active" |}]) ∧
    (reply env InsertDatabase ≠ Succeeds → store' = store).
Proof.
  intros inherited env req userId connection store Hcon Hkey response store'.
  assert (Han : analyzeDatabase inherited (connectionString connection)
                  (databaseType connection) = Discovered postgresql).
  { unfold analyzeDatabase. rewrite Hkey. by destruct (bool_decide _). }
  pose proof (serve_databases inherited env req userId connection store Hcon) as Hdb.
  destruct Hcon as (Hopt & Hbody & h & Hh & Hrep & Huser).
  assert (Hserve : serve inherited env req store
            = match reply env InsertDatabase with
              | Throws => (Failed (Rejected InsertDatabase), store)
              | ReplyError => (Failed DbError, store)
              | Succeeds =>
                  match storeTables env (database_uuid env) 0 (discovered postgresql)
                          {| discovered_databases :=
                               discovered_databases store ++
                               [{| id := database_uuid env;
                                   user_id := userId;
                                   connection_name := connectionName connection;
                                   database_type := databaseType connection;
                                   connection_string := connectionString connection;
                                   schema_data := Discovered postgresql;
                                   status := js "active" |}];
                             discovered_tables := discovered_tables store |} with
                  | (Some error, s) => (Failed error, s)
                  | (None, s) =>
                      (Success (database_uuid env) postgresql (message postgresql), s)
                  end
              end).
  { unfold serve. by rewrite Hopt, Hh, Hrep, Huser, Hbody, Han. }
  split_and!.
  - done.
  - intros [Hins Htab]. unfold response. rewrite Hserve, Hins.
    match goal with
    | |- context [storeTables env ?d 0 ?t ?s] =>
        pose proof (proj2 (storeTables_outcome env d 0 t s)) as Hout;
        destruct (storeTables env d 0 t s) as [[e|] s']
    end.
    + simpl in Hout. discriminate Hout. intros j Hj. by apply Htab.
    + by vm_compute.
  - intros databaseId schema text. unfold response. rewrite Hserve.
    destruct (reply env InsertDatabase); [| done | done].
    match goal with
    | |- context [storeTables env ?d 0 ?t ?s] =>
        pose proof (proj1 (storeTables_outcome env d 0 t s)) as Hout;
        destruct (storeTables env d 0 t s) as [[e|] s']
    end; [done |].
    intros _. split; [done |]. intros k Hk. by apply (Hout eq_refl k).
  - intros Hins. unfold store'. by rewrite Hdb, Hins, Han.
  - intros Hins. unfold store'. rewrite Hserve.
    by destruct (reply env InsertDatabase).
Qed.

Lemma discovery_ignores_connection_witness :
  (serve is_member discovery_env discovery_request no_databases).1
  = Success (js "db-9") postgresql (js "Discovered 2 tables with 10 columns").
Proof.
  apply (discovery_ignores_connection is_member discovery_env discovery_request
           (js "alice")
           {| connectionString := Some (js "mysql://crm.example/sales");
              connectionName := Some (js "Sales");
              databaseType := Some (js "mysql") |} no_databases).
  - split_and!; [done | done |]. exists (js "Bearer token-alice"). by vm_compute.
  - by vm_compute.
  - split; [done |]. by intros k _.
Defined.

End DiscoveryOutcome.

Lemma filter_other_databases (databaseId userId : jsstring)
    (rows : list SchemaDiscovery.DatabaseRecord) :
  databaseId ∉ SchemaDiscovery.id <$> rows →
  filter (λ row, Some (db_id row) = Some databaseId ∧ db_user_id row = userId)
         (SchemaDiscovery.asDatabaseRow <$> rows) = [].
Proof.
  induction rows as [|row rows IH]; [done |]. rewrite !fmap_cons.
  intros Hn. apply not_elem_of_cons in Hn as [Hrow Hrows].
  rewrite filter_cons_False; [by apply IH |].
  intros [[= Hid] _]. by apply Hrow.
Qed.

(** X21.  A database that discovery stored can be queried by its owner and
    by nobody else.  When the database insert succeeds with a new id, the
    SQL path of the query function, run for the caller with that id,
    finds the database and answers with the statement generated for the
    stored schema; run for any other user it throws [Database not
    found].  This holds whatever the response of the discovery was: when
    a table insert throws afterwards the caller is told that discovery
    failed, and the database row stays. *)
Theorem discovered_database_is_queryable :
  ∀ (inherited : jsstring → bool) (env : SchemaDiscovery.Env)
    (req : SchemaDiscovery.Request) (userId : jsstring)
    (connection : SchemaDiscovery.Connection) (store : SchemaDiscovery.Store)
    (toLowerCase : jsstring → jsstring) (qenv : Env) (query : jsstring) (w : World),
    SchemaDiscovery.connects env req userId connection →
    SchemaDiscovery.reply env SchemaDiscovery.InsertDatabase = Succeeds →
    SchemaDiscovery.database_uuid env
      ∉ SchemaDiscovery.id <$> SchemaDiscovery.discovered_databases store →
    reply qenv OpSelectSchema = Succeeds →
    let databaseId := SchemaDiscovery.database_uuid env in
    let w' := SchemaDiscovery.queried
                (SchemaDiscovery.serve inherited env req store).2 w in
    let schema := SchemaDiscovery.asSchema
                    (SchemaDiscovery.analyzeDatabase inherited
                       (SchemaDiscovery.connectionString connection)
                       (SchemaDiscovery.databaseType connection)) in
    (∃ r, processSQLQuery toLowerCase qenv query (Some databaseId) userId w'
          = (Ok r, w') ∧
          generatedSQL r = Some (generateSQL toLowerCase query schema) ∧
          sqlResults r
          = Some (executeSQL (generateSQL toLowerCase query schema) schema)) ∧
    (∀ other, other ≠ userId →
       processSQLQuery toLowerCase qenv query (Some databaseId) other w'
       = (Throw DatabaseNotFound, w')) ∧
    (inherited (interpolate (SchemaDiscovery.databaseType connection)) = false →
     SchemaDiscovery.reply env (SchemaDiscovery.InsertTable 0) = Throws →
     (SchemaDiscovery.serve inherited env req store).1
     = SchemaDiscovery.Failed (SchemaDiscovery.Rejected (SchemaDiscovery.InsertTable 0))).
Proof.
  intros inherited env req userId connection store toLowerCase qenv query w
    Hcon Hins Hfresh Hsel databaseId w' schema.
  pose proof (serve_databases inherited env req userId connection store Hcon) as Hdb.
  rewrite Hins in Hdb.
  assert (Hrows : ∀ u,
            filter (λ row, Some (db_id row) = Some databaseId ∧ db_user_id row = u)
                   (discovered_databases w')
            = if bool_decide (userId = u)
              then [databaseRow databaseId userId schema] else []).
  { intros u. unfold w', SchemaDiscovery.queried. simpl.
    rewrite Hdb, fmap_app, filter_app, (filter_other_databases _ _ _ Hfresh). simpl.
    unfold SchemaDiscovery.asDatabaseRow at 1. simpl.
    case_bool_decide as Hu.
    - rewrite filter_cons_True; [done |]. by split.
    - rewrite filter_cons_False; [done |]. by intros [_ ?]. }
  split_and!.
  - unfold processSQLQuery, bind, call, ret. rewrite Hsel. cbv beta iota zeta.
    rewrite (Hrows userId), bool_decide_eq_true_2 by done. simpl.
    eexists. split; [reflexivity |]. by simpl.
  - intros other Hother.
    unfold processSQLQuery, bind, call, ret, throw. rewrite Hsel. cbv beta iota zeta.
    rewrite (Hrows other), bool_decide_eq_false_2 by congruence. done.
  - intros Hkey Hthrow.
    destruct Hcon as (Hopt & Hbody & h & Hh & Hrep & Huser).
    unfold SchemaDiscovery.serve. rewrite Hopt, Hh, Hrep, Huser, Hbody, Hins.
    unfold SchemaDiscovery.analyzeDatabase. rewrite Hkey.
    assert (Hschema : (if bool_decide (interpolate (SchemaDiscovery.databaseType connection)
                                       = js "postgresql")
                       then SchemaDiscovery.Discovered SchemaDiscovery.postgresql
                       else SchemaDiscovery.Discovered SchemaDiscovery.postgresql)
                      = SchemaDiscovery.Discovered SchemaDiscovery.postgresql)
      by (by destruct (bool_decide _)).
    rewrite Hschema. simpl. by rewrite Hthrow.
Qed.

Lemma discovered_database_is_queryable_witness :
  let w' := SchemaDiscovery.queried
              (SchemaDiscovery.serve SchemaDiscovery.is_member
                 SchemaDiscovery.discovery_env SchemaDiscovery.discovery_request
                 SchemaDiscovery.no_databases).2 example_world in
  (∃ r, processSQLQuery asciiToLowerCase example_env
          (js "How many employees do we have?") (Some (js "db-9")) (js "alice") w'
        = (Ok r, w') ∧
        generatedSQL r = Some sql_count) ∧
  processSQLQuery asciiToLowerCase example_env
    (js "How many employees do we have?") (Some (js "db-9")) (js "bob") w'
  = (Throw DatabaseNotFound, w').
Proof.
  destruct (discovered_database_is_queryable SchemaDiscovery.is_member
              SchemaDiscovery.discovery_env SchemaDiscovery.discovery_request
              (js "alice")
              {| SchemaDiscovery.connectionString := Some (js "mysql://crm.example/sales");
                 SchemaDiscovery.connectionName := Some (js "Sales");
                 SchemaDiscovery.databaseType := Some (js "mysql") |}
              SchemaDiscovery.no_databases asciiToLowerCase example_env
              (js "How many employees do we have?") example_world)
    as ((r & Hr & Hsql & _) & Hother & _).
  - split_and!; [done | done |]. exists (js "Bearer token-alice"). by vm_compute.
  - done.
  - intros Hin. by apply elem_of_nil in Hin.
  - done.
  - split.
    + exists r. split; [exact Hr | exact Hsql].
    + apply Hother. by vm_compute.
Defined.

Section ContentByType.
Import DocumentProcessor.

(** X22.  What is stored for a file is decided by its name.  For the types
    [pdf] and [docx] the file's content is never read: the text is a
    fixed resume or contract that begins with its title and the file
    name, so two files of the same name get the same text and the same
    chunks, cut by semantic sections, and there is at least one chunk.
    For every type other than [pdf], [docx] and [csv] (so for [txt],
    [unknown] and any other extension) the text is the file's content
    as it is, cut by paragraphs, and the chunks hold all of it but white
    space. *)
Theorem upload_content_by_type :
  ∀ (toLowerCase : jsstring → jsstring) (file : File),
    let fileType := getFileType toLowerCase (name file) in
    let content := extractTextContent toLowerCase file in
    let chunks := chunksOf toLowerCase file in
    (fileType = js "pdf" ∨ fileType = js "docx" →
       (∃ title rest,
          title ∈ [js "Employee Resume - "; js "Employee Contract - "] ∧
          content = title ++ name file ++ rest) ∧
       (∀ file', name file' = name file →
          extractTextContent toLowerCase file' = content ∧
          chunksOf toLowerCase file' = chunks) ∧
       chunks = chunkBySemanticSections content ∧
       chunks ≠ []) ∧
    (fileType ∉ [js "pdf"; js "docx"; js "csv"] →
       content = contents file ∧
       chunks = chunkByParagraphs (contents file) ∧
       visible (concat (text <$> chunks)) = visible (contents file)).
Proof.
  intros toLowerCase file fileType content chunks. split.
  - intros Htype.
    assert (Hcontent : ∀ f, name f = name file →
              extractTextContent toLowerCase f
              = if bool_decide (fileType = js "pdf")
                then simulatePDFExtraction (name file)
                else simulateDOCXExtraction (name file)).
    { intros f Hf. unfold extractTextContent. rewrite Hf. fold fileType.
      destruct Htype as [-> | ->]; by vm_compute. }
    assert (Hchunks : ∀ f, name f = name file →
              chunksOf toLowerCase f
              = chunkBySemanticSections (extractTextContent toLowerCase f)).
    { intros f Hf. unfold chunksOf, intelligentChunking. rewrite Hf. fold fileType.
      destruct Htype as [-> | ->]; by vm_compute. }
    assert (Htitle : ∃ title rest,
              title ∈ [js "Employee Resume - "; js "Employee Contract - "] ∧
              content = title ++ name file ++ rest).
    { unfold content. rewrite (Hcontent file eq_refl).
      case_bool_decide.
      - eexists _, _. split; [by left |]. unfold simulatePDFExtraction. reflexivity.
      - eexists _, _. split; [right; by left |].
        unfold simulateDOCXExtraction. reflexivity. }
    split_and!.
    + done.
    + intros file' Hname. split.
      * unfold content. by rewrite (Hcontent file' Hname), (Hcontent file eq_refl).
      * unfold chunks.
        by rewrite (Hchunks file' Hname), (Hchunks file eq_refl),
                   (Hcontent file' Hname), (Hcontent file eq_refl).
    + apply Hchunks. done.
    + intros Hnone.
      assert (Hvis : visible (concat (text <$> chunks)) = visible content).
      { unfold chunks. rewrite (Hchunks file eq_refl).
        unfold chunkBySemanticSections. rewrite groupSections_visible.
        apply splitRegExp_visible, blankLines_blank. }
      rewrite Hnone in Hvis. simpl in Hvis.
      destruct Htitle as (title & rest & Hin & Hc).
      rewrite Hc, visible_app in Hvis.
      apply elem_of_cons in Hin as [-> | Hin];
        [| apply list_elem_of_singleton in Hin as ->];
        by vm_compute in Hvis.
  - intros Hother.
    assert (Hpdf : fileType ≠ js "pdf") by (intros H; apply Hother; rewrite H; by left).
    assert (Hdocx : fileType ≠ js "docx")
      by (intros H; apply Hother; rewrite H; right; by left).
    assert (Hcsv : fileType ≠ js "csv")
      by (intros H; apply Hother; rewrite H; do 2 right; by left).
    assert (Hcontent : content = contents file).
    { unfold content, extractTextContent. fold fileType.
      rewrite (bool_decide_eq_false_2 _ Hpdf), (bool_decide_eq_false_2 _ Hdocx),
              (bool_decide_eq_false_2 _ Hcsv).
      by destruct (bool_decide (fileType = js "txt")). }
    assert (Hchunks : chunks = chunkByParagraphs (contents file)).
    { unfold chunks, chunksOf, intelligentChunking. fold fileType content.
      rewrite (bool_decide_eq_false_2 _ Hpdf), (bool_decide_eq_false_2 _ Hdocx),
              (bool_decide_eq_false_2 _ Hcsv). simpl. by rewrite Hcontent. }
    split_and!; [done | done |].
    rewrite Hchunks. unfold chunkByParagraphs. rewrite groupSections_visible.
    apply splitRegExp_visible, blankGap_blank.
Qed.

Lemma upload_content_by_type_witness :
  ∃ title rest,
    title ∈ [js "Employee Resume - "; js "Employee Contract - "] ∧
    extractTextContent asciiToLowerCase
      {| name := js "cv.pdf"; size := 1; contents := [] |}
    = title ++ js "cv.pdf" ++ rest.
Proof.
  apply (proj1 (upload_content_by_type asciiToLowerCase
                  {| name := js "cv.pdf"; size := 1; contents := [] |})).
  left. by vm_compute.
Defined.

End ContentByType.

(** ** Uploads and the search *)

(** X23.  The chunks of an upload are returned to the uploader only.
    With the tables of the search holding what the upload handler stored
    under new document ids, and [user_id] read as the parameter of
    [match_documents]: a chunk of an uploaded file passes the [WHERE]
    clause of the search for no user but the uploader, so whichever of the
    qualifying rows a search returns, a returned row whose document is one
    of the uploaded files was asked for by the uploader. *)
Theorem upload_is_searched_by_owner_only :
  ∀ (toLowerCase : jsstring → jsstring) (env : DocumentProcessor.Env)
    (req : DocumentProcessor.Request) (userId : jsstring)
    (files : list DocumentProcessor.File) (store : DocumentProcessor.Store)
    (render : DocumentProcessor.ChunkMetadata → jsstring)
    (cosine_distance : vector → vector → Q) (w : World)
    (query_embedding : vector) (match_threshold : Q) (match_count : nat),
    DocumentProcessor.uploads env req userId files →
    DocumentProcessor.fresh env store (length files) →
    let store' := (DocumentProcessor.serve toLowerCase env req store).2 in
    let w' := DocumentProcessor.searched render store' w in
    let rows user := matching_rows cosine_distance UseVariable w' query_embedding
                       match_threshold match_count (Some user) in
    (∀ user dc d e i,
       clears cosine_distance w' query_embedding match_threshold user dc d e →
       i < length files →
       document_id dc = DocumentProcessor.document_uuid env i →
       user = userId) ∧
    (∀ user m i,
       m ∈ rows user → i < length files →
       m_document_id m = DocumentProcessor.document_uuid env i →
       user = userId).
Proof.
  intros toLowerCase env req userId files store render cosine_distance w
    query_embedding match_threshold match_count Hup Hfresh store' w' rows.
  pose proof (serve_writtenAll toLowerCase env req userId files store Hup Hfresh)
    as Hstore.
  fold store' in Hstore.
  destruct (writtenAll_rows toLowerCase env userId 0 files) as [Hdocs Hchunks].
  rewrite Forall_forall in Hdocs.
  destruct Hfresh as [Hnew Hinj].
  assert (Howner : ∀ d0 i, d0 ∈ DocumentProcessor.documents store' →
            i < length files →
            DocumentProcessor.id d0 = DocumentProcessor.document_uuid env i →
            DocumentProcessor.user_id d0 = userId).
  { intros d0 i Hd0 Hi Hid. rewrite Hstore in Hd0. simpl in Hd0.
    apply elem_of_app in Hd0 as [Hold | Hadded].
    - exfalso. apply (Hnew i Hi). rewrite <- Hid. by apply list_elem_of_fmap_2.
    - by destruct (Hdocs d0 Hadded) as (Hu & _). }
  assert (Hclears : ∀ user dc d e i,
            clears cosine_distance w' query_embedding match_threshold user dc d e →
            i < length files →
            document_id dc = DocumentProcessor.document_uuid env i →
            user = userId).
  { intros user dc d e i (Hdc & Hd & Hjoin & Hown & He & Hlt) Hi Hdoc.
    unfold w', DocumentProcessor.searched in Hd. simpl in Hd.
    apply list_elem_of_fmap in Hd as (d0 & -> & Hd0). simpl in *.
    assert (Hu : DocumentProcessor.user_id d0 = userId).
    { apply (Howner d0 i Hd0 Hi). congruence. }
    congruence. }
  split; [exact Hclears |].
  intros user m i Hm Hi Hdoc.
  apply matching_rows_sound in Hm as (dc & d & e & Hc & ->).
  by apply (Hclears user dc d e i Hc Hi).
Qed.

Lemma upload_is_searched_by_owner_only_witness :
  let w' := DocumentProcessor.searched (λ _, js "{}")
              (DocumentProcessor.serve asciiToLowerCase DocumentProcessor.upload_env
                 DocumentProcessor.upload_request DocumentProcessor.bob_store).2
              example_world in
  let rows user := matching_rows unit_cosine_distance UseVariable w' [1; 0]%Q
                     (7 # 10) 10 (Some (js user)) in
  m_document_id <$> rows "alice" = [js "doc-2"; js "doc-0"; js "doc-2"] ∧
  m_document_id <$> rows "bob" = [js "doc-bob"] ∧
  Forall (λ m, m_document_id m ≠ js "doc-0") (rows "bob").
Proof.
  cbv zeta. split; [by vm_compute |]. split; [by vm_compute |].
  assert (Hup : DocumentProcessor.uploads DocumentProcessor.upload_env
                  DocumentProcessor.upload_request (js "alice")
                  DocumentProcessor.upload_files).
  { split_and!; [done | done |]. exists (js "Bearer token-alice"). by vm_compute. }
  assert (Hfresh : DocumentProcessor.fresh DocumentProcessor.upload_env
                     DocumentProcessor.bob_store
                     (length DocumentProcessor.upload_files)).
  { split.
    - intros [|[|[|i]]] Hi Hin; simpl in Hi; try lia;
        apply list_elem_of_singleton in Hin; by vm_compute in Hin.
    - intros [|[|[|i]]] [|[|[|j]]] Hi Hj; simpl in Hi, Hj; try lia;
        by vm_compute. }
  apply Forall_forall. intros m Hm Hdoc.
  pose proof (proj2 (upload_is_searched_by_owner_only asciiToLowerCase
                DocumentProcessor.upload_env DocumentProcessor.upload_request
                (js "alice") DocumentProcessor.upload_files
                DocumentProcessor.bob_store (λ _, js "{}") unit_cosine_distance
                example_world [1; 0]%Q (7 # 10) 10 Hup Hfresh)
              (js "bob") m 0 Hm ltac:(simpl; lia) Hdoc) as Hbad.
  by vm_compute in Hbad.
Defined.

(** ** Keys of questions that begin alike *)

(** X24.  The key is cut from the beginning of the string it encodes.  When
    a question begins with a prefix of [3 n] code units whose base64
    encoding holds at least 32 letters and digits (24 letters and spaces
    are enough), the key is the first 32 of those, whatever follows in
    the question and whatever the dataset and the user are: questions
    that begin alike are cached under one key. *)
Theorem generateCacheKey_prefix :
  ∀ (prefix rest : jsstring) (databaseId : option jsstring) (userId : jsstring)
    (n : nat),
    length prefix = 3 * n →
    32 ≤ length (filter (λ c, alnum c = true) (base64 prefix)) →
    latin1 (keyContent (prefix ++ rest) databaseId userId) = true →
    generateCacheKey (prefix ++ rest) databaseId userId
    = Ok (take 32 (filter (λ c, alnum c = true) (base64 prefix))).
Proof.
  intros prefix rest databaseId userId n Hlen Hlong Hlatin.
  unfold generateCacheKey, btoa. rewrite Hlatin.
  unfold keyContent. rewrite <- (assoc_L (++)).
  rewrite (base64_app prefix _ n Hlen), filter_app.
  by rewrite take_app_le.
Qed.

Lemma generateCacheKey_prefix_witness :
  generateCacheKey (js "How many employees do we" ++ js " have in Sales?")
    (Some (js "db-2")) (js "bob")
  = Ok (take 32 (filter (λ c, alnum c = true)
                   (base64 (js "How many employees do we")))) ∧
  generateCacheKey (js "How many employees do we" ++ js " have in Engineering?")
    (Some (js "db-1")) (js "alice")
  = Ok (take 32 (filter (λ c, alnum c = true)
                   (base64 (js "How many employees do we")))).
Proof.
  split.
  - apply (generateCacheKey_prefix (js "How many employees do we")
             (js " have in Sales?") (Some (js "db-2")) (js "bob") 8).
    + reflexivity.
    + vm_compute. lia.
    + reflexivity.
  - apply (generateCacheKey_prefix (js "How many employees do we")
             (js " have in Engineering?") (Some (js "db-1")) (js "alice") 8).
    + reflexivity.
    + vm_compute. lia.
    + reflexivity.
Defined.
